(** * Going against the odds: the Monte Carlo resampling core

    A shallow embedding of the simulation cells of
    [going_against_the_odds.ipynb]: the construction of the payout matrix
    [arr_mc], the samplers [select_random_row] and [select_random_col], the
    terminal-profit engine [monte_carlo_sum], the trajectory loop that fills
    [timeseries_arr] and the percentile reduction [quantiles].

    Conventions.
    - Payouts are NumPy [float64] values: Rocq's primitive binary64 floats,
      with their rounding, signed zeros, infinities and NaN.
    - Python [int] arguments ([iteration], [batch], ...) are [Z]; array
      lengths and indices are [nat].
    - The process-wide generator behind [np.random] is threaded explicitly
      through a state-and-exception monad.  The generator itself (a
      Mersenne Twister) is a parameter of the development: a [Generator]
      packs its state space, its seeding function and its bounded draw.
    - A Python exception is a [Raise] outcome; the generator state reached
      when it is raised is kept, as it is for the global generator.
    - [np.percentile] is library code. It is modelled twice: as NumPy
      carries out its default method on a [float64] matrix, every operation
      rounded to binary64 ([np_percentile_f64], [quantiles_f64]), and by the
      same method in exact arithmetic over rationals ([np_percentile],
      [quantiles]), the reference that the binary64 computation
      approximates. Statements name the model they are about. *)

From Stdlib Require Import List ZArith Lia Bool Arith String Floats.
From Stdlib Require Import QArith Qround Lqa Permutation Sorted Orders Mergesort.
Import ListNotations.

Set Warnings "-inexact-float".

(** ** Exceptions and the sampling monad *)

Inductive exn : Type :=
| ValueError
| IndexError.

Inductive outcome (A : Type) : Type :=
| Ok (a : A)
| Raise (e : exn).

Arguments Ok {A} a.
Arguments Raise {A} e.

(** The pseudo-random generator behind [np.random]. [rng_seed] is
    [np.random.seed]; [rng_randint n] is one bounded draw from [0, n). *)
Record Generator : Type := {
  rng_state : Type;
  rng_seed : Z -> rng_state;
  rng_randint : nat -> rng_state -> nat * rng_state
}.

(** The contract of a bounded draw: the index lies below the bound. *)
Definition in_range (G : Generator) : Prop :=
  forall (n : nat) (s : rng_state G), (0 < n)%nat -> (fst (rng_randint G n s) < n)%nat.

Definition M (S A : Type) : Type := S -> outcome A * S.

Definition ret {S A : Type} (a : A) : M S A := fun s => (Ok a, s).

Definition raise {S A : Type} (e : exn) : M S A := fun s => (Raise e, s).

Definition bind {S A B : Type} (m : M S A) (k : A -> M S B) : M S B :=
  fun s =>
    match m s with
    | (Ok a, s') => k a s'
    | (Raise e, s') => (Raise e, s')
    end.

Declare Scope sampling_scope.
Delimit Scope sampling_scope with sampling.

Notation "x <- m ;; k" := (bind m (fun x => k))
  (at level 100, m at next level, right associativity) : sampling_scope.
Notation "m ;;; k" := (bind m (fun _ => k))
  (at level 100, right associativity) : sampling_scope.

Open Scope sampling_scope.

(** [for x in l: acc = body x acc], stopping at the first exception. *)
Fixpoint for_each {S A B : Type} (l : list A) (body : A -> B -> M S B) (acc : B)
  : M S B :=
  match l with
  | [] => ret acc
  | x :: rest => acc' <- body x acc ;; for_each rest body acc'
  end.

(** ** Arrays *)

Definition float64 : Type := PrimFloat.float.

(** A one-dimensional [float64] array and a two-dimensional one, by rows. *)
Definition ndarray1 : Type := list float64.
Definition ndarray2 : Type := list (list float64).

(** [a.shape[0]]. *)
Definition shape0 {A : Type} (a : list A) : nat := List.length a.

(** The content of a freshly allocated cell ([np.empty] leaves it
    unspecified; every cell is written before it is read below). *)
Definition uninit : float64 := 0%float.

(** [a[i] = v] on an allocated array; an index past the end changes nothing
    here (the loops below only write inside the allocation). *)
Fixpoint setitem {A : Type} (a : list A) (i : nat) (v : A) : list A :=
  match a, i with
  | [], _ => []
  | _ :: rest, O => v :: rest
  | x :: rest, S j => x :: setitem rest j v
  end.

(** [arr.sum()] as numba compiles it: [c = 0; for v in arr: c += v]. *)
Definition array_sum (arr : ndarray1) : float64 :=
  fold_left PrimFloat.add arr 0%float.

(** [np.cumsum]: [out[0] = a[0]], [out[i] = out[i-1] + a[i]]. *)
Fixpoint cumsum_from (acc : float64) (a : ndarray1) : ndarray1 :=
  match a with
  | [] => []
  | x :: rest => let acc' := PrimFloat.add acc x in acc' :: cumsum_from acc' rest
  end.

Definition np_cumsum (a : ndarray1) : ndarray1 :=
  match a with
  | [] => []
  | x :: rest => x :: cumsum_from x rest
  end.

Section Engine.

Variable G : Generator.

Local Abbreviation Sampling := (M (rng_state G)).

(** ** NumPy primitives *)

(** [np.random.seed(z)]: the global generator is replaced. *)
Definition np_random_seed (z : Z) : Sampling unit :=
  fun _ => (Ok tt, rng_seed G z).

(** [np.random.randint(0, n)]: an empty range is a [ValueError]. *)
Definition np_random_randint (n : nat) : Sampling nat :=
  fun s =>
    match n with
    | O => (Raise ValueError, s)
    | S _ => let (j, s') := rng_randint G n s in (Ok j, s')
    end.

(** [size] successive draws from [0, n). *)
Fixpoint draws (n size : nat) : Sampling (list nat) :=
  match size with
  | O => ret []
  | S k => j <- np_random_randint n ;; js <- draws n k ;; ret (j :: js)
  end.

(** [np.empty(n)]: a negative dimension is a [ValueError]. *)
Definition np_empty (n : Z) : Sampling ndarray1 :=
  if (n <? 0)%Z then raise ValueError else ret (repeat uninit (Z.to_nat n)).

(** [np.empty([n, m])]. *)
Definition np_empty2 (n m : Z) : Sampling ndarray2 :=
  if ((n <? 0) || (m <? 0))%Z then raise ValueError
  else ret (repeat (repeat uninit (Z.to_nat m)) (Z.to_nat n)).

(** [np.random.choice(a, size, replace=True)] over the population
    [range(a)]: the output is allocated, then filled draw by draw. *)
Definition np_random_choice_int (a : nat) (size : Z) : Sampling (list nat) :=
  if (size <? 0)%Z then raise ValueError else draws a (Z.to_nat size).

(** [np.random.choice(a, size, replace=True)] over an array population:
    each draw is an index into [a]. *)
Definition np_random_choice_arr (a : list nat) (size : Z) : Sampling (list nat) :=
  if (size <? 0)%Z then raise ValueError
  else js <- draws (List.length a) (Z.to_nat size) ;; ret (map (fun j => nth j a O) js).

(** A read outside an array is an [IndexError], as NumPy's checked indexing
    has it. (Code compiled by numba leaves such a read unchecked; the
    statements on well-formed calls below never reach one.) *)
Definition checked {A : Type} (o : option A) : Sampling A :=
  match o with
  | Some a => ret a
  | None => raise IndexError
  end.

(** [data[row, col]]. *)
Definition getitem2 (data : ndarray2) (row col : nat) : Sampling float64 :=
  r <- checked (nth_error data row) ;; checked (nth_error r col).

(** [data[selected_rows, :]]: the rows at the given positions, copied. *)
Fixpoint take_rows (data : ndarray2) (selected_rows : list nat) : Sampling ndarray2 :=
  match selected_rows with
  | [] => ret []
  | i :: rest =>
      r <- checked (nth_error data i) ;;
      rs <- take_rows data rest ;;
      ret (r :: rs)
  end.

(** ** The samplers and the terminal-profit engine *)

Definition select_random_row (data : ndarray2) (num_rows : Z) : Sampling ndarray2 :=
  let N_rows := shape0 data in
  selected_rows <- np_random_choice_int N_rows num_rows ;;
  take_rows data selected_rows.

(** The loop [for row, col in enumerate(selected_cols)] of
    [select_random_col], from position [row] on. *)
Fixpoint gather (data : ndarray2) (row : nat) (selected_cols : list nat)
  : Sampling ndarray1 :=
  match selected_cols with
  | [] => ret []
  | col :: rest =>
      x <- getitem2 data row col ;;
      xs <- gather data (S row) rest ;;
      ret (x :: xs)
  end.

Definition select_random_col (data : ndarray2) (num_cols : list nat) : Sampling ndarray1 :=
  let N_rows := shape0 data in
  selected_cols <- np_random_choice_arr num_cols (Z.of_nat N_rows) ;;
  gather data O selected_cols.

(** The body of the loop of [monte_carlo_sum]. *)
Definition monte_carlo_step (data : ndarray2) (batch : Z) (cols : list nat)
    (i : nat) (profit_arr : ndarray1) : Sampling ndarray1 :=
  row_arr <- select_random_row data batch ;;
  element_arr <- select_random_col row_arr cols ;;
  let profit := array_sum element_arr in
  ret (setitem profit_arr i profit).

Definition monte_carlo_sum (data : ndarray2) (iteration batch : Z) (cols : list nat)
  : Sampling ndarray1 :=
  np_random_seed 12345 ;;;
  profit_arr <- np_empty iteration ;;
  for_each (seq 0 (Z.to_nat iteration)) (monte_carlo_step data batch cols) profit_arr.

(** ** The trajectory cell

    One round of the loop over [range(n_iteration)]: a run of [n_bets_ts]
    bets over the three outcome columns, its running balance stored as row
    [i] of [timeseries_arr]. *)

Definition timeseries_step (arr_mc : ndarray2) (n_bets_ts : Z)
    (initial_balance : float64) (i : nat) (timeseries_arr : ndarray2)
  : Sampling ndarray2 :=
  row_arr <- select_random_row arr_mc n_bets_ts ;;
  element_arr <- select_random_col row_arr [0; 1; 2]%nat ;;
  let timeseries_balance :=
    map (fun c => PrimFloat.add initial_balance c) (np_cumsum element_arr) in
  ret (setitem timeseries_arr i timeseries_balance).

(** The cell that fills [timeseries_arr]; it does not reseed the
    generator. *)
Definition timeseries (arr_mc : ndarray2) (n_iteration n_bets_ts : Z)
    (initial_balance : float64) : Sampling ndarray2 :=
  timeseries_arr <- np_empty2 n_iteration n_bets_ts ;;
  for_each (seq 0 (Z.to_nat n_iteration))
    (timeseries_step arr_mc n_bets_ts initial_balance) timeseries_arr.

(** ** The draws of a run, read off the generator alone

    What the pseudo-random stream selects does not depend on the payouts:
    [raw_draws], [run_draws] and [unfold_runs] follow the stream only. They
    are the reference against which the engine is specified. *)

Fixpoint raw_draws (n size : nat) (s : rng_state G) : list nat * rng_state G :=
  match size with
  | O => ([], s)
  | S k =>
      let (j, s1) := rng_randint G n s in
      let (js, s2) := raw_draws n k s1 in
      (j :: js, s2)
  end.

(** One run over [R] rows and [C] enabled columns: [B] row draws, then [B]
    draws of a position in the enabled-column array; the [b]-th bet pairs the
    [b]-th row with the [b]-th position. *)
Definition run_draws (R C B : nat) (s : rng_state G)
  : list (nat * nat) * rng_state G :=
  let (rs, s1) := raw_draws R B s in
  let (js, s2) := raw_draws C B s1 in
  (combine rs js, s2).

Fixpoint unfold_runs {A : Type} (step : rng_state G -> A * rng_state G)
    (n : nat) (s : rng_state G) : list A * rng_state G :=
  match n with
  | O => ([], s)
  | S k =>
      let (a, s1) := step s in
      let (rest, s2) := unfold_runs step k s1 in
      (a :: rest, s2)
  end.

End Engine.

Arguments np_random_seed G z _ : assert.
Arguments raw_draws G n size s : assert.
Arguments run_draws G R C B s : assert.
Arguments unfold_runs G {A} step n s : assert.

(** The payout of one bet: the cell of the drawn row at the enabled column
    found at the drawn position. *)
Definition payout (data : ndarray2) (cols : list nat) (d : nat * nat) : float64 :=
  nth (nth (snd d) cols O) (nth (fst d) data []) 0%float.

(** A matrix with [K] columns. *)
Definition rectangular (K : nat) (data : ndarray2) : Prop :=
  Forall (fun r => List.length r = K) data.

(** The profit of a run whose bets are the draws [ds]. *)
Definition run_profit (data : ndarray2) (cols : list nat) (ds : list (nat * nat))
  : float64 :=
  array_sum (map (payout data cols) ds).

(** The draws of [I] successive runs of [B] bets each. *)
Definition stream_runs (G : Generator) (R C B I : nat) (s : rng_state G)
  : list (list (nat * nat)) * rng_state G :=
  unfold_runs G (run_draws G R C B) I s.

(** Two sums that agree up to the sign of a zero: equal, or negative zero
    against positive zero. *)
Definition zero_like (a b : float64) : Prop :=
  a = b \/ (a = (-0)%float /\ b = 0%float).

(** Two matrices of the same shape: as many rows, row by row as long. *)
Definition same_shape (d1 d2 : ndarray2) : Prop :=
  Forall2 (fun r1 r2 : list float64 => List.length r1 = List.length r2) d1 d2.

(** What a call leaves when its value is forgotten: whether it returned or
    which exception it raised, and the generator state. *)
Definition status {S A : Type} (r : outcome A * S) : outcome unit * S :=
  (match fst r with
   | Ok _ => Ok tt
   | Raise e => Raise e
   end,
   snd r).

(** Two results in step: the same generator state, the same exception, or
    values related by [R]. *)
Definition agree {S A : Type} (R : A -> A -> Prop) (r1 r2 : outcome A * S) : Prop :=
  snd r1 = snd r2 /\
  match fst r1, fst r2 with
  | Ok a, Ok b => R a b
  | Raise e1, Raise e2 => e1 = e2
  | _, _ => False
  end.

(** ** The payout matrix [arr_mc]

    One line of [df_mc_set]: the winner code of the match and the three
    closing odds of the bookmaker under test. *)
Record mc_row : Type := {
  winner_code_sofascore : string;
  odds_1_closed : float64;
  odds_X_closed : float64;
  odds_2_closed : float64
}.

Definition outcomes : list string := ["1"; "X"; "2"]%string.

(** [df_mc_set[f"{bookie_to_check}_1x2_{outcome}_closed"]], line by line. *)
Definition odds_column (outcome : string) (m : mc_row) : float64 :=
  if String.eqb outcome "1" then odds_1_closed m
  else if String.eqb outcome "X" then odds_X_closed m
  else odds_2_closed m.

(** [df.loc[cond, col] = values]: the lines where [cond] holds take the
    value of the same line of [values]. *)
Fixpoint loc_assign (cond : list bool) (values column : list float64)
  : list float64 :=
  match cond, values, column with
  | c :: cond', v :: values', x :: column' =>
      (if c then v else x) :: loc_assign cond' values' column'
  | _, _, _ => column
  end.

(** The column [betwin{outcome}_closed] after both loops of the cell: first
    [-stake_per_game] on every line, then the winnings where the match ended
    with [outcome]. *)
Definition betwin (stake_per_game : float64) (df_mc_set : list mc_row)
    (outcome : string) : list float64 :=
  let preallocated := map (fun _ => PrimFloat.opp stake_per_game) df_mc_set in
  let win_condition :=
    map (fun m => String.eqb (winner_code_sofascore m) outcome) df_mc_set in
  let winnings :=
    map (fun m => PrimFloat.mul stake_per_game
                    (PrimFloat.sub (odds_column outcome m) 1%float)) df_mc_set in
  loc_assign win_condition winnings preallocated.

(** [df[[c1, c2, c3]].to_numpy()] for columns of [n] lines. *)
Definition to_numpy (n : nat) (columns : list (list float64)) : ndarray2 :=
  map (fun i => map (fun col => nth i col 0%float) columns) (seq 0 n).

Definition arr_mc (stake_per_game : float64) (df_mc_set : list mc_row) : ndarray2 :=
  to_numpy (List.length df_mc_set) (map (betwin stake_per_game df_mc_set) outcomes).

(** The winnings of a bet on the [k]-th outcome of match [m]. *)
Definition win_value (stake_per_game : float64) (m : mc_row) (k : nat) : float64 :=
  PrimFloat.mul stake_per_game
    (PrimFloat.sub (odds_column (nth k outcomes ""%string) m) 1%float).

(** ** The percentile reduction in exact arithmetic

    The reference model of [np.percentile]: its default method, [linear],
    in exact rational arithmetic. The values of a trajectory matrix are
    taken as the rationals they denote and the interpolation is not
    rounded. The computation NumPy carries out in binary64 follows in the
    next section. *)

Module QOrder <: Orders.TotalLeBool.

Definition t : Type := Q.

Definition leb (x y : Q) : bool := Qle_bool x y.

Lemma leb_total (x y : Q) : leb x y = true \/ leb y x = true.
Proof.
  unfold leb. rewrite !Qle_bool_iff.
  destruct (Qlt_le_dec x y) as [H | H]; [left; apply Qlt_le_weak, H | right; exact H].
Qed.

End QOrder.

Module QSort := Mergesort.Sort QOrder.

Definition lerp (a b t : Q) : Q := a + (b - a) * t.

(** The interpolation step on the ordered values: the virtual index
    [(n - 1) * p / 100] is split into the position [previous] below it and
    the fraction [gamma], and the two neighbouring order statistics are
    interpolated; at the upper end both neighbours are the last one. *)
Definition linear_quantile (sorted : list Q) (p : Q) : Q :=
  let n := List.length sorted in
  let virtual_index := inject_Z (Z.of_nat n - 1) * (p / 100) in
  let previous := Z.to_nat (Qfloor virtual_index) in
  let last_index := (n - 1)%nat in
  if (last_index <=? previous)%nat then nth last_index sorted 0
  else
    let gamma := virtual_index - inject_Z (Z.of_nat previous) in
    lerp (nth previous sorted 0) (nth (S previous) sorted 0) gamma.

(** The [p]-th percentile of a one-dimensional array. An empty array has no
    percentile. *)
Definition percentile_1d (arr : list Q) (p : Q) : option Q :=
  match arr with
  | [] => None
  | _ :: _ => Some (linear_quantile (QSort.sort arr) p)
  end.

(** The time-step column [t] of a matrix given by rows. *)
Definition column (t : nat) (a : list (list Q)) : list Q :=
  map (fun row => nth t row 0) a.

Definition width (a : list (list Q)) : nat :=
  match a with
  | [] => O
  | row :: _ => List.length row
  end.

Definition valid_percentile (p : Q) : bool := Qle_bool 0 p && Qle_bool p 100.

(** [np.percentile(a, q, axis=0)]: one output row per percentile, one entry
    per time step; a percentile outside [0, 100] is a [ValueError], and a
    matrix without a run is an [IndexError]. *)
Definition np_percentile (a : list (list Q)) (q : list Q)
  : outcome (list (list (option Q))) :=
  if forallb valid_percentile q
  then match a with
       | [] => Raise IndexError
       | _ :: _ => Ok (map (fun p => map (fun t => percentile_1d (column t a) p)
                                         (seq 0 (width a))) q)
       end
  else Raise ValueError.

Definition quantiles_arr : list Q := [1; 50; 99].

Definition quantiles (timeseries_arr : list (list Q))
  : outcome (list (list (option Q))) :=
  np_percentile timeseries_arr quantiles_arr.

(** ** The percentile reduction in binary64

    What [np.percentile] computes on a [float64] matrix: the [linear] method
    as NumPy carries it out, every operation rounded to binary64. The ranks
    are divided by 100 and checked; each time-step column is ordered with
    NaN last (NumPy partitions it around the positions it reads); the
    virtual index [(n - 1) * q] is split into the position below it and the
    fraction left over, and the two neighbouring values are interpolated by
    NumPy's [_lerp]. A column that holds a NaN has NaN for every
    percentile. Positions are integers here; NumPy holds them as binary64
    values until they are cast, which is exact below 2^53. *)

Open Scope float_scope.

Definition np_isnan (x : float64) : bool :=
  match Prim2SF x with
  | S754_nan => true
  | _ => false
  end.

Definition np_isfinite (x : float64) : bool :=
  match Prim2SF x with
  | S754_zero _ | S754_finite _ _ _ => true
  | _ => false
  end.

(** The conversion of an integer to [float64], rounded to nearest. *)
Definition int_to_f64 (z : Z) : float64 :=
  SF2Prim (binary_normalize prec emax z 0%Z false).

(** [np.floor(x).astype(np.intp)] on a finite value. *)
Definition floor_to_int (x : float64) : Z :=
  match Prim2SF x with
  | S754_finite s m e => Z.shiftl (cond_Zopp s (Zpos m)) e
  | _ => 0%Z
  end.

(** The order in which NumPy sorts and partitions: ascending, NaN last. *)
Definition nan_last_leb (x y : float64) : bool := np_isnan y || (x <=? y).

Module F64Order <: Orders.TotalLeBool.

Definition t : Type := float64.

Definition leb (x y : float64) : bool := nan_last_leb x y.

Lemma SFleb_total (x y : spec_float) :
  x <> S754_nan -> y <> S754_nan -> SFleb x y = true \/ SFleb y x = true.
Proof.
  intros Hx Hy. unfold SFleb, SFcompare.
  destruct x as [[|] | [|] | | [|] m1 e1], y as [[|] | [|] | | [|] m2 e2];
    try congruence; auto;
    rewrite (Z.compare_antisym e1 e2); destruct (e1 ?= e2)%Z eqn:E; simpl; auto;
    fold (Pos.compare m1 m2); fold (Pos.compare m2 m1);
    rewrite (Pos.compare_antisym m1 m2);
    destruct (Pos.compare m1 m2); simpl; auto.
Qed.

Lemma nan_last_leb_total (x y : float64) : leb x y = true \/ leb y x = true.
Proof.
  unfold leb, nan_last_leb, np_isnan. rewrite !leb_spec.
  destruct (Prim2SF y) eqn:Ey; try (left; reflexivity);
  destruct (Prim2SF x) eqn:Ex; try (right; reflexivity);
  simpl orb; apply SFleb_total; discriminate.
Qed.

Definition leb_total := nan_last_leb_total.

End F64Order.

Module F64Sort := Mergesort.Sort F64Order.

(** NumPy's [_lerp]: the interpolation of [a] and [b] at the fraction [t],
    computed from [a] below one half and from [b] from one half on. *)
Definition np_lerp (a b t : float64) : float64 :=
  let diff_b_a := b - a in
  if 0.5 <=? t then b - diff_b_a * (1 - t) else a + diff_b_a * t.

(** The virtual index of the [linear] method. *)
Definition get_virtual_index (n : Z) (quantile : float64) : float64 :=
  int_to_f64 (n - 1) * quantile.

(** NumPy's [_get_indexes]: the positions around the virtual index; at or
    above the last position both are the last one, counted from the end;
    below the first both are the first. *)
Definition get_indexes (virtual_index : float64) (valid_values_count : Z) : Z * Z :=
  let previous_index := floor_to_int virtual_index in
  let next_index := (previous_index + 1)%Z in
  let '(previous_index, next_index) :=
    if int_to_f64 (valid_values_count - 1) <=? virtual_index
    then ((-1)%Z, (-1)%Z) else (previous_index, next_index) in
  let '(previous_index, next_index) :=
    if virtual_index <? 0 then (0%Z, 0%Z) else (previous_index, next_index) in
  if np_isnan virtual_index then ((-1)%Z, (-1)%Z) else (previous_index, next_index).

(** [arr[i]]: a negative position counts from the end; a position outside
    the array is an [IndexError]. *)
Definition take_f64 (arr : list float64) (i : Z) : outcome float64 :=
  let n := Z.of_nat (List.length arr) in
  let j := if (i <? 0)%Z then (n + i)%Z else i in
  if ((j <? 0) || (n <=? j))%Z then Raise IndexError
  else match nth_error arr (Z.to_nat j) with
       | Some x => Ok x
       | None => Raise IndexError
       end.

(** NumPy's [_quantile] on one column and one quantile. *)
Definition quantile_1d (arr : list float64) (quantile : float64) : outcome float64 :=
  let values_count := Z.of_nat (List.length arr) in
  let virtual_index := get_virtual_index values_count quantile in
  let '(previous_index, next_index) := get_indexes virtual_index values_count in
  let arr := F64Sort.sort arr in
  match take_f64 arr (-1) with
  | Raise e => Raise e
  | Ok last_value =>
      match take_f64 arr previous_index with
      | Raise e => Raise e
      | Ok previous =>
          match take_f64 arr next_index with
          | Raise e => Raise e
          | Ok next =>
              let gamma := virtual_index - int_to_f64 previous_index in
              let result := np_lerp previous next gamma in
              if np_isnan last_value then Ok last_value else Ok result
          end
      end
  end.

(** The results of a list of computations, or the first exception. *)
Fixpoint all_ok {A : Type} (l : list (outcome A)) : outcome (list A) :=
  match l with
  | [] => Ok []
  | Raise e :: _ => Raise e
  | Ok a :: rest =>
      match all_ok rest with
      | Ok r => Ok (a :: r)
      | Raise e => Raise e
      end
  end.

Definition column_f64 (t : nat) (a : ndarray2) : list float64 :=
  map (fun row => nth t row nan) a.

Definition width_f64 (a : ndarray2) : nat :=
  match a with
  | [] => O
  | row :: _ => List.length row
  end.

Definition quantile_is_valid (q : float64) : bool := (0 <=? q) && (q <=? 1).

(** [np.percentile(a, q, axis=0)] on a [float64] matrix given by rows. *)
Definition np_percentile_f64 (a : ndarray2) (q : list float64) : outcome ndarray2 :=
  let q := map (fun p => p / 100) q in
  if forallb quantile_is_valid q then
    match a with
    | [] => Raise IndexError
    | _ :: _ =>
        all_ok (map (fun quantile =>
                       all_ok (map (fun t => quantile_1d (column_f64 t a) quantile)
                                 (seq 0 (width_f64 a)))) q)
    end
  else Raise ValueError.

(** [quantiles_arr = np.array([1, 50, 99])], as [np.percentile] reads it. *)
Definition quantiles_arr_f64 : list float64 := map int_to_f64 [1; 50; 99]%Z.

(** [quantiles = np.percentile(timeseries_arr, quantiles_arr, axis=0)]. *)
Definition quantiles_f64 (timeseries_arr : ndarray2) : outcome ndarray2 :=
  np_percentile_f64 timeseries_arr quantiles_arr_f64.

(** Rank-based linear interpolation between order statistics, in binary64:
    with the values in ascending order and the rank [h = (n - 1) * q], the
    value [v] is interpolated between the order statistic at the position
    [k] below [h] and the next one, at the fraction [h - k]; at the last
    position there is no next one and the last order statistic is
    interpolated with itself. *)
Definition linear_interpolation_f64 (xs : list float64) (q v : float64) : Prop :=
  exists s : list float64,
    Permutation xs s /\
    Sorted (fun x y => (x <=? y) = true) s /\
    let n := Z.of_nat (List.length xs) in
    let h := int_to_f64 (n - 1) * q in
    if h <? int_to_f64 (n - 1) then
      exists (k : nat) (a b : float64),
        Z.of_nat k = floor_to_int h /\
        nth_error s k = Some a /\ nth_error s (S k) = Some b /\
        v = np_lerp a b (h - int_to_f64 (Z.of_nat k))
    else
      exists a : float64,
        nth_error s (List.length xs - 1) = Some a /\
        v = np_lerp a a (h - int_to_f64 (-1)).

Close Scope float_scope.

(** ** The underdog strategy

    The mask of the underdog cell: the closing odds of the home team exceed
    those of the away team by more than 1 and stay below 10. The comparisons
    are those of binary64: they are false on NaN. *)
Definition underdog (m : mc_row) : bool :=
  PrimFloat.ltb (PrimFloat.add (odds_2_closed m) 1%float) (odds_1_closed m)
  && PrimFloat.ltb (odds_1_closed m) 10%float.

(** [df.loc[mask, columns].to_numpy()], on the rows of [df[columns]]: the
    rows whose mask is set, in their order. *)
Fixpoint loc_rows {A : Type} (mask : list bool) (rows : list A) : list A :=
  match mask, rows with
  | b :: mask', r :: rows' =>
      if b then r :: loc_rows mask' rows' else loc_rows mask' rows'
  | _, _ => []
  end.

Definition arr_mc_underdog (stake_per_game : float64) (df_mc_set : list mc_row)
  : ndarray2 :=
  loc_rows (map underdog df_mc_set) (arr_mc stake_per_game df_mc_set).

(** The cell of a betwin column on the line of match [m]. *)
Definition betwin_cell (stake_per_game : float64) (m : mc_row) (outcome : string)
  : float64 :=
  if String.eqb (winner_code_sofascore m) outcome
  then PrimFloat.mul stake_per_game (PrimFloat.sub (odds_column outcome m) 1%float)
  else PrimFloat.opp stake_per_game.

(** ** The long table [df_quantiles] and its abscissa *)

(** [a.T] for a matrix of [T] columns given by rows. *)
Definition transpose {A : Type} (d : A) (T : nat) (a : list (list A)) : list (list A) :=
  map (fun t => map (fun row => nth t row d) a) (seq 0 T).

(** [pd.DataFrame(frame, columns=columns).melt()]: the columns one after the
    other, each value beside the name of its column. *)
Definition melt {L A : Type} (d : A) (columns : list L) (frame : list (list A))
  : list (L * A) :=
  flat_map (fun jc => map (fun row => (snd jc, nth (fst jc) row d)) frame)
    (combine (seq 0 (List.length columns)) columns).

Definition df_quantiles {L A : Type} (d : A) (T : nat) (columns : list L)
    (quantiles : list (list A)) : list (L * A) :=
  melt d columns (transpose d T quantiles).

(** [np.arange(0, stop, 1)] and [np.tile(a, reps)]. *)
Definition np_arange (stop : Z) : list Z :=
  map Z.of_nat (seq 0 (Z.to_nat stop)).

Definition np_tile {A : Type} (a : list A) (reps : nat) : list A :=
  List.concat (repeat a reps).

(** A small linear congruential generator: one instance of [Generator],
    on which the statements below are evaluated. *)
Definition lcg_next (s : Z) : Z := ((1103515245 * s + 12345) mod 2147483648)%Z.

Definition lcg : Generator := {|
  rng_state := Z;
  rng_seed := fun z => z;
  rng_randint := fun n s => (Z.to_nat (lcg_next s mod Z.of_nat n), lcg_next s)
|}.

(** The matrix of the concrete scenario: three matches, each paying 10 on
    its own outcome and losing the stake of 10 on the other two. *)
Definition scenario : ndarray2 :=
  [[10; -10; -10]; [-10; 10; -10]; [-10; -10; 10]]%float.

(** The scenario with the payout of outcome 2 of the second match
    corrupted. *)
Definition scenario_nan : ndarray2 :=
  [[10; -10; -10]; [-10; 10; nan]; [-10; -10; 10]]%float.

(** Two matches at closing odds, the first won by the home team, the
    second drawn. *)
Definition two_matches : list mc_row :=
  [ {| winner_code_sofascore := "1"; odds_1_closed := 2.35%float;
       odds_X_closed := 3.4%float; odds_2_closed := 3.1%float |};
    {| winner_code_sofascore := "X"; odds_1_closed := 1.5%float;
       odds_X_closed := 4.2%float; odds_2_closed := 6.5%float |} ].






(** Two matches on which every bet is lost. *)
Definition all_lost : ndarray2 :=
  [[-10; -10; -10]; [-10; -10; -10]]%float.

(** A match whose winner code is none of the three outcomes. *)
Definition abandoned_match : list mc_row :=
  [ {| winner_code_sofascore := "3"; odds_1_closed := 2.1%float;
       odds_X_closed := 3.3%float; odds_2_closed := 3.6%float |} ].

(** Three matches: an underdog home win, a favourite's home win, and a
    match whose home odds are missing. *)
Definition three_matches : list mc_row :=
  [ {| winner_code_sofascore := "1"; odds_1_closed := 4.5%float;
       odds_X_closed := 3.8%float; odds_2_closed := 1.7%float |};
    {| winner_code_sofascore := "1"; odds_1_closed := 1.4%float;
       odds_X_closed := 4.6%float; odds_2_closed := 7.5%float |};
    {| winner_code_sofascore := "2"; odds_1_closed := nan;
       odds_X_closed := 3.4%float; odds_2_closed := 2.2%float |} ].

(** * Properties *)

(** ** Lists and the loop *)

Lemma setitem_length {A : Type} (a : list A) (i : nat) (v : A) :
  List.length (setitem a i v) = List.length a.
Proof.
  revert i; induction a as [| x a IH]; intros [| i]; simpl; auto.
Qed.

Lemma setitem_app {A : Type} (pre : list A) (x : A) (post : list A) (v : A) :
  setitem (pre ++ x :: post) (List.length pre) v = pre ++ v :: post.
Proof.
  induction pre as [| y pre IH]; simpl; [reflexivity | now rewrite IH].
Qed.

Lemma combine_map_l {A B C : Type} (f : A -> B) (l : list A) (l' : list C) :
  combine (map f l) l' = map (fun p => (f (fst p), snd p)) (combine l l').
Proof.
  revert l'; induction l as [| a l IH]; intros [| c l']; simpl; try reflexivity.
  now rewrite IH.
Qed.

Lemma combine_map_r {A B C : Type} (f : A -> B) (l : list C) (l' : list A) :
  combine l (map f l') = map (fun p => (fst p, f (snd p))) (combine l l').
Proof.
  revert l'; induction l as [| c l IH]; intros [| a l']; simpl; try reflexivity.
  now rewrite IH.
Qed.

Lemma nth_map_in {A B : Type} (f : A -> B) (l : list A) (i : nat) (d : B) (d' : A) :
  (i < List.length l)%nat -> nth i (map f l) d = f (nth i l d').
Proof.
  intros Hi. rewrite (nth_indep _ d (f d')) by (now rewrite length_map).
  apply map_nth.
Qed.

Lemma unfold_runs_length (G : Generator) {A : Type}
    (step : rng_state G -> A * rng_state G) (n : nat) (s : rng_state G) :
  List.length (fst (unfold_runs G step n s)) = n.
Proof.
  revert s; induction n as [| n IH]; intros s; simpl; [reflexivity |].
  destruct (step s) as [a s1]. specialize (IH s1).
  destruct (unfold_runs G step n s1) as [rest s2]. simpl in *. now rewrite IH.
Qed.

Lemma unfold_runs_Forall (G : Generator) {A : Type}
    (step : rng_state G -> A * rng_state G) (P : A -> Prop) :
  (forall s, P (fst (step s))) ->
  forall n s, Forall P (fst (unfold_runs G step n s)).
Proof.
  intros Hstep n; induction n as [| n IH]; intros s; simpl; [constructor |].
  specialize (Hstep s). destruct (step s) as [a s1]. specialize (IH s1).
  destruct (unfold_runs G step n s1) as [rest s2]. simpl in *. now constructor.
Qed.

(** A loop whose [i]-th round stores a value computed from the generator at
    position [i] fills the allocation with the values of the successive
    rounds. *)
Lemma for_each_setitem (G : Generator) {A : Type}
    (body : nat -> list A -> M (rng_state G) (list A))
    (step : rng_state G -> A * rng_state G) :
  (forall i acc s, body i acc s = (Ok (setitem acc i (fst (step s))), snd (step s))) ->
  forall n pre rest s,
    List.length rest = n ->
    for_each (seq (List.length pre) n) body (pre ++ rest) s
    = (Ok (pre ++ fst (unfold_runs G step n s)), snd (unfold_runs G step n s)).
Proof.
  intros Hbody n; induction n as [| n IH]; intros pre rest s Hlen.
  - destruct rest; [| discriminate]. reflexivity.
  - destruct rest as [| x rest]; [discriminate |].
    simpl. unfold bind. rewrite Hbody, setitem_app.
    destruct (step s) as [a s1]. simpl.
    replace (pre ++ a :: rest) with ((pre ++ [a]) ++ rest)
      by (now rewrite <- app_assoc).
    replace (S (List.length pre)) with (List.length (pre ++ [a]))
      by (rewrite length_app; simpl; lia).
    rewrite IH by (simpl in Hlen; lia).
    destruct (unfold_runs G step n s1) as [vals s2]. simpl.
    now rewrite <- app_assoc.
Qed.

(** ** The samplers against the stream *)

Section SamplerFacts.

Variable G : Generator.

Lemma raw_draws_length (n size : nat) (s : rng_state G) :
  List.length (fst (raw_draws G n size s)) = size.
Proof.
  revert s; induction size as [| k IH]; intros s; simpl; [reflexivity |].
  destruct (rng_randint G n s) as [j s1]. specialize (IH s1).
  destruct (raw_draws G n k s1) as [js s2]. simpl in *. now rewrite IH.
Qed.

Lemma draws_raw (n size : nat) (s : rng_state G) :
  (0 < n)%nat ->
  draws G n size s = (Ok (fst (raw_draws G n size s)), snd (raw_draws G n size s)).
Proof.
  intros Hn. revert s; induction size as [| k IH]; intros s; simpl; [reflexivity |].
  unfold bind, np_random_randint. destruct n as [| n']; [lia |].
  destruct (rng_randint G (S n') s) as [j s1]. rewrite IH.
  destruct (raw_draws G (S n') k s1) as [js s2]. reflexivity.
Qed.

Lemma take_rows_ok (data : ndarray2) (idxs : list nat) (s : rng_state G) :
  Forall (fun i => (i < List.length data)%nat) idxs ->
  take_rows G data idxs s = (Ok (map (fun i => nth i data []) idxs), s).
Proof.
  induction 1 as [| i idxs Hi _ IH]; simpl; [reflexivity |].
  unfold bind. destruct (nth_error data i) as [r |] eqn:E.
  - simpl. rewrite IH. simpl. unfold ret.
    now rewrite (nth_error_nth _ _ [] E).
  - apply nth_error_None in E. lia.
Qed.

Lemma gather_ok (K : nat) (cs : list nat) :
  forall (pre rs : ndarray2) (s : rng_state G),
    rectangular K rs ->
    Forall (fun c => (c < K)%nat) cs ->
    List.length cs = List.length rs ->
    gather G (pre ++ rs) (List.length pre) cs s
    = (Ok (map (fun rc => nth (snd rc) (fst rc) 0%float) (combine rs cs)), s).
Proof.
  induction cs as [| c cs IH]; intros pre rs s Hrect Hcs Hlen.
  - destruct rs; [reflexivity | discriminate].
  - destruct rs as [| r rs]; [discriminate |].
    inversion Hrect as [| ? ? Hr Hrect']; subst.
    inversion Hcs as [| ? ? Hc Hcs']; subst.
    simpl. unfold bind, getitem2, bind.
    rewrite nth_error_app2, Nat.sub_diag by lia. simpl.
    destruct (nth_error r c) as [x |] eqn:E;
      [| apply nth_error_None in E; lia].
    simpl.
    replace (pre ++ r :: rs) with ((pre ++ [r]) ++ rs) by (now rewrite <- app_assoc).
    replace (S (List.length pre)) with (List.length (pre ++ [r]))
      by (rewrite length_app; simpl; lia).
    rewrite IH by (auto; simpl in Hlen; lia).
    unfold ret. now rewrite (nth_error_nth _ _ 0%float E).
Qed.

Hypothesis Hrange : in_range G.

Lemma raw_draws_below (n size : nat) (s : rng_state G) :
  (0 < n)%nat ->
  Forall (fun j => (j < n)%nat) (fst (raw_draws G n size s)).
Proof.
  intros Hn. revert s; induction size as [| k IH]; intros s; simpl; [constructor |].
  pose proof (Hrange n s Hn) as Hj.
  destruct (rng_randint G n s) as [j s1]. specialize (IH s1).
  destruct (raw_draws G n k s1) as [js s2]. simpl in *. now constructor.
Qed.

Lemma select_random_row_ok (data : ndarray2) (num_rows : Z) (s : rng_state G) :
  data <> [] ->
  (0 <= num_rows)%Z ->
  select_random_row G data num_rows s
  = (Ok (map (fun i => nth i data [])
           (fst (raw_draws G (List.length data) (Z.to_nat num_rows) s))),
     snd (raw_draws G (List.length data) (Z.to_nat num_rows) s)).
Proof.
  intros Hdata Hnum.
  assert (0 < List.length data)%nat as HR by (destruct data; simpl; [congruence | lia]).
  unfold select_random_row, np_random_choice_int, shape0, bind.
  destruct (Z.ltb_spec num_rows 0) as [Hneg | _]; [lia |].
  rewrite draws_raw by exact HR.
  apply take_rows_ok, raw_draws_below, HR.
Qed.

Lemma select_random_col_ok (K : nat) (row_arr : ndarray2) (cols : list nat)
    (s : rng_state G) :
  cols <> [] ->
  Forall (fun c => (c < K)%nat) cols ->
  rectangular K row_arr ->
  select_random_col G row_arr cols s
  = (Ok (map (fun rj => nth (nth (snd rj) cols O) (fst rj) 0%float)
           (combine row_arr
              (fst (raw_draws G (List.length cols) (List.length row_arr) s)))),
     snd (raw_draws G (List.length cols) (List.length row_arr) s)).
Proof.
  intros Hcols Hin Hrect.
  assert (0 < List.length cols)%nat as HC by (destruct cols; simpl; [congruence | lia]).
  unfold select_random_col, np_random_choice_arr, shape0, bind.
  destruct (Z.ltb_spec (Z.of_nat (List.length row_arr)) 0) as [Hneg | _]; [lia |].
  rewrite Nat2Z.id, draws_raw by exact HC.
  pose proof (raw_draws_below (List.length cols) (List.length row_arr) s HC) as Hjs.
  pose proof (raw_draws_length (List.length cols) (List.length row_arr) s) as Hlen.
  destruct (raw_draws G (List.length cols) (List.length row_arr) s) as [js s1].
  simpl in *.
  pose proof (gather_ok K (map (fun j => nth j cols O) js) [] row_arr s1 Hrect) as Hg.
  simpl in Hg. rewrite Hg.
  - rewrite combine_map_r, map_map. reflexivity.
  - apply Forall_map. eapply Forall_impl; [| exact Hjs].
    intros j Hj. simpl in Hj.
    rewrite Forall_forall in Hin. apply Hin, nth_In, Hj.
  - now rewrite length_map.
Qed.

End SamplerFacts.

(** ** The engine against the stream *)

Lemma unfold_runs_map (G : Generator) {A B : Type}
    (step : rng_state G -> A * rng_state G) (f : A -> B) (n : nat) :
  forall s,
    unfold_runs G (fun s' => (f (fst (step s')), snd (step s'))) n s
    = (map f (fst (unfold_runs G step n s)), snd (unfold_runs G step n s)).
Proof.
  induction n as [| n IH]; intros s; simpl; [reflexivity |].
  destruct (step s) as [a s1]. simpl. rewrite IH.
  destruct (unfold_runs G step n s1) as [rest s2]. reflexivity.
Qed.

Lemma rectangular_nth (K : nat) (data : ndarray2) (i : nat) :
  rectangular K data -> (i < List.length data)%nat -> List.length (nth i data []) = K.
Proof.
  intros Hrect Hi. unfold rectangular in Hrect. rewrite Forall_forall in Hrect.
  apply Hrect, nth_In, Hi.
Qed.

Section EngineFacts.

Variable G : Generator.
Hypothesis Hrange : in_range G.

Variables (K : nat) (data : ndarray2) (cols : list nat) (batch : Z).
Hypothesis Hdata : data <> [].
Hypothesis Hrect : rectangular K data.
Hypothesis Hcols : cols <> [].
Hypothesis Hin : Forall (fun c => (c < K)%nat) cols.
Hypothesis Hbatch : (0 <= batch)%Z.

(** Sampling the rows, then one enabled column per row, hands the payouts
    of the run's draws to whatever follows. *)
Lemma sample_then {A : Type} (k : ndarray1 -> M (rng_state G) A) (s : rng_state G) :
  (row_arr <- select_random_row G data batch ;;
   element_arr <- select_random_col G row_arr cols ;;
   k element_arr) s
  = k (map (payout data cols)
         (fst (run_draws G (List.length data) (List.length cols) (Z.to_nat batch) s)))
      (snd (run_draws G (List.length data) (List.length cols) (Z.to_nat batch) s)).
Proof.
  assert (0 < List.length data)%nat as HR by (destruct data; simpl; [congruence | lia]).
  unfold bind.
  rewrite (select_random_row_ok G Hrange data batch s Hdata Hbatch).
  unfold run_draws.
  pose proof (raw_draws_below G Hrange (List.length data) (Z.to_nat batch) s HR) as Hrs.
  pose proof (raw_draws_length G (List.length data) (Z.to_nat batch) s) as Hlen.
  destruct (raw_draws G (List.length data) (Z.to_nat batch) s) as [rs s1].
  simpl in Hrs, Hlen. simpl fst. simpl snd.
  rewrite (select_random_col_ok G Hrange K _ cols s1 Hcols Hin).
  - rewrite length_map, Hlen.
    destruct (raw_draws G (List.length cols) (Z.to_nat batch) s1) as [js s2].
    simpl. rewrite combine_map_l, map_map. reflexivity.
  - unfold rectangular. apply Forall_map. eapply Forall_impl; [| exact Hrs].
    intros j Hj. apply rectangular_nth; assumption.
Qed.

Lemma monte_carlo_step_ok (i : nat) (acc : ndarray1) (s : rng_state G) :
  monte_carlo_step G data batch cols i acc s
  = (Ok (setitem acc i
           (run_profit data cols
              (fst (run_draws G (List.length data) (List.length cols)
                      (Z.to_nat batch) s)))),
     snd (run_draws G (List.length data) (List.length cols) (Z.to_nat batch) s)).
Proof.
  unfold monte_carlo_step. rewrite sample_then. reflexivity.
Qed.

Lemma monte_carlo_sum_runs (iteration : Z) (g : rng_state G) :
  (0 <= iteration)%Z ->
  monte_carlo_sum G data iteration batch cols g
  = (Ok (map (run_profit data cols)
           (fst (stream_runs G (List.length data) (List.length cols)
                   (Z.to_nat batch) (Z.to_nat iteration) (rng_seed G 12345)))),
     snd (stream_runs G (List.length data) (List.length cols)
            (Z.to_nat batch) (Z.to_nat iteration) (rng_seed G 12345))).
Proof.
  intros Hiter. unfold monte_carlo_sum, bind, np_random_seed, np_empty.
  destruct (Z.ltb_spec iteration 0) as [Hneg | _]; [lia |]. unfold ret.
  pose proof (for_each_setitem G (monte_carlo_step G data batch cols)
                (fun s => (run_profit data cols
                             (fst (run_draws G (List.length data) (List.length cols)
                                     (Z.to_nat batch) s)),
                           snd (run_draws G (List.length data) (List.length cols)
                                  (Z.to_nat batch) s)))
                monte_carlo_step_ok (Z.to_nat iteration) []
                (repeat uninit (Z.to_nat iteration)) (rng_seed G 12345)
                (repeat_length _ _)) as Hloop.
  simpl in Hloop. etransitivity; [exact Hloop |].
  unfold stream_runs. rewrite unfold_runs_map. reflexivity.
Qed.

End EngineFacts.

Lemma lcg_in_range : in_range lcg.
Proof.
  intros n s Hn. simpl.
  pose proof (Z.mod_pos_bound (lcg_next s) (Z.of_nat n)) as Hb. lia.
Qed.

Lemma run_draws_spec (G : Generator) (R C B : nat) (s : rng_state G) :
  in_range G -> (0 < R)%nat -> (0 < C)%nat ->
  List.length (fst (run_draws G R C B s)) = B /\
  Forall (fun d => (fst d < R)%nat /\ (snd d < C)%nat) (fst (run_draws G R C B s)).
Proof.
  intros Hrange HR HC. unfold run_draws.
  pose proof (raw_draws_below G Hrange R B s HR) as Hrs.
  pose proof (raw_draws_length G R B s) as Hlr.
  destruct (raw_draws G R B s) as [rs s1].
  pose proof (raw_draws_below G Hrange C B s1 HC) as Hjs.
  pose proof (raw_draws_length G C B s1) as Hlj.
  destruct (raw_draws G C B s1) as [js s2]. simpl in *.
  split.
  - rewrite length_combine. lia.
  - rewrite Forall_forall in *. intros [r j] Hd. simpl.
    split; [apply Hrs; eapply in_combine_l | apply Hjs; eapply in_combine_r]; exact Hd.
Qed.

Lemma nonempty_length {A : Type} (l : list A) : l <> [] -> (0 < List.length l)%nat.
Proof. destruct l; simpl; [congruence | lia]. Qed.

(** ** The terminal-profit engine *)

(** C1: on a matrix with at least one row and an enabled-column array that
    is non-empty and inside the matrix, [monte_carlo_sum] returns, for every
    iteration count [I >= 0] and every batch size [B >= 0] (also [B] above
    the number of rows), an array of length exactly [I]; its [i]-th entry is
    the sum of the [B] payouts of the [i]-th run, each the cell of one row
    drawn below the row count, at one enabled column. With [I = 0] the array
    is empty and nothing is raised, whatever the other arguments. *)
Theorem monte_carlo_sum_profits (G : Generator) (data : ndarray2) (B : Z)
    (cols : list nat) (g : rng_state G) :
  monte_carlo_sum G data 0 B cols g = (Ok [], rng_seed G 12345) /\
  (forall (K : nat) (I : Z),
      in_range G ->
      data <> [] -> rectangular K data ->
      cols <> [] -> Forall (fun c => (c < K)%nat) cols ->
      (0 <= I)%Z -> (0 <= B)%Z ->
      exists (profits : ndarray1) (runs : list (list (nat * nat))) (g' : rng_state G),
        monte_carlo_sum G data I B cols g = (Ok profits, g') /\
        (runs, g') = stream_runs G (List.length data) (List.length cols)
                       (Z.to_nat B) (Z.to_nat I) (rng_seed G 12345) /\
        List.length profits = Z.to_nat I /\
        List.length runs = Z.to_nat I /\
        forall i, (i < Z.to_nat I)%nat ->
          nth i profits 0%float
          = fold_left PrimFloat.add (map (payout data cols) (nth i runs [])) 0%float /\
          List.length (nth i runs []) = Z.to_nat B /\
          Forall (fun d => (fst d < List.length data)%nat /\
                           (snd d < List.length cols)%nat /\
                           In (nth (snd d) cols O) cols /\
                           nth_error (nth (fst d) data []) (nth (snd d) cols O)
                           = Some (payout data cols d))
                 (nth i runs [])).
Proof.
  split; [reflexivity |].
  intros K I Hrange Hdata Hrect Hcols Hin HI HB.
  pose proof (nonempty_length data Hdata) as HR.
  pose proof (nonempty_length cols Hcols) as HC.
  pose proof (monte_carlo_sum_runs G Hrange K data cols B Hdata Hrect Hcols Hin HB I g HI)
    as Hrun.
  pose proof (unfold_runs_length G (run_draws G (List.length data) (List.length cols)
                                      (Z.to_nat B)) (Z.to_nat I) (rng_seed G 12345))
    as Hlen.
  pose proof (unfold_runs_Forall G (run_draws G (List.length data) (List.length cols)
                                      (Z.to_nat B))
                (fun ds => List.length ds = Z.to_nat B /\
                           Forall (fun d => (fst d < List.length data)%nat /\
                                            (snd d < List.length cols)%nat) ds)
                (fun s => run_draws_spec G _ _ _ s Hrange HR HC)
                (Z.to_nat I) (rng_seed G 12345)) as Hall.
  fold (stream_runs G (List.length data) (List.length cols) (Z.to_nat B) (Z.to_nat I)
          (rng_seed G 12345)) in Hlen, Hall.
  destruct (stream_runs G (List.length data) (List.length cols) (Z.to_nat B)
              (Z.to_nat I) (rng_seed G 12345)) as [runs g'] eqn:Eruns.
  simpl in Hrun, Hlen, Hall.
  exists (map (run_profit data cols) runs), runs, g'.
  repeat split; try assumption.
  - now rewrite length_map.
  - rewrite (nth_indep _ 0%float (run_profit data cols []))
      by (rewrite length_map; lia).
    rewrite map_nth. reflexivity.
  - rewrite Forall_forall in Hall. apply Hall, nth_In. lia.
  - rewrite Forall_forall in Hall.
    assert (In (nth i runs []) runs) as Hmem by (apply nth_In; lia).
    destruct (Hall _ Hmem) as [_ Hds].
    eapply Forall_impl; [| exact Hds].
    intros [r j] [Hr Hj]. simpl in *.
    repeat split; try assumption.
    + apply nth_In, Hj.
    + unfold payout. simpl. apply nth_error_nth'.
      rewrite (rectangular_nth K data r Hrect Hr).
      rewrite Forall_forall in Hin. apply Hin, nth_In, Hj.
Qed.

Lemma monte_carlo_sum_profits_witness :
  in_range lcg /\
  scenario <> [] /\ rectangular 3 scenario /\
  [0; 1; 2]%nat <> [] /\ Forall (fun c => (c < 3)%nat) [0; 1; 2]%nat /\
  (0 <= 2)%Z /\ (0 <= 5)%Z /\
  exists (profits : ndarray1) (g' : rng_state lcg),
    monte_carlo_sum lcg scenario 2 5 [0; 1; 2]%nat 7%Z = (Ok profits, g') /\
    List.length profits = 2%nat.
Proof.
  assert (rectangular 3 scenario) as Hrect by (repeat constructor).
  assert (Forall (fun c => (c < 3)%nat) [0; 1; 2]%nat) as Hin by (repeat constructor).
  assert (scenario <> []) as Hdata by discriminate.
  assert ([0; 1; 2]%nat <> []) as Hcols by discriminate.
  assert (0 <= 2)%Z as HI by lia.
  assert (0 <= 5)%Z as HB by lia.
  repeat (split; [assumption || exact lcg_in_range |]).
  destruct (proj2 (monte_carlo_sum_profits lcg scenario 5 [0; 1; 2]%nat 7%Z)
              3%nat 2%Z lcg_in_range Hdata Hrect Hcols Hin HI HB)
    as (profits & runs & g' & Hrun & _ & Hlen & _).
  exists profits, g'. split; [exact Hrun | exact Hlen].
Defined.

(** C10: [monte_carlo_sum] has no seed argument; it first replaces the
    global generator by the one seeded with the constant 12345. On every
    well-formed call (a matrix with at least one row, an enabled-column
    array that is non-empty and inside the matrix, non-negative counts, a
    generator whose draws are in range, so that every cell the call reads
    exists) the call returns, and its whole result, the profit array
    together with the generator state it leaves behind, is the same from
    any two generator states at entry: it is the result of the allocation
    and the loop started on the freshly seeded generator. *)
Theorem monte_carlo_sum_reseeds (G : Generator) (K : nat) (data : ndarray2)
    (iteration batch : Z) (cols : list nat) (g1 g2 : rng_state G) :
  in_range G ->
  data <> [] -> rectangular K data ->
  cols <> [] -> Forall (fun c => (c < K)%nat) cols ->
  (0 <= iteration)%Z -> (0 <= batch)%Z ->
  monte_carlo_sum G data iteration batch cols g1
  = monte_carlo_sum G data iteration batch cols g2 /\
  monte_carlo_sum G data iteration batch cols g1
  = (profit_arr <- np_empty G iteration ;;
     for_each (seq 0 (Z.to_nat iteration)) (monte_carlo_step G data batch cols)
       profit_arr) (rng_seed G 12345) /\
  exists (profits : ndarray1) (g' : rng_state G),
    monte_carlo_sum G data iteration batch cols g1 = (Ok profits, g') /\
    monte_carlo_sum G data iteration batch cols g2 = (Ok profits, g') /\
    List.length profits = Z.to_nat iteration.
Proof.
  intros Hrange Hdata Hrect Hcols Hin HI HB.
  split; [reflexivity |]. split; [reflexivity |].
  rewrite (monte_carlo_sum_runs G Hrange K data cols batch Hdata Hrect Hcols Hin HB
             iteration g1 HI).
  rewrite (monte_carlo_sum_runs G Hrange K data cols batch Hdata Hrect Hcols Hin HB
             iteration g2 HI).
  eexists _, _. split; [reflexivity |]. split; [reflexivity |].
  unfold stream_runs. now rewrite length_map, unfold_runs_length.
Qed.

Lemma monte_carlo_sum_reseeds_witness :
  in_range lcg /\
  scenario <> [] /\ rectangular 3 scenario /\
  [0; 1; 2]%nat <> [] /\ Forall (fun c => (c < 3)%nat) [0; 1; 2]%nat /\
  (0 <= 2)%Z /\ (0 <= 5)%Z /\
  monte_carlo_sum lcg scenario 2 5 [0; 1; 2]%nat 7%Z
  = monte_carlo_sum lcg scenario 2 5 [0; 1; 2]%nat 2024%Z /\
  exists (profits : ndarray1) (g' : rng_state lcg),
    monte_carlo_sum lcg scenario 2 5 [0; 1; 2]%nat 7%Z = (Ok profits, g') /\
    monte_carlo_sum lcg scenario 2 5 [0; 1; 2]%nat 2024%Z = (Ok profits, g') /\
    List.length profits = Z.to_nat 2.
Proof.
  assert (rectangular 3 scenario) as Hrect by (repeat constructor).
  assert (Forall (fun c => (c < 3)%nat) [0; 1; 2]%nat) as Hin by (repeat constructor).
  assert (scenario <> []) as Hdata by discriminate.
  assert ([0; 1; 2]%nat <> []) as Hcols by discriminate.
  assert (0 <= 2)%Z as HI by lia.
  assert (0 <= 5)%Z as HB by lia.
  repeat (split; [assumption || exact lcg_in_range |]).
  destruct (monte_carlo_sum_reseeds lcg 3 scenario 2 5 [0; 1; 2]%nat 7%Z 2024%Z
              lcg_in_range Hdata Hrect Hcols Hin HI HB) as (Hsame & _ & Hret).
  split; [exact Hsame | exact Hret].
Defined.

Lemma monte_carlo_sum_entry_state (G : Generator) (data : ndarray2) (iteration batch : Z)
    (cols : list nat) (g1 g2 : rng_state G) :
  fst (monte_carlo_sum G data iteration batch cols g1)
  = fst (monte_carlo_sum G data iteration batch cols g2).
Proof.
  reflexivity.
Qed.

(** C2: on every well-formed call (a matrix with at least one row, an
    enabled-column array that is non-empty and inside the matrix,
    non-negative counts, a generator whose draws are in range), two calls
    of [monte_carlo_sum] with the same arguments return the same array,
    value for value, whatever the state of the generator before each of
    them: from any two states, and for two calls in sequence with any
    computation on the generator in between. There is one array that every
    such call returns. (The seed is not an argument of the function; it is
    the constant 12345 in both calls.) *)
Theorem monte_carlo_sum_deterministic (G : Generator) (K : nat) (data : ndarray2)
    (iteration batch : Z) (cols : list nat) :
  in_range G ->
  data <> [] -> rectangular K data ->
  cols <> [] -> Forall (fun c => (c < K)%nat) cols ->
  (0 <= iteration)%Z -> (0 <= batch)%Z ->
  (forall g1 g2 : rng_state G,
      fst (monte_carlo_sum G data iteration batch cols g1)
      = fst (monte_carlo_sum G data iteration batch cols g2)) /\
  (forall (between : M (rng_state G) unit) (g g' : rng_state G)
          (first second : ndarray1),
      (a <- monte_carlo_sum G data iteration batch cols ;;
       between ;;;
       b <- monte_carlo_sum G data iteration batch cols ;;
       ret (a, b)) g = (Ok (first, second), g') ->
      first = second) /\
  exists profits : ndarray1,
    List.length profits = Z.to_nat iteration /\
    forall g : rng_state G,
      fst (monte_carlo_sum G data iteration batch cols g) = Ok profits.
Proof.
  intros Hrange Hdata Hrect Hcols Hin HI HB.
  split; [intros g1 g2; reflexivity |]. split.
  - intros between g g' first second. unfold bind at 1.
    pose proof (monte_carlo_sum_entry_state G data iteration batch cols g) as Hfst.
    destruct (monte_carlo_sum G data iteration batch cols g) as [[a | e] s1];
      [| discriminate].
    unfold bind at 1. destruct (between s1) as [[[] | e] s2]; [| discriminate].
    unfold bind at 1. specialize (Hfst s2).
    destruct (monte_carlo_sum G data iteration batch cols s2) as [[b | e] s3];
      [| discriminate].
    simpl in Hfst. unfold ret. intros Heq.
    injection Heq as <- <- _. congruence.
  - eexists. split; [| intros g;
      rewrite (monte_carlo_sum_runs G Hrange K data cols batch Hdata Hrect Hcols Hin HB
                 iteration g HI); reflexivity].
    unfold stream_runs. now rewrite length_map, unfold_runs_length.
Qed.

Lemma monte_carlo_sum_deterministic_witness :
  in_range lcg /\
  scenario <> [] /\ rectangular 3 scenario /\
  [0; 1; 2]%nat <> [] /\ Forall (fun c => (c < 3)%nat) [0; 1; 2]%nat /\
  (0 <= 2)%Z /\ (0 <= 5)%Z /\
  (a <- monte_carlo_sum lcg scenario 2 5 [0; 1; 2]%nat ;;
   (_ <- draws lcg 3 4 ;; ret tt) ;;;
   b <- monte_carlo_sum lcg scenario 2 5 [0; 1; 2]%nat ;;
   ret (a, b)) 7%Z
  = (Ok ([-10; -50]%float, [-10; -50]%float), 1343235941%Z) /\
  [-10; -50]%float = [-10; -50]%float.
Proof.
  assert (rectangular 3 scenario) as Hrect by (repeat constructor).
  assert (Forall (fun c => (c < 3)%nat) [0; 1; 2]%nat) as Hin by (repeat constructor).
  assert (scenario <> []) as Hdata by discriminate.
  assert ([0; 1; 2]%nat <> []) as Hcols by discriminate.
  assert (0 <= 2)%Z as HI by lia.
  assert (0 <= 5)%Z as HB by lia.
  assert ((a <- monte_carlo_sum lcg scenario 2 5 [0; 1; 2]%nat ;;
           (_ <- draws lcg 3 4 ;; ret tt) ;;;
           b <- monte_carlo_sum lcg scenario 2 5 [0; 1; 2]%nat ;;
           ret (a, b)) 7%Z
          = (Ok ([-10; -50]%float, [-10; -50]%float), 1343235941%Z)) as Hcalls
    by (vm_compute; reflexivity).
  repeat (split; [assumption || exact lcg_in_range |]).
  exact (proj1 (proj2 (monte_carlo_sum_deterministic lcg 3 scenario 2 5 [0; 1; 2]%nat
                         lcg_in_range Hdata Hrect Hcols Hin HI HB))
           (_ <- draws lcg 3 4 ;; ret tt) 7%Z 1343235941%Z _ _ Hcalls).
Defined.

Lemma singleton_extraction (k : nat) (rows : ndarray2) (js : list nat) :
  Forall (fun j => (j < 1)%nat) js ->
  List.length js = List.length rows ->
  map (fun rj => nth (nth (snd rj) [k] O) (fst rj) 0%float) (combine rows js)
  = map (fun r => nth k r 0%float) rows.
Proof.
  intros Hjs. revert rows.
  induction Hjs as [| j js Hj _ IH]; intros [| r rows] Hlen; simpl in *;
    try reflexivity; try discriminate.
  replace j with O by lia. simpl. f_equal. apply IH. lia.
Qed.

(** C7: with the single enabled column [k], [select_random_col] returns
    column [k] of the sampled rows whatever the generator draws, and every
    profit of [monte_carlo_sum] is the sum of the [B] values of column [k]
    at the rows drawn in that run. *)
Theorem single_column_profits (G : Generator) (K k : nat) :
  in_range G -> (k < K)%nat ->
  (forall (row_arr : ndarray2) (s : rng_state G),
      rectangular K row_arr ->
      fst (select_random_col G row_arr [k] s)
      = Ok (map (fun r => nth k r 0%float) row_arr)) /\
  (forall (data : ndarray2) (I B : Z) (g : rng_state G),
      data <> [] -> rectangular K data -> (0 <= I)%Z -> (0 <= B)%Z ->
      exists (profits : ndarray1) (runs : list (list (nat * nat))) (g' : rng_state G),
        monte_carlo_sum G data I B [k] g = (Ok profits, g') /\
        (runs, g') = stream_runs G (List.length data) 1 (Z.to_nat B) (Z.to_nat I)
                       (rng_seed G 12345) /\
        List.length profits = Z.to_nat I /\
        forall i, (i < Z.to_nat I)%nat ->
          List.length (nth i runs []) = Z.to_nat B /\
          Forall (fun d => (fst d < List.length data)%nat) (nth i runs []) /\
          nth i profits 0%float
          = fold_left PrimFloat.add
              (map (fun d => nth k (nth (fst d) data []) 0%float) (nth i runs []))
              0%float).
Proof.
  intros Hrange Hk.
  assert ([k] <> []) as Hcols by discriminate.
  assert (Forall (fun c => (c < K)%nat) [k]) as Hin by (constructor; [exact Hk | constructor]).
  split.
  - intros row_arr s Hrect.
    rewrite (select_random_col_ok G Hrange K row_arr [k] s Hcols Hin Hrect). simpl.
    f_equal. apply singleton_extraction.
    + apply (raw_draws_below G Hrange 1). lia.
    + apply raw_draws_length.
  - intros data I B g Hdata Hrect HI HB.
    pose proof (nonempty_length data Hdata) as HR.
    pose proof (monte_carlo_sum_runs G Hrange K data [k] B Hdata Hrect Hcols Hin HB I g HI)
      as Hrun.
    pose proof (unfold_runs_length G (run_draws G (List.length data) 1 (Z.to_nat B))
                  (Z.to_nat I) (rng_seed G 12345)) as Hlen.
    pose proof (unfold_runs_Forall G (run_draws G (List.length data) 1 (Z.to_nat B))
                  (fun ds => List.length ds = Z.to_nat B /\
                             Forall (fun d => (fst d < List.length data)%nat /\
                                              (snd d < 1)%nat) ds)
                  (fun s => run_draws_spec G _ _ _ s Hrange HR Nat.lt_0_1)
                  (Z.to_nat I) (rng_seed G 12345)) as Hall.
    simpl List.length in Hrun.
    fold (stream_runs G (List.length data) 1 (Z.to_nat B) (Z.to_nat I)
            (rng_seed G 12345)) in Hlen, Hall.
    destruct (stream_runs G (List.length data) 1 (Z.to_nat B) (Z.to_nat I)
                (rng_seed G 12345)) as [runs g'].
    simpl in Hrun, Hlen, Hall.
    exists (map (run_profit data [k]) runs), runs, g'.
    repeat split; try assumption.
    + now rewrite length_map.
    + rewrite Forall_forall in Hall. apply Hall, nth_In. lia.
    + rewrite Forall_forall in Hall.
      assert (In (nth i runs []) runs) as Hmem by (apply nth_In; lia).
      destruct (Hall _ Hmem) as [_ Hds].
      eapply Forall_impl; [| exact Hds]. intros d [Hr _]. exact Hr.
    + rewrite (nth_indep _ 0%float (run_profit data [k] []))
        by (rewrite length_map; lia).
      rewrite map_nth. unfold run_profit, array_sum. f_equal.
      rewrite Forall_forall in Hall.
      assert (In (nth i runs []) runs) as Hmem by (apply nth_In; lia).
      destruct (Hall _ Hmem) as [_ Hds].
      apply map_ext_in. intros [r j] Hd.
      rewrite Forall_forall in Hds. destruct (Hds _ Hd) as [_ Hj].
      unfold payout. simpl in *. replace j with O by lia. reflexivity.
Qed.

Lemma single_column_profits_witness :
  in_range lcg /\ (0 < 3)%nat /\
  rectangular 3 scenario /\
  fst (select_random_col lcg scenario [0%nat] 7%Z) = Ok [10; -10; -10]%float /\
  scenario <> [] /\ (0 <= 2)%Z /\ (0 <= 3)%Z /\
  exists (profits : ndarray1) (g' : rng_state lcg),
    monte_carlo_sum lcg scenario 2 3 [0%nat] 7%Z = (Ok profits, g') /\
    List.length profits = Z.to_nat 2.
Proof.
  assert (0 < 3)%nat as Hk by lia.
  assert (rectangular 3 scenario) as Hrect by (repeat constructor).
  assert (scenario <> []) as Hdata by discriminate.
  assert (0 <= 2)%Z as HI by lia.
  assert (0 <= 3)%Z as HB by lia.
  pose proof (single_column_profits lcg 3 0 lcg_in_range Hk) as [Hcol Hsum].
  split; [exact lcg_in_range |]. split; [exact Hk |]. split; [exact Hrect |].
  split; [exact (Hcol scenario 7%Z Hrect) |].
  split; [exact Hdata |]. split; [exact HI |]. split; [exact HB |].
  destruct (Hsum scenario 2%Z 3%Z 7%Z Hdata Hrect HI HB)
    as (profits & runs & g' & Hrun & _ & Hlen & _).
  exists profits, g'. split; [exact Hrun | exact Hlen].
Defined.

(** ** Binary64 addition: signed zeros and NaN *)

Lemma neg_zero_inv (x : float64) : Prim2SF x = S754_zero true -> x = (-0)%float.
Proof. intros H. apply Prim2SF_inj. rewrite H. reflexivity. Qed.

Lemma pos_zero_inv (x : float64) : Prim2SF x = S754_zero false -> x = 0%float.
Proof. intros H. apply Prim2SF_inj. rewrite H. reflexivity. Qed.

Ltac by_add_spec E :=
  apply Prim2SF_inj; rewrite !add_spec, E; reflexivity.

Lemma add_zero_l (x : float64) : zero_like x (PrimFloat.add 0 x).
Proof.
  destruct (Prim2SF x) as [[|] | s | | s m e] eqn:E.
  - right. apply neg_zero_inv in E. subst x. split; reflexivity.
  - left. apply pos_zero_inv in E. subst x. reflexivity.
  - left. by_add_spec E.
  - left. by_add_spec E.
  - left. by_add_spec E.
Qed.

Lemma zero_like_add (a b y : float64) :
  zero_like a b -> zero_like (PrimFloat.add a y) (PrimFloat.add b y).
Proof.
  intros [-> | [-> ->]]; [left; reflexivity |].
  destruct (Prim2SF y) as [[|] | s | | s m e] eqn:E.
  - right. apply neg_zero_inv in E. subst y. split; reflexivity.
  - left. apply pos_zero_inv in E. subst y. reflexivity.
  - left. by_add_spec E.
  - left. by_add_spec E.
  - left. by_add_spec E.
Qed.

Lemma add_zero_like (x a b : float64) :
  x <> (-0)%float -> zero_like a b -> PrimFloat.add x a = PrimFloat.add x b.
Proof.
  intros Hx [-> | [-> ->]]; [reflexivity |].
  destruct (Prim2SF x) as [[|] | s | | s m e] eqn:E.
  - apply neg_zero_inv in E. contradiction.
  - apply pos_zero_inv in E. subst x. reflexivity.
  - by_add_spec E.
  - by_add_spec E.
  - by_add_spec E.
Qed.

Lemma add_nan_l (x : float64) : PrimFloat.add nan x = nan.
Proof.
  apply Prim2SF_inj. rewrite add_spec. change (Prim2SF nan) with S754_nan.
  reflexivity.
Qed.

Lemma add_nan_r (x : float64) : PrimFloat.add x nan = nan.
Proof.
  apply Prim2SF_inj. rewrite add_spec. change (Prim2SF nan) with S754_nan.
  destruct (Prim2SF x); reflexivity.
Qed.

Lemma fold_add_zero_like (l : ndarray1) :
  forall a b, zero_like a b ->
    zero_like (fold_left PrimFloat.add l a) (fold_left PrimFloat.add l b).
Proof.
  induction l as [| y l IH]; intros a b Hab; simpl; [exact Hab |].
  apply IH, zero_like_add, Hab.
Qed.

Lemma fold_add_nan (l : ndarray1) : fold_left PrimFloat.add l nan = nan.
Proof.
  induction l as [| y l IH]; simpl; [reflexivity |]. now rewrite add_nan_l.
Qed.

Lemma array_sum_nan (l : ndarray1) : In nan l -> array_sum l = nan.
Proof.
  unfold array_sum. generalize 0%float as acc.
  induction l as [| y l IH]; intros acc Hin; simpl; [contradiction |].
  destruct Hin as [-> | Hin]; [| now apply IH].
  rewrite add_nan_r. apply fold_add_nan.
Qed.

(** ** Cumulative sums *)

Lemma cumsum_from_length (a : ndarray1) :
  forall acc, List.length (cumsum_from acc a) = List.length a.
Proof.
  induction a as [| x a IH]; intros acc; simpl; [reflexivity | now rewrite IH].
Qed.

Lemma np_cumsum_length (a : ndarray1) : List.length (np_cumsum a) = List.length a.
Proof.
  destruct a as [| x a]; simpl; [reflexivity | now rewrite cumsum_from_length].
Qed.

Lemma cumsum_from_last (a : ndarray1) :
  forall acc, last (acc :: cumsum_from acc a) 0%float = fold_left PrimFloat.add a acc.
Proof.
  induction a as [| x a IH]; intros acc; [reflexivity |].
  change (last (acc :: cumsum_from acc (x :: a)) 0%float)
    with (last (PrimFloat.add acc x :: cumsum_from (PrimFloat.add acc x) a) 0%float).
  apply IH.
Qed.

(** The [j]-th running total: the first [j + 1] elements added up from the
    first one on. *)
Lemma cumsum_from_nth (a : ndarray1) :
  forall acc j, (j < List.length a)%nat ->
    nth j (cumsum_from acc a) 0%float = fold_left PrimFloat.add (firstn (S j) a) acc.
Proof.
  induction a as [| x a IH]; intros acc j Hj; simpl in Hj; [lia |].
  destruct j as [| j]; [destruct a; reflexivity |].
  simpl. apply IH. lia.
Qed.

Lemma last_map_cons {A B : Type} (f : A -> B) (x : A) (l : list A) (d : A) (d' : B) :
  last (map f (x :: l)) d' = f (last (x :: l) d).
Proof.
  revert x; induction l as [| y l IH]; intros x; [reflexivity |].
  change (last (map f (x :: y :: l)) d') with (last (map f (y :: l)) d').
  change (last (x :: y :: l) d) with (last (y :: l) d). apply IH.
Qed.

Lemma np_cumsum_nth (v : ndarray1) (j : nat) :
  (j < List.length v)%nat ->
  nth j (np_cumsum v) 0%float
  = fold_left PrimFloat.add (firstn j (tl v)) (hd 0%float v).
Proof.
  destruct v as [| x rest]; simpl; [lia |]. intros Hj.
  destruct j as [| j]; [reflexivity |].
  apply cumsum_from_nth. lia.
Qed.

Lemma np_cumsum_last (ib : float64) (v : ndarray1) :
  v <> [] -> ib <> (-0)%float ->
  last (map (fun c => PrimFloat.add ib c) (np_cumsum v)) 0%float
  = PrimFloat.add ib (array_sum v).
Proof.
  destruct v as [| x rest]; [congruence |]. intros _ Hib.
  unfold np_cumsum. rewrite (last_map_cons _ _ _ 0%float), cumsum_from_last.
  unfold array_sum. simpl fold_left at 2.
  apply add_zero_like; [exact Hib |].
  apply fold_add_zero_like, add_zero_l.
Qed.

(** ** The trajectory loop against the stream *)

Lemma timeseries_runs (G : Generator) (K : nat) (arr_mc : ndarray2)
    (n_iteration n_bets_ts : Z) (initial_balance : float64) (s : rng_state G) :
  in_range G ->
  arr_mc <> [] -> rectangular K arr_mc -> (3 <= K)%nat ->
  (0 <= n_iteration)%Z -> (0 <= n_bets_ts)%Z ->
  timeseries G arr_mc n_iteration n_bets_ts initial_balance s
  = (Ok (map (fun ds => map (fun c => PrimFloat.add initial_balance c)
                          (np_cumsum (map (payout arr_mc [0; 1; 2]%nat) ds)))
           (fst (stream_runs G (List.length arr_mc) 3 (Z.to_nat n_bets_ts)
                   (Z.to_nat n_iteration) s))),
     snd (stream_runs G (List.length arr_mc) 3 (Z.to_nat n_bets_ts)
            (Z.to_nat n_iteration) s)).
Proof.
  intros Hrange Hdata Hrect HK HI Hn.
  assert ([0; 1; 2]%nat <> []) as Hcols by discriminate.
  assert (Forall (fun c => (c < K)%nat) [0; 1; 2]%nat) as Hin
    by (repeat constructor; lia).
  unfold timeseries, np_empty2, bind.
  destruct (Z.ltb_spec n_iteration 0) as [Hneg | _]; [lia |].
  destruct (Z.ltb_spec n_bets_ts 0) as [Hneg | _]; [lia |].
  simpl orb. unfold ret.
  pose proof (for_each_setitem G (timeseries_step G arr_mc n_bets_ts initial_balance)
                (fun s' =>
                   (map (fun c => PrimFloat.add initial_balance c)
                      (np_cumsum
                         (map (payout arr_mc [0; 1; 2]%nat)
                            (fst (run_draws G (List.length arr_mc) 3
                                    (Z.to_nat n_bets_ts) s')))),
                    snd (run_draws G (List.length arr_mc) 3 (Z.to_nat n_bets_ts) s')))
                (fun i acc s' =>
                   sample_then G Hrange K arr_mc [0; 1; 2]%nat n_bets_ts
                     Hdata Hrect Hcols Hin Hn _ s')
                (Z.to_nat n_iteration) []
                (repeat (repeat uninit (Z.to_nat n_bets_ts)) (Z.to_nat n_iteration)) s
                (repeat_length _ _)) as Hloop.
  simpl in Hloop. etransitivity; [exact Hloop |].
  unfold stream_runs.
  rewrite (unfold_runs_map G (run_draws G (List.length arr_mc) 3 (Z.to_nat n_bets_ts))
             (fun ds => map (fun c => PrimFloat.add initial_balance c)
                          (np_cumsum (map (payout arr_mc [0; 1; 2]%nat) ds)))).
  reflexivity.
Qed.

(** C3, as amended: every row of the trajectory matrix is the initial
    balance added to the inclusive running sums of that run's payouts, in
    binary64; and for the same draws (both loops started on the generator
    seeded with 12345, one run of [n_bets_ts] bets per row) the last element
    of a row equals the initial balance plus the terminal profit that
    [monte_carlo_sum] returns for that run with [batch = n_bets_ts]. The
    initial balance is any value other than negative zero. *)
Theorem trajectory_last_is_balance_plus_profit (G : Generator) (K : nat)
    (arr_mc : ndarray2) (n_iteration n_bets_ts : Z) (initial_balance : float64)
    (g : rng_state G) :
  in_range G ->
  arr_mc <> [] -> rectangular K arr_mc -> (3 <= K)%nat ->
  (0 <= n_iteration)%Z -> (0 < n_bets_ts)%Z ->
  initial_balance <> (-0)%float ->
  exists (rows : ndarray2) (profits : ndarray1) (runs : list (list (nat * nat)))
         (g' : rng_state G),
    timeseries G arr_mc n_iteration n_bets_ts initial_balance (rng_seed G 12345)
    = (Ok rows, g') /\
    monte_carlo_sum G arr_mc n_iteration n_bets_ts [0; 1; 2]%nat g = (Ok profits, g') /\
    (runs, g') = stream_runs G (List.length arr_mc) 3 (Z.to_nat n_bets_ts)
                   (Z.to_nat n_iteration) (rng_seed G 12345) /\
    List.length rows = Z.to_nat n_iteration /\
    forall i, (i < Z.to_nat n_iteration)%nat ->
      let v := map (payout arr_mc [0; 1; 2]%nat) (nth i runs []) in
      List.length (nth i rows []) = Z.to_nat n_bets_ts /\
      (forall j, (j < Z.to_nat n_bets_ts)%nat ->
         nth j (nth i rows []) 0%float
         = PrimFloat.add initial_balance
             (fold_left PrimFloat.add (firstn j (tl v)) (hd 0%float v))) /\
      last (nth i rows []) 0%float
      = PrimFloat.add initial_balance (nth i profits 0%float).
Proof.
  intros Hrange Hdata Hrect HK HI Hn Hib.
  assert ([0; 1; 2]%nat <> []) as Hcols by discriminate.
  assert (Forall (fun c => (c < K)%nat) [0; 1; 2]%nat) as Hin
    by (repeat constructor; lia).
  assert (0 <= n_bets_ts)%Z as Hn' by lia.
  pose proof (nonempty_length arr_mc Hdata) as HR.
  assert (0 < 3)%nat as H3 by lia.
  pose proof (timeseries_runs G K arr_mc n_iteration n_bets_ts initial_balance
                (rng_seed G 12345) Hrange Hdata Hrect HK HI Hn') as Hts.
  pose proof (monte_carlo_sum_runs G Hrange K arr_mc [0; 1; 2]%nat n_bets_ts
                Hdata Hrect Hcols Hin Hn' n_iteration g HI) as Hmc.
  simpl List.length in Hmc.
  pose proof (unfold_runs_length G (run_draws G (List.length arr_mc) 3 (Z.to_nat n_bets_ts))
                (Z.to_nat n_iteration) (rng_seed G 12345)) as Hlen.
  pose proof (unfold_runs_Forall G (run_draws G (List.length arr_mc) 3 (Z.to_nat n_bets_ts))
                (fun ds => List.length ds = Z.to_nat n_bets_ts /\
                           Forall (fun d => (fst d < List.length arr_mc)%nat /\
                                            (snd d < 3)%nat) ds)
                (fun s => run_draws_spec G _ _ _ s Hrange HR H3)
                (Z.to_nat n_iteration) (rng_seed G 12345)) as Hall.
  fold (stream_runs G (List.length arr_mc) 3 (Z.to_nat n_bets_ts) (Z.to_nat n_iteration)
          (rng_seed G 12345)) in Hlen, Hall.
  destruct (stream_runs G (List.length arr_mc) 3 (Z.to_nat n_bets_ts)
              (Z.to_nat n_iteration) (rng_seed G 12345)) as [runs g'].
  simpl in Hts, Hmc, Hlen, Hall.
  eexists _, _, runs, g'.
  split; [exact Hts |]. split; [exact Hmc |]. split; [reflexivity |].
  split; [now rewrite length_map |].
  intros i Hi v.
  assert (In (nth i runs []) runs) as Hmem by (apply nth_In; lia).
  rewrite Forall_forall in Hall. destruct (Hall _ Hmem) as [Hds _].
  assert (List.length v = Z.to_nat n_bets_ts) as Hv
    by (unfold v; now rewrite length_map).
  rewrite (nth_map_in _ runs i _ []) by lia. fold v.
  split; [| split].
  - now rewrite length_map, np_cumsum_length.
  - intros j Hj.
    rewrite (nth_map_in _ (np_cumsum v) j _ 0%float) by (rewrite np_cumsum_length; lia).
    f_equal. apply np_cumsum_nth. lia.
  - rewrite np_cumsum_last; [| intros Hnil; rewrite Hnil in Hv; simpl in Hv; lia | exact Hib].
    f_equal. rewrite (nth_map_in _ runs i _ []) by lia. reflexivity.
Qed.

Lemma trajectory_last_is_balance_plus_profit_witness :
  in_range lcg /\
  scenario <> [] /\ rectangular 3 scenario /\ (3 <= 3)%nat /\
  (0 <= 2)%Z /\ (0 < 5)%Z /\ 10000%float <> (-0)%float /\
  exists (rows : ndarray2) (profits : ndarray1) (g' : rng_state lcg),
    timeseries lcg scenario 2 5 10000%float (rng_seed lcg 12345) = (Ok rows, g') /\
    monte_carlo_sum lcg scenario 2 5 [0; 1; 2]%nat 7%Z = (Ok profits, g') /\
    last (nth 1 rows []) 0%float = PrimFloat.add 10000%float (nth 1 profits 0%float).
Proof.
  assert (rectangular 3 scenario) as Hrect by (repeat constructor).
  assert (scenario <> []) as Hdata by discriminate.
  assert (3 <= 3)%nat as HK by lia.
  assert (0 <= 2)%Z as HI by lia.
  assert (0 < 5)%Z as HB by lia.
  assert (10000%float <> (-0)%float) as Hib.
  { intros H. apply (f_equal Prim2SF) in H. vm_compute in H. discriminate H. }
  repeat (split; [assumption || exact lcg_in_range |]).
  destruct (trajectory_last_is_balance_plus_profit lcg 3 scenario 2 5 10000%float 7%Z
              lcg_in_range Hdata Hrect HK HI HB Hib)
    as (rows & profits & runs & g' & Hts & Hmc & _ & _ & Hrows).
  exists rows, profits, g'.
  split; [exact Hts |]. split; [exact Hmc |].
  assert (1 < Z.to_nat 2)%nat as H1 by (simpl; lia).
  exact (proj2 (proj2 (Hrows 1%nat H1))).
Defined.

(** C3, as stated, fails in binary64: on a one-match matrix whose three
    payouts are all 0.1 (so that the draws do not matter), with initial
    balance 10000, the only row of the trajectory is [10000.1]; taking the
    initial balance off again gives 0.1000000000003638, not the terminal
    profit 0.1 of the same run. *)
Lemma trajectory_minus_balance_counterexample :
  exists (g' : rng_state lcg) (row : ndarray1) (profit : float64),
    timeseries lcg [[0.1; 0.1; 0.1]]%float 1 1 10000%float (rng_seed lcg 12345)
    = (Ok [row], g') /\
    monte_carlo_sum lcg [[0.1; 0.1; 0.1]]%float 1 1 [0; 1; 2]%nat 7%Z
    = (Ok [profit], g') /\
    PrimFloat.sub (last row 0%float) 10000%float <> profit.
Proof.
  eexists _, _, _.
  split; [vm_compute; reflexivity |].
  split; [vm_compute; reflexivity |].
  intros H. apply (f_equal Prim2SF) in H. vm_compute in H. discriminate H.
Qed.

(** ** The engine never looks at the payouts *)

Lemma agree_status {S A : Type} (R : A -> A -> Prop) (r1 r2 : outcome A * S) :
  agree R r1 r2 -> status r1 = status r2.
Proof.
  destruct r1 as [[a | e1] s1], r2 as [[b | e2] s2]; unfold agree, status; simpl;
    intros [Hs H]; subst; try contradiction; reflexivity.
Qed.

Lemma agree_refl {S A : Type} (R : A -> A -> Prop) (r : outcome A * S) :
  (forall a, R a a) -> agree R r r.
Proof.
  intros HR. destruct r as [[a | e] s]; split; simpl; auto.
Qed.

Lemma agree_bind {S A B : Type} (R : A -> A -> Prop) (R' : B -> B -> Prop)
    (m1 m2 : M S A) (k1 k2 : A -> M S B) (s : S) :
  agree R (m1 s) (m2 s) ->
  (forall a b s', R a b -> agree R' (k1 a s') (k2 b s')) ->
  agree R' (bind m1 k1 s) (bind m2 k2 s).
Proof.
  unfold bind. intros Hm Hk.
  destruct (m1 s) as [[a | e1] s1], (m2 s) as [[b | e2] s2];
    destruct Hm as [Hs H]; simpl in *; subst; try contradiction.
  - apply Hk, H.
  - split; reflexivity.
Qed.

Lemma same_shape_nth_error (d1 d2 : ndarray2) (i : nat) :
  same_shape d1 d2 ->
  match nth_error d1 i, nth_error d2 i with
  | Some r1, Some r2 => List.length r1 = List.length r2
  | None, None => True
  | _, _ => False
  end.
Proof.
  intros H. revert i. induction H as [| r1 r2 d1 d2 Hr _ IH]; intros [| i]; simpl; auto.
  apply IH.
Qed.

Section ShapeOnly.

Variable G : Generator.
Variables d1 d2 : ndarray2.
Hypothesis Hshape : same_shape d1 d2.

Lemma checked_row_agree (i : nat) (s : rng_state G) :
  agree (fun r1 r2 : list float64 => List.length r1 = List.length r2)
    (checked G (nth_error d1 i) s) (checked G (nth_error d2 i) s).
Proof.
  pose proof (same_shape_nth_error d1 d2 i Hshape) as H.
  destruct (nth_error d1 i), (nth_error d2 i); try contradiction;
    split; simpl; auto.
Qed.

Lemma take_rows_agree (idxs : list nat) (s : rng_state G) :
  agree same_shape (take_rows G d1 idxs s) (take_rows G d2 idxs s).
Proof.
  revert s; induction idxs as [| i idxs IH]; intros s; simpl.
  - split; simpl; [reflexivity | constructor].
  - eapply agree_bind; [apply checked_row_agree |].
    intros r1 r2 s1 Hr. eapply agree_bind; [apply IH |].
    intros rs1 rs2 s2 Hrs. split; simpl; [reflexivity | now constructor].
Qed.

Lemma select_random_row_agree (num_rows : Z) (s : rng_state G) :
  agree same_shape (select_random_row G d1 num_rows s)
    (select_random_row G d2 num_rows s).
Proof.
  unfold select_random_row, shape0.
  rewrite (Forall2_length Hshape).
  eapply agree_bind; [apply (agree_refl eq); reflexivity |].
  intros idxs ? s1 <-. apply take_rows_agree.
Qed.

Lemma gather_agree (cs : list nat) :
  forall (row : nat) (s : rng_state G),
    agree (fun a b : ndarray1 => List.length a = List.length b)
      (gather G d1 row cs s) (gather G d2 row cs s).
Proof.
  induction cs as [| c cs IH]; intros row s; simpl.
  - split; reflexivity.
  - eapply agree_bind with (R := fun _ _ => True).
    + unfold getitem2.
      eapply agree_bind; [apply checked_row_agree |].
      intros r1 r2 s1 Hr. simpl in Hr.
      destruct (nth_error r1 c) as [x1 |] eqn:E1, (nth_error r2 c) as [x2 |] eqn:E2;
        split; simpl; auto.
      * apply nth_error_None in E2.
        assert (c < List.length r1)%nat by (apply nth_error_Some; congruence). lia.
      * apply nth_error_None in E1.
        assert (c < List.length r2)%nat by (apply nth_error_Some; congruence). lia.
    + intros x1 x2 s1 _. eapply agree_bind; [apply IH |].
      intros xs1 xs2 s2 Hxs. split; simpl; [reflexivity | now rewrite Hxs].
Qed.

Lemma select_random_col_agree (cols : list nat) (s : rng_state G) :
  agree (fun a b : ndarray1 => List.length a = List.length b)
    (select_random_col G d1 cols s) (select_random_col G d2 cols s).
Proof.
  unfold select_random_col, shape0.
  rewrite (Forall2_length Hshape).
  eapply agree_bind; [apply (agree_refl eq); reflexivity |].
  intros cs ? s1 <-. apply gather_agree.
Qed.

End ShapeOnly.

Lemma for_each_agree {S A B : Type} (R : B -> B -> Prop)
    (body1 body2 : A -> B -> M S B) (l : list A) :
  (forall x acc1 acc2 s, R acc1 acc2 -> agree R (body1 x acc1 s) (body2 x acc2 s)) ->
  forall acc1 acc2 s, R acc1 acc2 ->
    agree R (for_each l body1 acc1 s) (for_each l body2 acc2 s).
Proof.
  intros Hbody. induction l as [| x l IH]; intros acc1 acc2 s Hacc; simpl.
  - split; simpl; [reflexivity | exact Hacc].
  - eapply agree_bind; [apply Hbody, Hacc |].
    intros a b s' Hab. apply IH, Hab.
Qed.

Lemma monte_carlo_sum_agree (G : Generator) (d1 d2 : ndarray2) (iteration batch : Z)
    (cols : list nat) (g : rng_state G) :
  same_shape d1 d2 ->
  agree (fun a b : ndarray1 => List.length a = List.length b)
    (monte_carlo_sum G d1 iteration batch cols g)
    (monte_carlo_sum G d2 iteration batch cols g).
Proof.
  intros Hshape. unfold monte_carlo_sum.
  eapply agree_bind; [apply (agree_refl eq); reflexivity |].
  intros ? ? s1 _.
  eapply agree_bind; [apply (agree_refl eq); reflexivity |].
  intros arr ? s2 <-.
  apply for_each_agree; [| reflexivity].
  intros i acc1 acc2 s Hacc. unfold monte_carlo_step.
  eapply agree_bind; [apply select_random_row_agree, Hshape |].
  intros r1 r2 s3 Hr.
  eapply agree_bind; [apply select_random_col_agree, Hr |].
  intros e1 e2 s4 _. split; simpl; [reflexivity |].
  now rewrite !setitem_length.
Qed.

(** ** Invalid and corrupted inputs *)

(** C6, as amended: [monte_carlo_sum] has no check on the payouts. Whether
    a call returns or raises, which exception it raises and the generator
    state it leaves depend on the shape of the matrix only, so no exception
    is ever due to a non-finite cell; and on a well-formed call a NaN payout
    selected in a run makes the profit of that run NaN in the returned
    array. *)
Theorem monte_carlo_sum_ignores_payouts (G : Generator) (iteration batch : Z)
    (cols : list nat) (g : rng_state G) :
  (forall d1 d2 : ndarray2,
      same_shape d1 d2 ->
      status (monte_carlo_sum G d1 iteration batch cols g)
      = status (monte_carlo_sum G d2 iteration batch cols g)) /\
  (forall (K : nat) (data : ndarray2),
      in_range G ->
      data <> [] -> rectangular K data ->
      cols <> [] -> Forall (fun c => (c < K)%nat) cols ->
      (0 <= iteration)%Z -> (0 <= batch)%Z ->
      exists (profits : ndarray1) (runs : list (list (nat * nat))) (g' : rng_state G),
        monte_carlo_sum G data iteration batch cols g = (Ok profits, g') /\
        (runs, g') = stream_runs G (List.length data) (List.length cols)
                       (Z.to_nat batch) (Z.to_nat iteration) (rng_seed G 12345) /\
        forall i d, (i < Z.to_nat iteration)%nat ->
          In d (nth i runs []) -> payout data cols d = nan ->
          nth i profits 0%float = nan).
Proof.
  split.
  - intros d1 d2 Hshape. eapply agree_status, monte_carlo_sum_agree, Hshape.
  - intros K data Hrange Hdata Hrect Hcols Hin HI HB.
    pose proof (monte_carlo_sum_runs G Hrange K data cols batch Hdata Hrect Hcols Hin HB
                  iteration g HI) as Hrun.
    pose proof (unfold_runs_length G (run_draws G (List.length data) (List.length cols)
                                        (Z.to_nat batch))
                  (Z.to_nat iteration) (rng_seed G 12345)) as Hlen.
    fold (stream_runs G (List.length data) (List.length cols) (Z.to_nat batch)
            (Z.to_nat iteration) (rng_seed G 12345)) in Hlen.
    destruct (stream_runs G (List.length data) (List.length cols) (Z.to_nat batch)
                (Z.to_nat iteration) (rng_seed G 12345)) as [runs g'].
    simpl in Hrun, Hlen.
    eexists _, runs, g'. split; [exact Hrun |]. split; [reflexivity |].
    intros i d Hi Hd Hnan.
    rewrite (nth_map_in _ runs i _ []) by lia.
    apply array_sum_nan. rewrite <- Hnan. apply in_map, Hd.
Qed.

Lemma monte_carlo_sum_ignores_payouts_witness :
  (same_shape scenario scenario_nan /\
   status (monte_carlo_sum lcg scenario 2 5 [0; 1; 2]%nat 7%Z)
   = status (monte_carlo_sum lcg scenario_nan 2 5 [0; 1; 2]%nat 7%Z)) /\
  in_range lcg /\
  scenario_nan <> [] /\ rectangular 3 scenario_nan /\
  [0; 1; 2]%nat <> [] /\ Forall (fun c => (c < 3)%nat) [0; 1; 2]%nat /\
  (0 <= 2)%Z /\ (0 <= 5)%Z /\
  (0 < Z.to_nat 2)%nat /\
  exists (profits : ndarray1) (g' : rng_state lcg),
    monte_carlo_sum lcg scenario_nan 2 5 [0; 1; 2]%nat 7%Z = (Ok profits, g') /\
    nth 0 profits 0%float = nan.
Proof.
  assert (same_shape scenario scenario_nan) as Hshape by (repeat constructor).
  assert (rectangular 3 scenario_nan) as Hrect by (repeat constructor).
  assert (Forall (fun c => (c < 3)%nat) [0; 1; 2]%nat) as Hin by (repeat constructor).
  assert (scenario_nan <> []) as Hdata by discriminate.
  assert ([0; 1; 2]%nat <> []) as Hcols by discriminate.
  assert (0 <= 2)%Z as HI by lia.
  assert (0 <= 5)%Z as HB by lia.
  assert (0 < Z.to_nat 2)%nat as H0 by (simpl; lia).
  split.
  { split; [exact Hshape |].
    exact (proj1 (monte_carlo_sum_ignores_payouts lcg 2 5 [0; 1; 2]%nat 7%Z)
             _ _ Hshape). }
  repeat (split; [assumption || exact lcg_in_range |]).
  destruct (proj2 (monte_carlo_sum_ignores_payouts lcg 2 5 [0; 1; 2]%nat 7%Z)
              3%nat scenario_nan lcg_in_range Hdata Hrect Hcols Hin HI HB)
    as (profits & runs & g' & Hrun & Hruns & Hnan).
  exists profits, g'. split; [exact Hrun |].
  vm_compute in Hruns. injection Hruns as Eruns _.
  apply (Hnan 0%nat (1, 2)%nat H0).
  - rewrite Eruns. simpl. left. reflexivity.
  - reflexivity.
Defined.

(** C6, as stated, fails: on a matrix whose only row holds NaN, or holds
    an infinity, the call returns normally and the corrupted value is the
    profit it reports. *)
Lemma non_finite_payout_counterexample :
  fst (monte_carlo_sum lcg [[nan; nan; nan]]%float 1 1 [0; 1; 2]%nat 7%Z)
  = Ok [nan] /\
  fst (monte_carlo_sum lcg [[infinity; infinity; infinity]]%float 1 1 [0; 1; 2]%nat 7%Z)
  = Ok [infinity].
Proof.
  split; vm_compute; reflexivity.
Qed.

Lemma unfold_runs_const (G : Generator) {A : Type} (a : A) (n : nat) (s : rng_state G) :
  unfold_runs G (fun s' => (a, s')) n s = (repeat a n, s).
Proof.
  induction n as [| n IH]; simpl; [reflexivity | now rewrite IH].
Qed.

Lemma draws_empty_range (G : Generator) (k : nat) (s : rng_state G) :
  draws G 0 (S k) s = (Raise ValueError, s).
Proof. reflexivity. Qed.

(** C5, as amended: the samplers and the engine validate nothing
    themselves; an argument is rejected only where a NumPy primitive rejects
    it, with a [ValueError], after the generator has been reseeded.
    - [iteration = 0] returns the empty array and [batch = 0] returns
      [iteration] zeros, whatever the matrix and the enabled columns.
    - A negative [iteration] fails at the allocation of the output, a
      negative [batch] at the first row draw.
    - A zero-row matrix fails at the first row draw, if a bet is drawn at
      all ([iteration > 0] and [batch > 0]).
    - An empty enabled-column array fails at the first column draw, again if
      a bet is drawn at all, and then only after the rows of the first run
      were drawn: the generator is left [batch] draws past the seed. *)
Theorem monte_carlo_sum_argument_handling (G : Generator) (data : ndarray2)
    (cols : list nat) (g : rng_state G) :
  (forall batch : Z,
      monte_carlo_sum G data 0 batch cols g = (Ok [], rng_seed G 12345)) /\
  (forall iteration : Z,
      (0 <= iteration)%Z ->
      monte_carlo_sum G data iteration 0 cols g
      = (Ok (repeat 0%float (Z.to_nat iteration)), rng_seed G 12345)) /\
  (forall iteration batch : Z,
      (iteration < 0)%Z ->
      monte_carlo_sum G data iteration batch cols g
      = (Raise ValueError, rng_seed G 12345)) /\
  (forall iteration batch : Z,
      (0 < iteration)%Z -> (batch < 0)%Z ->
      monte_carlo_sum G data iteration batch cols g
      = (Raise ValueError, rng_seed G 12345)) /\
  (forall iteration batch : Z,
      (0 < iteration)%Z -> (0 < batch)%Z -> data = [] ->
      monte_carlo_sum G data iteration batch cols g
      = (Raise ValueError, rng_seed G 12345)) /\
  (forall iteration batch : Z,
      in_range G ->
      (0 < iteration)%Z -> (0 < batch)%Z -> data <> [] -> cols = [] ->
      monte_carlo_sum G data iteration batch cols g
      = (Raise ValueError,
         snd (raw_draws G (List.length data) (Z.to_nat batch) (rng_seed G 12345)))).
Proof.
  repeat split.
  - intros iteration HI. unfold monte_carlo_sum, bind, np_random_seed, np_empty.
    destruct (Z.ltb_spec iteration 0) as [Hneg | _]; [lia |]. unfold ret.
    pose proof (for_each_setitem G (monte_carlo_step G data 0 cols)
                  (fun s => (0%float, s)) (fun i acc s => eq_refl)
                  (Z.to_nat iteration) [] (repeat uninit (Z.to_nat iteration))
                  (rng_seed G 12345) (repeat_length _ _)) as Hloop.
    simpl in Hloop. etransitivity; [exact Hloop |].
    now rewrite unfold_runs_const.
  - intros iteration batch HI. unfold monte_carlo_sum, bind, np_random_seed, np_empty.
    destruct (Z.ltb_spec iteration 0) as [_ | Hpos]; [reflexivity | lia].
  - intros iteration batch HI HB.
    unfold monte_carlo_sum, bind, np_random_seed, np_empty.
    destruct (Z.ltb_spec iteration 0) as [Hneg | _]; [lia |]. unfold ret.
    destruct (Z.to_nat iteration) as [| n] eqn:En; [lia |].
    simpl. cbv [bind monte_carlo_step select_random_row np_random_choice_int].
    destruct (Z.ltb_spec batch 0) as [_ | Hpos]; [reflexivity | lia].
  - intros iteration batch HI HB ->.
    unfold monte_carlo_sum, bind, np_random_seed, np_empty.
    destruct (Z.ltb_spec iteration 0) as [Hneg | _]; [lia |]. unfold ret.
    destruct (Z.to_nat iteration) as [| n] eqn:En; [lia |].
    simpl. cbv [bind monte_carlo_step select_random_row np_random_choice_int shape0].
    destruct (Z.ltb_spec batch 0) as [Hneg | _]; [lia |].
    destruct (Z.to_nat batch) as [| k] eqn:Ek; [lia |].
    simpl List.length. rewrite draws_empty_range. reflexivity.
  - intros iteration batch Hrange HI HB Hdata ->.
    unfold monte_carlo_sum, bind, np_random_seed, np_empty.
    destruct (Z.ltb_spec iteration 0) as [Hneg | _]; [lia |]. unfold ret.
    destruct (Z.to_nat iteration) as [| n] eqn:En; [lia |].
    simpl. cbv [bind monte_carlo_step].
    rewrite (select_random_row_ok G Hrange data batch _ Hdata) by lia.
    pose proof (raw_draws_length G (List.length data) (Z.to_nat batch)
                  (rng_seed G 12345)) as Hlen.
    destruct (raw_draws G (List.length data) (Z.to_nat batch) (rng_seed G 12345))
      as [rs s1].
    simpl in Hlen. simpl fst. simpl snd.
    cbv [select_random_col np_random_choice_arr bind shape0].
    rewrite length_map, Hlen.
    destruct (Z.ltb_spec (Z.of_nat (Z.to_nat batch)) 0) as [Hneg | _]; [lia |].
    rewrite Nat2Z.id.
    destruct (Z.to_nat batch) as [| k] eqn:Ek; [lia |].
    simpl List.length. rewrite draws_empty_range. reflexivity.
Qed.

(** C5, as stated, fails: with a zero-row matrix, no iteration, no bet and
    no enabled column, the engine returns the empty array; with one
    iteration of no bet it returns one zero. Nothing is raised. *)
Lemma invalid_arguments_counterexample :
  monte_carlo_sum lcg [] 0 0 [] 7%Z = (Ok [], 12345%Z) /\
  monte_carlo_sum lcg [] 1 0 [] 7%Z = (Ok [0%float], 12345%Z) /\
  select_random_row lcg [] 0 7%Z = (Ok [], 7%Z) /\
  select_random_col lcg [] [] 7%Z = (Ok [], 7%Z).
Proof.
  repeat split.
Qed.

Lemma monte_carlo_sum_argument_handling_witness :
  ((0 <= 2)%Z /\
   monte_carlo_sum lcg [] 2 0 [] 7%Z = (Ok (repeat 0%float (Z.to_nat 2)), 12345%Z)) /\
  ((-1 < 0)%Z /\
   monte_carlo_sum lcg [] (-1) 5 [] 7%Z = (Raise ValueError, 12345%Z)) /\
  ((0 < 1)%Z /\ (-1 < 0)%Z /\
   monte_carlo_sum lcg [] 1 (-1) [] 7%Z = (Raise ValueError, 12345%Z)) /\
  ((0 < 1)%Z /\ (0 < 2)%Z /\ @nil (list float64) = [] /\
   monte_carlo_sum lcg [] 1 2 [] 7%Z = (Raise ValueError, 12345%Z)) /\
  (in_range lcg /\ (0 < 1)%Z /\ (0 < 2)%Z /\ scenario <> [] /\ @nil nat = [] /\
   monte_carlo_sum lcg scenario 1 2 [] 7%Z
   = (Raise ValueError,
      snd (raw_draws lcg (List.length scenario) (Z.to_nat 2) 12345%Z))).
Proof.
  assert (0 <= 2)%Z as H02 by lia.
  assert (-1 < 0)%Z as Hm1 by lia.
  assert (0 < 1)%Z as H1 by lia.
  assert (0 < 2)%Z as H2 by lia.
  assert (scenario <> []) as Hdata by discriminate.
  pose proof (monte_carlo_sum_argument_handling lcg [] [] 7%Z)
    as (_ & Hb & Hc & Hd & He & _).
  pose proof (monte_carlo_sum_argument_handling lcg scenario [] 7%Z)
    as (_ & _ & _ & _ & _ & Hf).
  split; [split; [exact H02 | exact (Hb 2%Z H02)] |].
  split; [split; [exact Hm1 | exact (Hc (-1)%Z 5%Z Hm1)] |].
  split; [split; [exact H1 | split; [exact Hm1 | exact (Hd 1%Z (-1)%Z H1 Hm1)]] |].
  split; [split; [exact H1 | split; [exact H2 | split;
            [reflexivity | exact (He 1%Z 2%Z H1 H2 eq_refl)]]] |].
  split; [exact lcg_in_range |]. split; [exact H1 |]. split; [exact H2 |].
  split; [exact Hdata |]. split; [reflexivity |].
  exact (Hf 1%Z 2%Z lcg_in_range H1 H2 Hdata eq_refl).
Defined.

(** ** The payout matrix *)

Lemma loc_assign_nth {A : Type} (cond : A -> bool) (value old : A -> float64)
    (df : list A) :
  forall (r : nat) (m : A),
    nth_error df r = Some m ->
    nth r (loc_assign (map cond df) (map value df) (map old df)) 0%float
    = if cond m then value m else old m.
Proof.
  induction df as [| m0 df IH]; intros [| r] m Hm; simpl in *; try discriminate.
  - injection Hm as ->. reflexivity.
  - apply IH, Hm.
Qed.

Lemma betwin_nth (stake_per_game : float64) (df_mc_set : list mc_row)
    (outcome : string) (r : nat) (m : mc_row) :
  nth_error df_mc_set r = Some m ->
  nth r (betwin stake_per_game df_mc_set outcome) 0%float
  = if String.eqb (winner_code_sofascore m) outcome
    then PrimFloat.mul stake_per_game (PrimFloat.sub (odds_column outcome m) 1%float)
    else PrimFloat.opp stake_per_game.
Proof.
  intros Hm. unfold betwin.
  apply (loc_assign_nth (fun m' => String.eqb (winner_code_sofascore m') outcome)
           (fun m' => PrimFloat.mul stake_per_game
                        (PrimFloat.sub (odds_column outcome m') 1%float))
           (fun _ => PrimFloat.opp stake_per_game) df_mc_set r m Hm).
Qed.

Lemma to_numpy_nth_error (n r : nat) (columns : list (list float64)) :
  (r < n)%nat ->
  nth_error (to_numpy n columns) r = Some (map (fun col => nth r col 0%float) columns).
Proof.
  intros Hr. unfold to_numpy.
  rewrite nth_error_map, nth_error_seq.
  destruct (Nat.ltb_spec r n) as [_ | Hge]; [reflexivity | lia].
Qed.

(** C8, as amended: [arr_mc] has one row per match and three columns, and
    the row of a match is, cell by cell, the winnings [stake * (odds - 1)] at
    the odds of outcome ["1"], ["X"], ["2"] where the winner code of the
    match is that outcome, and [-stake] elsewhere. In the row of a match
    whose winner code is one of the three outcomes, exactly one column, the
    one of that outcome, holds the win value and the other two hold
    [-stake]. The row of a match with any other winner code holds [-stake]
    in all three columns: no column of it is the column of the result. *)
Theorem arr_mc_one_win_per_row (stake_per_game : float64) (df_mc_set : list mc_row) :
  List.length (arr_mc stake_per_game df_mc_set) = List.length df_mc_set /\
  forall (r : nat) (m : mc_row),
    nth_error df_mc_set r = Some m ->
    nth_error (arr_mc stake_per_game df_mc_set) r
    = Some [ if String.eqb (winner_code_sofascore m) "1"
             then PrimFloat.mul stake_per_game (PrimFloat.sub (odds_1_closed m) 1%float)
             else PrimFloat.opp stake_per_game;
             if String.eqb (winner_code_sofascore m) "X"
             then PrimFloat.mul stake_per_game (PrimFloat.sub (odds_X_closed m) 1%float)
             else PrimFloat.opp stake_per_game;
             if String.eqb (winner_code_sofascore m) "2"
             then PrimFloat.mul stake_per_game (PrimFloat.sub (odds_2_closed m) 1%float)
             else PrimFloat.opp stake_per_game ] /\
    (In (winner_code_sofascore m) outcomes ->
     exists w : nat,
       (w < 3)%nat /\
       nth w outcomes ""%string = winner_code_sofascore m /\
       (forall w' : nat,
           (w' < 3)%nat -> nth w' outcomes ""%string = winner_code_sofascore m ->
           w' = w) /\
       nth_error (arr_mc stake_per_game df_mc_set) r
       = Some (map (fun k => if (k =? w)%nat
                             then win_value stake_per_game m k
                             else PrimFloat.opp stake_per_game)
                 [0; 1; 2]%nat)) /\
    (~ In (winner_code_sofascore m) outcomes ->
     nth_error (arr_mc stake_per_game df_mc_set) r
     = Some [PrimFloat.opp stake_per_game; PrimFloat.opp stake_per_game;
             PrimFloat.opp stake_per_game]).
Proof.
  split.
  - unfold arr_mc, to_numpy. now rewrite length_map, length_seq.
  - intros r m Hm.
    assert (r < List.length df_mc_set)%nat as Hr
      by (apply nth_error_Some; congruence).
    unfold arr_mc. rewrite (to_numpy_nth_error _ r _ Hr).
    unfold outcomes at 2. simpl map.
    rewrite !(betwin_nth stake_per_game df_mc_set _ r m Hm).
    split; [reflexivity |]. split.
    + intros Hwin. unfold win_value.
      destruct Hwin as [Hw | [Hw | [Hw | []]]]; rewrite <- Hw.
      * exists 0%nat. repeat split; try lia.
        intros [| [| [| w']]] Hlt Heq; simpl in Heq; try discriminate;
          [reflexivity | lia].
      * exists 1%nat. repeat split; try lia.
        intros [| [| [| w']]] Hlt Heq; simpl in Heq; try discriminate;
          [reflexivity | lia].
      * exists 2%nat. repeat split; try lia.
        intros [| [| [| w']]] Hlt Heq; simpl in Heq; try discriminate;
          [reflexivity | lia].
    + intros Hout.
      destruct (String.eqb_spec (winner_code_sofascore m) "1") as [E1 | _];
        [exfalso; apply Hout; rewrite E1; simpl; auto |].
      destruct (String.eqb_spec (winner_code_sofascore m) "X") as [EX | _];
        [exfalso; apply Hout; rewrite EX; simpl; auto |].
      destruct (String.eqb_spec (winner_code_sofascore m) "2") as [E2 | _];
        [exfalso; apply Hout; rewrite E2; simpl; auto |].
      reflexivity.
Qed.

Lemma arr_mc_one_win_per_row_witness :
  nth_error two_matches 0 = Some (nth 0 two_matches
    {| winner_code_sofascore := ""; odds_1_closed := 0%float;
       odds_X_closed := 0%float; odds_2_closed := 0%float |}) /\
  In "1"%string outcomes /\
  nth_error (arr_mc 10%float two_matches) 0
  = Some [PrimFloat.mul 10 (PrimFloat.sub 2.35 1); (-10)%float; (-10)%float] /\
  nth_error (arr_mc 10%float two_matches) 0
  = Some (map (fun k => if (k =? 0)%nat
                        then win_value 10%float (nth 0 two_matches
                               {| winner_code_sofascore := ""; odds_1_closed := 0%float;
                                  odds_X_closed := 0%float; odds_2_closed := 0%float |}) k
                        else (-10)%float)
            [0; 1; 2]%nat).
Proof.
  assert (In "1"%string outcomes) as Hin by (simpl; auto).
  split; [reflexivity |]. split; [exact Hin |].
  destruct (proj2 (arr_mc_one_win_per_row 10%float two_matches) 0%nat _ eq_refl)
    as (Hcells & Hone & _).
  split; [exact Hcells |].
  destruct (Hone Hin) as (w & Hw & Hout & Huniq & Hrow).
  rewrite Hrow.
  assert (w = 0%nat) as -> by (symmetry; apply Huniq; [lia | reflexivity]).
  reflexivity.
Defined.

Lemma abandoned_match_counterexample :
  exists m : mc_row,
    abandoned_match = [m] /\
    ~ In (winner_code_sofascore m) outcomes /\
    arr_mc 10%float abandoned_match = [[-10; -10; -10]]%float /\
    win_value 10%float m 0 <> (-10)%float /\
    win_value 10%float m 1 <> (-10)%float /\
    win_value 10%float m 2 <> (-10)%float.
Proof.
  eexists. split; [reflexivity |].
  split; [simpl; intros [H | [H | [H | []]]]; discriminate H |].
  split; [vm_compute; reflexivity |].
  repeat split; intros H; apply (f_equal Prim2SF) in H; vm_compute in H;
    discriminate H.
Qed.

(** ** Percentiles in exact arithmetic *)

Lemma sort_sorted (l : list Q) : StronglySorted Qle (QSort.sort l).
Proof.
  assert (StronglySorted (fun x y => is_true (QOrder.leb x y)) (QSort.sort l)) as H.
  { apply QSort.StronglySorted_sort.
    intros x y z Hxy Hyz. unfold is_true, QOrder.leb in *.
    rewrite Qle_bool_iff in *. eapply Qle_trans; eassumption. }
  induction H as [| x s _ IH Hx]; constructor; [exact IH |].
  eapply Forall_impl; [| exact Hx].
  intros y Hy. unfold is_true, QOrder.leb in Hy. now apply Qle_bool_iff.
Qed.

Lemma sort_length (l : list Q) : List.length (QSort.sort l) = List.length l.
Proof.
  symmetry. apply Permutation_length, QSort.Permuted_sort.
Qed.

Lemma sorted_nth_le (s : list Q) :
  StronglySorted Qle s ->
  forall i j, (i <= j)%nat -> (j < List.length s)%nat -> nth i s 0 <= nth j s 0.
Proof.
  induction 1 as [| x s _ IH Hx]; intros i j Hij Hj; simpl in Hj; [lia |].
  destruct i as [| i], j as [| j]; simpl; try lia.
  - apply Qle_refl.
  - rewrite Forall_forall in Hx. apply Hx, nth_In. lia.
  - apply IH; lia.
Qed.

Lemma lerp_bounds (a b t : Q) :
  a <= b -> 0 <= t -> t <= 1 -> a <= lerp a b t /\ lerp a b t <= b.
Proof.
  unfold lerp. intros Hab Ht0 Ht1. split; nra.
Qed.

Lemma lerp_monotone (a b t1 t2 : Q) :
  a <= b -> t1 <= t2 -> lerp a b t1 <= lerp a b t2.
Proof.
  unfold lerp. intros Hab Ht. nra.
Qed.

(** The position below a non-negative virtual index, and the fraction
    left over. *)
Lemma floor_split (h : Q) :
  0 <= h ->
  inject_Z (Z.of_nat (Z.to_nat (Qfloor h))) <= h /\
  h < inject_Z (Z.of_nat (Z.to_nat (Qfloor h))) + 1.
Proof.
  intros Hh.
  assert (0 <= Qfloor h)%Z as Hk.
  { change 0%Z with (Qfloor 0). apply Qfloor_resp_le, Hh. }
  rewrite Z2Nat.id by exact Hk.
  split; [apply Qfloor_le |].
  pose proof (Qlt_floor h) as Hlt. rewrite inject_Z_plus in Hlt. exact Hlt.
Qed.

Lemma floor_monotone (h1 h2 : Q) :
  h1 <= h2 -> (Z.to_nat (Qfloor h1) <= Z.to_nat (Qfloor h2))%nat.
Proof.
  intros H. pose proof (Qfloor_resp_le h1 h2 H). lia.
Qed.

Lemma virtual_index_bounds (n : nat) (p1 p2 : Q) :
  (0 < n)%nat -> 0 <= p1 -> p1 <= p2 ->
  0 <= inject_Z (Z.of_nat n - 1) * (p1 / 100) /\
  inject_Z (Z.of_nat n - 1) * (p1 / 100) <= inject_Z (Z.of_nat n - 1) * (p2 / 100).
Proof.
  intros Hn Hp1 Hp.
  assert (0 <= inject_Z (Z.of_nat n - 1)) as Hc.
  { change 0 with (inject_Z 0). rewrite <- Zle_Qle. lia. }
  set (c := inject_Z (Z.of_nat n - 1)) in *.
  assert (0 <= p1 / 100) as H1 by (apply Qle_shift_div_l; [reflexivity | lra]).
  assert (p1 / 100 <= p2 / 100) as H2.
  { apply Qle_shift_div_l; [reflexivity |].
    unfold Qdiv. rewrite <- Qmult_assoc, (Qmult_comm (/ 100)), Qmult_inv_r by discriminate.
    lra. }
  split; nra.
Qed.

Lemma linear_quantile_monotone (s : list Q) (p1 p2 : Q) :
  StronglySorted Qle s -> s <> [] ->
  0 <= p1 -> p1 <= p2 ->
  linear_quantile s p1 <= linear_quantile s p2.
Proof.
  intros Hs Hne Hp1 Hp.
  pose proof (nonempty_length s Hne) as Hn.
  destruct (virtual_index_bounds (List.length s) p1 p2 Hn Hp1 Hp) as [Hh1 Hh].
  unfold linear_quantile.
  set (h1 := inject_Z (Z.of_nat (List.length s) - 1) * (p1 / 100)) in *.
  set (h2 := inject_Z (Z.of_nat (List.length s) - 1) * (p2 / 100)) in *.
  assert (0 <= h2) as Hh2 by (eapply Qle_trans; eassumption).
  destruct (floor_split h1 Hh1) as [Hlo1 Hhi1].
  destruct (floor_split h2 Hh2) as [Hlo2 Hhi2].
  pose proof (floor_monotone h1 h2 Hh) as Hk.
  set (k1 := Z.to_nat (Qfloor h1)) in *.
  set (k2 := Z.to_nat (Qfloor h2)) in *.
  destruct (Nat.leb_spec (List.length s - 1) k1) as [Hc1 | Hc1];
    destruct (Nat.leb_spec (List.length s - 1) k2) as [Hc2 | Hc2].
  - apply Qle_refl.
  - lia.
  - assert (nth k1 s 0 <= nth (S k1) s 0) as Hab by (apply sorted_nth_le; [exact Hs | lia | lia]).
    destruct (lerp_bounds (nth k1 s 0) (nth (S k1) s 0) (h1 - inject_Z (Z.of_nat k1)) Hab)
      as [_ Hup]; [lra | lra |].
    eapply Qle_trans; [exact Hup |]. apply sorted_nth_le; [exact Hs | lia | lia].
  - assert (nth k1 s 0 <= nth (S k1) s 0) as Hab1 by (apply sorted_nth_le; [exact Hs | lia | lia]).
    assert (nth k2 s 0 <= nth (S k2) s 0) as Hab2 by (apply sorted_nth_le; [exact Hs | lia | lia]).
    destruct (Nat.eq_dec k1 k2) as [Heq | Hneq].
    + rewrite <- Heq in *. apply lerp_monotone; [exact Hab1 | lra].
    + destruct (lerp_bounds (nth k1 s 0) (nth (S k1) s 0) (h1 - inject_Z (Z.of_nat k1)) Hab1)
        as [_ Hup]; [lra | lra |].
      destruct (lerp_bounds (nth k2 s 0) (nth (S k2) s 0) (h2 - inject_Z (Z.of_nat k2)) Hab2)
        as [Hdown _]; [lra | lra |].
      eapply Qle_trans; [exact Hup |]. eapply Qle_trans; [| exact Hdown].
      apply sorted_nth_le; [exact Hs | lia | lia].
Qed.

Lemma percentile_1d_monotone (xs : list Q) (p1 p2 : Q) :
  xs <> [] -> 0 <= p1 -> p1 <= p2 ->
  exists v1 v2 : Q,
    percentile_1d xs p1 = Some v1 /\ percentile_1d xs p2 = Some v2 /\ v1 <= v2.
Proof.
  intros Hne Hp1 Hp. destruct xs as [| x xs]; [congruence |].
  unfold percentile_1d. eexists _, _. split; [reflexivity |]. split; [reflexivity |].
  apply linear_quantile_monotone; try assumption.
  - apply sort_sorted.
  - intros Hnil. apply (f_equal (@List.length Q)) in Hnil.
    rewrite sort_length in Hnil. discriminate Hnil.
Qed.

Lemma column_nonempty (t : nat) (a : list (list Q)) : a <> [] -> column t a <> [].
Proof.
  destruct a; [congruence | discriminate].
Qed.


Lemma np_percentile_entry (a : list (list Q)) (q : list Q)
    (out : list (list (option Q))) (i t : nat) :
  np_percentile a q = Ok out ->
  (i < List.length q)%nat -> (t < width a)%nat ->
  nth t (nth i out []) None = percentile_1d (column t a) (nth i q 0) /\
  0 <= nth i q 0 /\ nth i q 0 <= 100.
Proof.
  unfold np_percentile. intros Hout Hi Ht.
  destruct (forallb valid_percentile q) eqn:Hvalid; [| discriminate].
  destruct a as [| row rest] eqn:Ea; [discriminate |]. rewrite <- Ea in *.
  injection Hout as <-.
  rewrite (nth_map_in _ q i _ 0) by exact Hi.
  rewrite (nth_map_in _ (seq 0 (width a)) t _ O) by (now rewrite length_seq).
  rewrite seq_nth by exact Ht. split; [reflexivity |].
  rewrite forallb_forall in Hvalid.
  specialize (Hvalid (nth i q 0) (nth_In _ _ Hi)).
  unfold valid_percentile in Hvalid. apply andb_prop in Hvalid.
  now rewrite !Qle_bool_iff in Hvalid.
Qed.

(** The reference property of the method: in exact arithmetic, at every
    time step of a matrix with at least one run, the percentile values of
    the [linear] method are non-decreasing in the percentile rank. The
    binary64 computation of [np.percentile] does not inherit it: see the
    overflow of the interpolation below. *)
Lemma exact_quantiles_monotone_in_rank (timeseries_arr : list (list Q)) :
  timeseries_arr <> [] ->
  forall (q : list Q) (out : list (list (option Q))) (i j t : nat),
    np_percentile timeseries_arr q = Ok out ->
    (i < List.length q)%nat -> (j < List.length q)%nat ->
    (t < width timeseries_arr)%nat ->
    nth i q 0 <= nth j q 0 ->
    exists v1 v2 : Q,
      nth t (nth i out []) None = Some v1 /\
      nth t (nth j out []) None = Some v2 /\
      v1 <= v2.
Proof.
  intros Hne q out i j t Hout Hi Hj Ht Hle.
  destruct (np_percentile_entry _ _ _ i t Hout Hi Ht) as (-> & Hi0 & _).
  destruct (np_percentile_entry _ _ _ j t Hout Hj Ht) as (-> & _ & _).
  apply percentile_1d_monotone; [apply column_nonempty, Hne | exact Hi0 | exact Hle].
Qed.

(** ** Percentiles in binary64 *)

Open Scope float_scope.

(** *** The binary64 value of an integer *)

Lemma digits2_pos_bounds (m : positive) :
  (2 ^ (Zpos (digits2_pos m) - 1) <= Zpos m < 2 ^ Zpos (digits2_pos m))%Z.
Proof.
  induction m as [m IH | m IH |]; cbn [digits2_pos].
  - rewrite Pos2Z.inj_succ.
    replace (Z.succ (Zpos (digits2_pos m)) - 1)%Z with (Z.succ (Zpos (digits2_pos m) - 1))%Z by lia.
    rewrite !Z.pow_succ_r by lia. lia.
  - rewrite Pos2Z.inj_succ.
    replace (Z.succ (Zpos (digits2_pos m)) - 1)%Z with (Z.succ (Zpos (digits2_pos m) - 1))%Z by lia.
    rewrite !Z.pow_succ_r by lia. lia.
  - simpl. lia.
Qed.

Lemma digits2_pos_iter (m k : positive) :
  digits2_pos (Pos.iter xO m k) = (digits2_pos m + k)%positive.
Proof.
  induction k as [| k IH] using Pos.peano_ind.
  - simpl. lia.
  - rewrite Pos.iter_succ. cbn [digits2_pos]. rewrite IH. lia.
Qed.

Lemma iter_xO_value (m k : positive) :
  Zpos (Pos.iter xO m k) = (Zpos m * 2 ^ Zpos k)%Z.
Proof.
  induction k as [| k IH] using Pos.peano_ind.
  - simpl. lia.
  - rewrite Pos.iter_succ, Pos2Z.inj_xO, IH, Pos2Z.inj_succ, Z.pow_succ_r by lia. lia.
Qed.

Lemma binary_round_aux_canonical (s : bool) (m : positive) (e : Z) :
  Zpos (digits2_pos m) = 53%Z -> (-1074 <= e <= 971)%Z ->
  binary_round_aux prec emax s (Zpos m) e loc_Exact = S754_finite s m e.
Proof.
  intros Hdig He.
  assert (fexp prec emax (53 + e) - e = 0)%Z as Hshift
    by (unfold fexp, emin, prec, emax; lia).
  unfold binary_round_aux, shr_fexp. cbn [Zdigits2]. rewrite Hdig, Hshift.
  cbn [shr shr_record_of_loc shr_m loc_of_shr_record round_nearest_even Zdigits2].
  rewrite Hdig, Hshift. cbn [shr shr_m].
  destruct (Z.leb_spec e (emax - prec)) as [_ | H];
    [reflexivity | unfold emax, prec in H; lia].
Qed.

(** The binary64 value of a positive integer below 2^53 is that integer. *)
Lemma binary_normalize_int (N : positive) :
  (Zpos N < 2 ^ 53)%Z ->
  exists (mz : positive) (ez : Z),
    binary_normalize prec emax (Zpos N) 0 false = S754_finite false mz ez /\
    valid_binary (S754_finite false mz ez) = true /\
    (-52 <= ez <= 0)%Z /\
    (2 ^ 52 <= Zpos mz < 2 ^ 53)%Z /\
    (Zpos mz = Zpos N * 2 ^ (- ez))%Z.
Proof.
  intros HN.
  pose proof (digits2_pos_bounds N) as Hd.
  assert (Zpos (digits2_pos N) <= 53)%Z as Hd53.
  { destruct (Z.le_gt_cases (Zpos (digits2_pos N)) 53) as [H | H]; [exact H | exfalso].
    assert (2 ^ 53 <= 2 ^ (Zpos (digits2_pos N) - 1))%Z by (apply Z.pow_le_mono_r; lia).
    lia. }
  assert (exists (mz : positive) (ez : Z),
             shl_align N 0 (fexp prec emax (Zpos (digits2_pos N) + 0)) = (mz, ez) /\
             Zpos (digits2_pos mz) = 53%Z /\ (-52 <= ez <= 0)%Z /\
             (Zpos mz = Zpos N * 2 ^ (- ez))%Z) as (mz & ez & Halign & Hdig & Hez & Hval).
  { assert (fexp prec emax (Zpos (digits2_pos N) + 0) = Zpos (digits2_pos N) - 53)%Z as ->
      by (unfold fexp, emin, prec, emax; lia).
    unfold shl_align.
    destruct (Zpos (digits2_pos N) - 53 - 0)%Z as [| p | p] eqn:Ediff; try lia.
    - exists N, 0%Z. split; [reflexivity |]. split; [lia |]. split; [lia |]. simpl. lia.
    - exists (Pos.iter xO N p), (Zpos (digits2_pos N) - 53)%Z.
      split; [reflexivity |].
      split; [rewrite digits2_pos_iter; lia |]. split; [lia |].
      rewrite iter_xO_value. f_equal. f_equal. lia. }
  exists mz, ez. unfold binary_normalize, binary_round. rewrite Halign.
  rewrite (binary_round_aux_canonical false mz ez Hdig) by lia.
  split; [reflexivity |].
  split.
  { unfold FloatAxioms.valid_binary, SpecFloat.valid_binary, bounded, canonical_mantissa.
    rewrite Hdig. apply andb_true_intro. split.
    - apply Z.eqb_eq. unfold fexp, emin, prec, emax. lia.
    - apply Z.leb_le. unfold emax, prec. lia. }
  split; [exact Hez |]. split; [| exact Hval].
  pose proof (digits2_pos_bounds mz) as Hb. rewrite Hdig in Hb. simpl in Hb |- *. lia.
Qed.

Lemma int_to_f64_zero : Prim2SF (int_to_f64 0) = S754_zero false.
Proof. reflexivity. Qed.

Lemma int_to_f64_pos (N : Z) :
  (0 < N < 2 ^ 53)%Z ->
  exists (mz : positive) (ez : Z),
    Prim2SF (int_to_f64 N) = S754_finite false mz ez /\
    (-52 <= ez <= 0)%Z /\
    (2 ^ 52 <= Zpos mz < 2 ^ 53)%Z /\
    (Zpos mz = N * 2 ^ (- ez))%Z.
Proof.
  intros HN. destruct N as [| N | N]; try lia.
  destruct (binary_normalize_int N (proj2 HN)) as (mz & ez & Hnorm & Hvalid & Hez & Hmz & Hval).
  exists mz, ez. unfold int_to_f64. rewrite Hnorm.
  rewrite (Prim2SF_SF2Prim _ Hvalid). repeat split; lia.
Qed.

(** Below the binary64 value of an integer [N], the integer part of a
    non-negative binary64 value is below [N]. *)
Lemma floor_below (N : Z) (h : float64) :
  (0 <= N < 2 ^ 53)%Z ->
  (h <? int_to_f64 N) = true -> (h <? 0) = false ->
  (0 <= floor_to_int h < N)%Z.
Proof.
  intros HN Hlt Hpos. rewrite ltb_spec in Hlt, Hpos.
  change (Prim2SF 0) with (S754_zero false) in Hpos.
  destruct (Z.eq_dec N 0) as [-> | HN0].
  { rewrite int_to_f64_zero in Hlt. congruence. }
  destruct (int_to_f64_pos N ltac:(lia)) as (mz & ez & HF & Hez & Hmz & Hval).
  rewrite HF in Hlt. unfold floor_to_int.
  pose proof (Prim2SF_valid h) as Hvalid.
  destruct (Prim2SF h) as [s | s | | s m e]; try (simpl; lia).
  destruct s; [discriminate Hpos |].
  unfold FloatAxioms.valid_binary, SpecFloat.valid_binary, bounded, canonical_mantissa
    in Hvalid.
  apply andb_prop in Hvalid. destruct Hvalid as [Hcanon _].
  apply Z.eqb_eq in Hcanon. unfold fexp, emin, prec, emax in Hcanon.
  pose proof (digits2_pos_bounds m) as Hd.
  assert (Zpos m < 2 ^ 53)%Z as Hm.
  { eapply Z.lt_le_trans; [apply Hd |]. apply Z.pow_le_mono_r; lia. }
  unfold SFltb, SFcompare in Hlt. cbn [cond_Zopp].
  assert (e <= ez)%Z as Hle.
  { destruct (Z.compare_spec e ez) as [E | E | E]; [lia | lia | discriminate Hlt]. }
  assert (Zpos m < N * 2 ^ (- e))%Z as Hbound.
  { destruct (Z.eq_dec e ez) as [-> | Hne].
    - rewrite Z.compare_refl in Hlt. fold (Pos.compare m mz) in Hlt.
      destruct (Pos.compare_spec m mz) as [E | E | E]; try discriminate Hlt. lia.
    - replace (- e)%Z with ((- ez) + (ez - e))%Z by lia.
      rewrite Z.pow_add_r by lia. rewrite Z.mul_assoc, <- Hval.
      assert (2 ^ 1 <= 2 ^ (ez - e))%Z by (apply Z.pow_le_mono_r; lia).
      nia. }
  rewrite Z.shiftl_div_pow2 by lia. split.
  + apply Z.div_pos; [lia | apply Z.pow_pos_nonneg; lia].
  + apply Z.div_lt_upper_bound; [apply Z.pow_pos_nonneg; lia | lia].
Qed.

Lemma binary_round_aux_sign (s : bool) (mx ex : Z) (lx : location) :
  binary_round_aux prec emax s mx ex lx = S754_zero s \/
  binary_round_aux prec emax s mx ex lx = S754_infinity s \/
  binary_round_aux prec emax s mx ex lx = S754_nan \/
  exists (m : positive) (e : Z),
    binary_round_aux prec emax s mx ex lx = S754_finite s m e.
Proof.
  unfold binary_round_aux.
  destruct (shr_fexp prec emax mx ex lx) as [mrs' e'].
  destruct (shr_fexp prec emax _ e' loc_Exact) as [mrs'' e''].
  destruct (shr_m mrs'') as [| m | m].
  - left. reflexivity.
  - destruct (e'' <=? emax - prec)%Z.
    + right; right; right. exists m, e''. reflexivity.
    + right; left. reflexivity.
  - right; right; left. reflexivity.
Qed.

(** A valid quantile is a zero or a positive finite value. *)
Lemma quantile_is_valid_inv (q : float64) :
  quantile_is_valid q = true ->
  (exists s, Prim2SF q = S754_zero s) \/
  (exists m e, Prim2SF q = S754_finite false m e).
Proof.
  unfold quantile_is_valid. intros H. apply andb_prop in H. destruct H as [H0 H1].
  rewrite leb_spec in H0, H1.
  change (Prim2SF 0) with (S754_zero false) in H0.
  change (Prim2SF 1) with (S754_finite false 4503599627370496 (-52)) in H1.
  destruct (Prim2SF q) as [s | s | | s m e]; eauto.
  - destruct s; discriminate.
  - discriminate.
  - destruct s; [discriminate H0 | eauto].
Qed.

Lemma int_to_f64_cases (N : Z) :
  (0 <= N < 2 ^ 53)%Z ->
  Prim2SF (int_to_f64 N) = S754_zero false \/
  exists m e, Prim2SF (int_to_f64 N) = S754_finite false m e.
Proof.
  intros HN. destruct (Z.eq_dec N 0) as [-> | HN0]; [left; reflexivity | right].
  destruct (int_to_f64_pos N ltac:(lia)) as (mz & ez & HF & _). eauto.
Qed.

(** The virtual index of a valid quantile is never negative. *)
Lemma virtual_index_not_below (n : Z) (q : float64) :
  (1 <= n <= 2 ^ 53)%Z -> quantile_is_valid q = true ->
  (get_virtual_index n q <? 0) = false.
Proof.
  intros Hn Hq. unfold get_virtual_index. rewrite ltb_spec, mul_spec.
  change (Prim2SF 0) with (S754_zero false).
  destruct (int_to_f64_cases (n - 1) ltac:(lia)) as [-> | (m1 & e1 & ->)];
    destruct (quantile_is_valid_inv q Hq) as [(s & ->) | (m2 & e2 & ->)];
    try reflexivity.
  unfold SF64mul, SFmul. cbn [xorb].
  destruct (binary_round_aux_sign false (Zpos (m1 * m2)) (e1 + e2) loc_Exact)
    as [-> | [-> | [-> | (m & e & ->)]]]; reflexivity.
Qed.

Lemma SFcompare_lt_or_ge (x y : spec_float) :
  x <> S754_nan -> y <> S754_nan ->
  (SFltb x y = true /\ SFleb y x = false) \/ (SFltb x y = false /\ SFleb y x = true).
Proof.
  intros Hx Hy. unfold SFltb, SFleb, SFcompare.
  destruct x as [[|] | [|] | | [|] m1 e1], y as [[|] | [|] | | [|] m2 e2];
    try congruence; auto;
    rewrite (Z.compare_antisym e1 e2); destruct (e1 ?= e2)%Z eqn:E; simpl; auto;
    fold (Pos.compare m1 m2); fold (Pos.compare m2 m1);
    rewrite (Pos.compare_antisym m1 m2);
    destruct (Pos.compare m1 m2); simpl; auto.
Qed.

(** With a virtual index that is not negative, the two positions are those
    around it when it lies below the last position, and the last position,
    counted from the end, otherwise. *)
Lemma get_indexes_spec (h : float64) (n : Z) :
  (1 <= n <= 2 ^ 53)%Z -> (h <? 0) = false ->
  get_indexes h n
  = if h <? int_to_f64 (n - 1)
    then (floor_to_int h, (floor_to_int h + 1)%Z) else ((-1)%Z, (-1)%Z).
Proof.
  intros Hn Hpos. unfold get_indexes. rewrite Hpos.
  rewrite leb_spec, (ltb_spec h). unfold np_isnan.
  assert (Prim2SF (int_to_f64 (n - 1)) <> S754_nan) as HF
    by (destruct (int_to_f64_cases (n - 1) ltac:(lia)) as [-> | (m & e & ->)];
        discriminate).
  destruct (Prim2SF h) as [s | s | | s m e] eqn:Eh.
  4: destruct (SFcompare_lt_or_ge (S754_finite s m e) _ ltac:(discriminate) HF)
       as [[-> ->] | [-> ->]]; reflexivity.
  1: destruct (SFcompare_lt_or_ge (S754_zero s) _ ltac:(discriminate) HF)
       as [[-> ->] | [-> ->]]; reflexivity.
  1: destruct (SFcompare_lt_or_ge (S754_infinity s) _ ltac:(discriminate) HF)
       as [[-> ->] | [-> ->]]; reflexivity.
  destruct (SFleb _ S754_nan); reflexivity.
Qed.

Lemma take_f64_ok (arr : list float64) (j : Z) :
  (0 <= j < Z.of_nat (List.length arr))%Z ->
  exists x, take_f64 arr j = Ok x /\ nth_error arr (Z.to_nat j) = Some x.
Proof.
  intros Hj. unfold take_f64.
  destruct (Z.ltb_spec j 0) as [H | _]; [lia |].
  destruct (Z.ltb_spec j 0) as [H | _]; [lia |].
  destruct (Z.leb_spec (Z.of_nat (List.length arr)) j) as [H | _]; [lia |]. simpl orb.
  destruct (nth_error arr (Z.to_nat j)) as [x |] eqn:E.
  - exists x. split; reflexivity.
  - apply nth_error_None in E. lia.
Qed.

Lemma take_f64_last (arr : list float64) :
  arr <> [] ->
  exists x, take_f64 arr (-1) = Ok x /\ nth_error arr (List.length arr - 1) = Some x.
Proof.
  intros Hne.
  assert (0 < List.length arr)%nat as Hlen by (destruct arr; simpl; [congruence | lia]).
  unfold take_f64. cbv zeta. change (-1 <? 0)%Z with true. cbv iota.
  destruct (Z.ltb_spec (Z.of_nat (List.length arr) + -1) 0) as [H | _]; [lia |].
  destruct (Z.leb_spec (Z.of_nat (List.length arr)) (Z.of_nat (List.length arr) + -1)) as [H | _];
    [lia |]. simpl orb. cbv iota.
  replace (Z.to_nat (Z.of_nat (List.length arr) + -1)) with (List.length arr - 1)%nat by lia.
  destruct (nth_error arr (List.length arr - 1)) as [x |] eqn:E.
  - exists x. split; reflexivity.
  - apply nth_error_None in E. lia.
Qed.

Lemma np_isnan_true (x : float64) : np_isnan x = true -> x = nan.
Proof.
  unfold np_isnan. intros H. apply Prim2SF_inj.
  destruct (Prim2SF x); try discriminate H. reflexivity.
Qed.

(** *** One column *)

Lemma sorted_nan_last (s : list float64) :
  Sorted (fun x y => is_true (F64Order.leb x y)) s ->
  Exists (fun x => np_isnan x = true) s ->
  forall d, np_isnan (last s d) = true.
Proof.
  induction 1 as [| x s Hs IH Hhd]; intros Hex d; [inversion Hex |].
  destruct s as [| y s]; [inversion Hex as [? ? Hx | ? ? Hrest]; subst;
                          [exact Hx | inversion Hrest] |].
  change (last (x :: y :: s) d) with (last (y :: s) d).
  apply IH. inversion Hex as [? ? Hx | ? ? Hrest]; subst; [| exact Hrest].
  apply Exists_cons_hd. inversion Hhd as [| ? ? Hxy]; subst.
  unfold is_true, F64Order.leb, nan_last_leb in Hxy.
  apply orb_prop in Hxy. destruct Hxy as [Hy | Hle]; [exact Hy |].
  rewrite leb_spec in Hle. unfold np_isnan in Hx.
  destruct (Prim2SF x); try discriminate Hx. discriminate Hle.
Qed.

Lemma sorted_without_nan (s : list float64) :
  Sorted (fun x y => is_true (F64Order.leb x y)) s ->
  Forall (fun x => np_isnan x = false) s ->
  Sorted (fun x y => (x <=? y) = true) s.
Proof.
  induction 1 as [| x s Hs IH Hhd]; intros Hall; constructor.
  - apply IH. now inversion Hall.
  - inversion Hhd as [| y s' Hxy]; subst; constructor.
    inversion Hall as [| ? ? _ Hrest]; subst. inversion Hrest as [| ? ? Hy _]; subst.
    unfold is_true, F64Order.leb, nan_last_leb in Hxy. rewrite Hy in Hxy. exact Hxy.
Qed.

Lemma nth_error_last {A : Type} (l : list A) (x d : A) :
  nth_error l (List.length l - 1) = Some x -> last l d = x.
Proof.
  induction l as [| y l IH]; intros H; [discriminate H |].
  destruct l as [| z l]; [simpl in *; congruence |].
  change (last (y :: z :: l) d) with (last (z :: l) d). apply IH.
  simpl in H |- *. rewrite Nat.sub_0_r in *. exact H.
Qed.

Lemma quantile_1d_spec (xs : list float64) (q : float64) :
  xs <> [] -> (Z.of_nat (List.length xs) <= 2 ^ 53)%Z -> quantile_is_valid q = true ->
  exists v : float64,
    quantile_1d xs q = Ok v /\
    (Forall (fun x => np_isnan x = false) xs -> linear_interpolation_f64 xs q v) /\
    (Exists (fun x => np_isnan x = true) xs -> v = nan).
Proof.
  intros Hne Hlen Hq.
  assert (0 < List.length xs)%nat as Hpos by (destruct xs; simpl; [congruence | lia]).
  pose proof (F64Sort.Permuted_sort xs) as Hperm.
  pose proof (F64Sort.Sorted_sort xs) as Hsorted.
  pose proof (Permutation_length Hperm) as Hsl.
  assert (F64Sort.sort xs <> []) as Hsne
    by (intros Hnil; rewrite Hnil in Hsl; simpl in Hsl; lia).
  unfold quantile_1d.
  pose proof (virtual_index_not_below (Z.of_nat (List.length xs)) q ltac:(lia) Hq) as Hnb.
  rewrite (get_indexes_spec _ (Z.of_nat (List.length xs)) ltac:(lia) Hnb).
  destruct (take_f64_last (F64Sort.sort xs) Hsne) as (last_value & -> & Hlast).
  rewrite <- Hsl in Hlast.
  assert (Exists (fun x => np_isnan x = true) xs -> np_isnan last_value = true) as Hnan.
  { intros Hex. rewrite <- (nth_error_last (F64Sort.sort xs) last_value nan).
    - apply sorted_nan_last; [exact Hsorted |].
      apply Exists_exists in Hex. destruct Hex as (x & Hin & Hx).
      apply Exists_exists. exists x. split; [| exact Hx].
      eapply Permutation_in; eassumption.
    - rewrite <- Hsl. exact Hlast. }
  assert (Forall (fun x => np_isnan x = false) xs -> np_isnan last_value = false) as Hfin.
  { intros Hall. rewrite Forall_forall in Hall. apply Hall.
    eapply Permutation_in; [apply Permutation_sym, Hperm |].
    eapply nth_error_In, Hlast. }
  unfold linear_interpolation_f64. fold (get_virtual_index (Z.of_nat (List.length xs)) q).
  set (h := get_virtual_index (Z.of_nat (List.length xs)) q) in *.
  destruct (h <? int_to_f64 (Z.of_nat (List.length xs) - 1)) eqn:Etop.
  - pose proof (floor_below (Z.of_nat (List.length xs) - 1) h ltac:(lia) Etop Hnb) as Hk.
    destruct (take_f64_ok (F64Sort.sort xs) (floor_to_int h) ltac:(lia))
      as (previous & -> & Hprev).
    destruct (take_f64_ok (F64Sort.sort xs) (floor_to_int h + 1) ltac:(lia))
      as (next & -> & Hnext).
    destruct (np_isnan last_value) eqn:Elast.
    + exists last_value. split; [reflexivity |]. split.
      * intros Hall. discriminate (Hfin Hall).
      * intros _. now apply np_isnan_true.
    + eexists. split; [reflexivity |]. split.
      * intros Hall. exists (F64Sort.sort xs).
        split; [exact Hperm |].
        split; [apply sorted_without_nan; [exact Hsorted |];
                eapply Permutation_Forall; eassumption |].
        cbv zeta.
        exists (Z.to_nat (floor_to_int h)), previous, next.
        split; [lia |]. split; [exact Hprev |].
        split; [replace (S (Z.to_nat (floor_to_int h)))
                  with (Z.to_nat (floor_to_int h + 1)) by lia; exact Hnext |].
        rewrite Z2Nat.id by lia. reflexivity.
      * intros Hex. discriminate (Hnan Hex).
  - destruct (take_f64_last (F64Sort.sort xs) Hsne) as (l2 & -> & Hl2).
    rewrite <- Hsl in Hl2. rewrite Hlast in Hl2. injection Hl2 as <-.
    destruct (np_isnan last_value) eqn:Elast.
    + exists last_value. split; [reflexivity |]. split.
      * intros Hall. discriminate (Hfin Hall).
      * intros _. now apply np_isnan_true.
    + eexists. split; [reflexivity |]. split.
      * intros Hall. exists (F64Sort.sort xs).
        split; [exact Hperm |].
        split; [apply sorted_without_nan; [exact Hsorted |];
                eapply Permutation_Forall; eassumption |].
        cbv zeta.
        exists last_value. split; [exact Hlast | reflexivity].
      * intros Hex. discriminate (Hnan Hex).
Qed.

Lemma all_ok_map {A B : Type} (f : A -> outcome B) (l : list A) :
  (forall x, In x l -> exists v, f x = Ok v) ->
  exists out : list B,
    all_ok (map f l) = Ok out /\ List.length out = List.length l /\
    forall i d d', (i < List.length l)%nat -> f (nth i l d) = Ok (nth i out d').
Proof.
  induction l as [| x l IH]; intros Hall.
  - exists []. repeat split. intros i d d' Hi. simpl in Hi. lia.
  - destruct (Hall x (or_introl eq_refl)) as (v & Hv).
    destruct (IH (fun y Hy => Hall y (or_intror Hy))) as (out & Hout & Hlen & Hnth).
    exists (v :: out). cbn [map all_ok]. rewrite Hv, Hout.
    split; [reflexivity |]. split; [simpl; now rewrite Hlen |].
    intros [| i] d d' Hi; [exact Hv |]. simpl in Hi. apply Hnth. lia.
Qed.

Lemma column_f64_length (t : nat) (a : ndarray2) :
  List.length (column_f64 t a) = List.length a.
Proof. apply length_map. Qed.

Lemma np_percentile_f64_entries (a : ndarray2) (q : list float64) :
  a <> [] -> (Z.of_nat (List.length a) <= 2 ^ 53)%Z ->
  forallb quantile_is_valid (map (fun p => p / 100) q) = true ->
  exists out : ndarray2,
    np_percentile_f64 a q = Ok out /\ List.length out = List.length q /\
    forall i, (i < List.length q)%nat ->
      List.length (nth i out []) = width_f64 a /\
      forall t, (t < width_f64 a)%nat ->
        quantile_1d (column_f64 t a) (nth i q 0 / 100) = Ok (nth t (nth i out []) 0).
Proof.
  intros Hne Hlen Hvalid. unfold np_percentile_f64. rewrite Hvalid.
  destruct a as [| row rest] eqn:Ea; [congruence |]. rewrite <- Ea in *.
  assert (forall quantile, In quantile (map (fun p => p / 100) q) ->
            exists r, all_ok (map (fun t => quantile_1d (column_f64 t a) quantile)
                                (seq 0 (width_f64 a))) = Ok r) as Hrows.
  { intros quantile Hin.
    destruct (all_ok_map (fun t => quantile_1d (column_f64 t a) quantile)
                (seq 0 (width_f64 a))) as (r & Hr & _); [| eauto].
    intros t _.
    destruct (quantile_1d_spec (column_f64 t a) quantile) as (v & Hv & _); [| | | eauto].
    - intros Hnil. apply (f_equal (@List.length float64)) in Hnil.
      rewrite column_f64_length, Ea in Hnil. discriminate Hnil.
    - now rewrite column_f64_length.
    - rewrite forallb_forall in Hvalid. apply Hvalid, Hin. }
  destruct (all_ok_map _ _ Hrows) as (out & Hout & Hlo & Hnth).
  exists out. split; [exact Hout |]. rewrite length_map in Hlo, Hnth.
  split; [exact Hlo |]. intros i Hi.
  specialize (Hnth i (0 / 100) [] Hi).
  change (0 / 100) with ((fun p => p / 100) 0) in Hnth. rewrite map_nth in Hnth.
  cbv beta in Hnth.
  destruct (all_ok_map (fun t => quantile_1d (column_f64 t a) (nth i q 0 / 100))
              (seq 0 (width_f64 a))) as (r & Hr & Hlr & Hrn).
  { intros t' _.
    destruct (quantile_1d_spec (column_f64 t' a) (nth i q 0 / 100)) as (v & Hv & _);
      [| | | eauto].
    - intros Hnil. apply (f_equal (@List.length float64)) in Hnil.
      rewrite column_f64_length, Ea in Hnil. discriminate Hnil.
    - now rewrite column_f64_length.
    - rewrite forallb_forall in Hvalid. apply Hvalid.
      apply (in_map (fun p => p / 100)), nth_In, Hi. }
  assert (Ok (nth i out []) = Ok r) as Heq
    by (etransitivity; [symmetry; exact Hnth | exact Hr]).
  injection Heq as ->. rewrite length_seq in Hlr, Hrn.
  split; [exact Hlr |]. intros t Ht.
  specialize (Hrn t O 0 Ht). rewrite seq_nth in Hrn by exact Ht. exact Hrn.
Qed.

(** *** The rows of [quantiles] *)



(** *** Overflow of the interpolation *)











Close Scope float_scope.

(** * Further properties of the samplers, the loops and the tables *)

(** ** The row sampler *)

(** X1: on a matrix with at least one row, [select_random_row] returns
    exactly [num_rows] rows, also when that is more than the matrix has,
    each of them a row of the matrix; the generator is left [num_rows]
    row draws further. *)
Theorem select_random_row_sample (G : Generator) (data : ndarray2) (num_rows : Z)
    (s : rng_state G) :
  in_range G -> data <> [] -> (0 <= num_rows)%Z ->
  exists (rows : ndarray2) (s' : rng_state G),
    select_random_row G data num_rows s = (Ok rows, s') /\
    List.length rows = Z.to_nat num_rows /\
    Forall (fun r => In r data) rows /\
    s' = snd (raw_draws G (List.length data) (Z.to_nat num_rows) s).
Proof.
  intros Hrange Hdata Hnum.
  pose proof (nonempty_length data Hdata) as HR.
  eexists _, _. split; [apply select_random_row_ok; assumption |].
  split; [now rewrite length_map, raw_draws_length |].
  split; [| reflexivity].
  apply Forall_map.
  eapply Forall_impl; [| apply (raw_draws_below G Hrange _ _ s HR)].
  intros i Hi. simpl in Hi. apply nth_In, Hi.
Qed.

Lemma select_random_row_sample_witness :
  in_range lcg /\ scenario <> [] /\ (0 <= 5)%Z /\
  exists (rows : ndarray2) (s' : rng_state lcg),
    select_random_row lcg scenario 5 7%Z = (Ok rows, s') /\
    List.length rows = Z.to_nat 5 /\
    Forall (fun r => In r scenario) rows.
Proof.
  assert (scenario <> []) as Hdata by discriminate.
  assert (0 <= 5)%Z as H5 by lia.
  split; [exact lcg_in_range |]. split; [exact Hdata |]. split; [exact H5 |].
  destruct (select_random_row_sample lcg scenario 5 7%Z lcg_in_range Hdata H5)
    as (rows & s' & Hrun & Hlen & Hin & _).
  exists rows, s'. repeat split; assumption.
Defined.

Lemma single_row_draws (r : list float64) (idxs : list nat) :
  Forall (fun i => (i < 1)%nat) idxs ->
  map (fun i => nth i [r] []) idxs = repeat r (List.length idxs).
Proof.
  induction 1 as [| i idxs Hi _ IH]; [reflexivity |].
  cbn [map List.length repeat]. rewrite IH.
  replace i with O by lia. reflexivity.
Qed.

(** X2: on a matrix of a single row, every sampled row is that row: the
    sample is [num_rows] copies of it, whatever the generator draws. *)
Theorem select_random_row_single (G : Generator) (r : list float64) (num_rows : Z)
    (s : rng_state G) :
  in_range G -> (0 <= num_rows)%Z ->
  fst (select_random_row G [r] num_rows s) = Ok (repeat r (Z.to_nat num_rows)).
Proof.
  intros Hrange Hnum.
  rewrite (select_random_row_ok G Hrange [r] num_rows s) by (discriminate || assumption).
  simpl fst. f_equal.
  etransitivity;
    [apply single_row_draws, (raw_draws_below G Hrange); simpl; lia |].
  now rewrite raw_draws_length.
Qed.

Lemma select_random_row_single_witness :
  in_range lcg /\ (0 <= 4)%Z /\
  fst (select_random_row lcg [[10; -10; -10]%float] 4 7%Z)
  = Ok (repeat [10; -10; -10]%float (Z.to_nat 4)).
Proof.
  assert (0 <= 4)%Z as H4 by lia.
  split; [exact lcg_in_range |]. split; [exact H4 |].
  exact (select_random_row_single lcg [10; -10; -10]%float 4 7%Z lcg_in_range H4).
Defined.

(** X3: [select_random_row] returns exactly when it is asked for no row, or
    for a positive number of rows of a matrix that has some. Otherwise, for
    a negative count or for rows of an empty matrix, it raises a
    [ValueError] and has drawn nothing: the generator is as it was. *)
Theorem select_random_row_returns_iff (G : Generator) (data : ndarray2)
    (num_rows : Z) (s : rng_state G) :
  in_range G ->
  ((exists (rows : ndarray2) (s' : rng_state G),
       select_random_row G data num_rows s = (Ok rows, s'))
   <-> (num_rows = 0%Z \/ ((0 < num_rows)%Z /\ data <> []))) /\
  (forall (e : exn) (s' : rng_state G),
      select_random_row G data num_rows s = (Raise e, s') ->
      e = ValueError /\ s' = s).
Proof.
  intros Hrange.
  destruct (Z.lt_trichotomy num_rows 0) as [Hneg | [Hzero | Hpos]].
  - assert (select_random_row G data num_rows s = (Raise ValueError, s)) as Hrun.
    { unfold select_random_row, np_random_choice_int, bind.
      destruct (Z.ltb_spec num_rows 0) as [_ | Hge]; [reflexivity | lia]. }
    rewrite Hrun. split.
    + split; [intros (rows & s' & H); discriminate H | lia].
    + intros e s' H. injection H as <- <-. split; reflexivity.
  - subst num_rows.
    assert (select_random_row G data 0 s = (Ok [], s)) as Hrun by reflexivity.
    rewrite Hrun. split.
    + split; [intros _; left; reflexivity | intros _; eexists _, _; reflexivity].
    + intros e s' H. discriminate H.
  - destruct data as [| r data].
    + assert (select_random_row G [] num_rows s = (Raise ValueError, s)) as Hrun.
      { unfold select_random_row, np_random_choice_int, bind, shape0.
        destruct (Z.ltb_spec num_rows 0) as [Hlt | _]; [lia |].
        destruct (Z.to_nat num_rows) as [| k] eqn:Ek; [lia |]. reflexivity. }
      rewrite Hrun. split.
      * split; [intros (rows & s' & H); discriminate H |].
        intros [H0 | [_ Hne]]; [lia | congruence].
      * intros e s' H. injection H as <- <-. split; reflexivity.
    + rewrite (select_random_row_ok G Hrange (r :: data) num_rows s)
        by (discriminate || lia).
      split.
      * split; [intros _; right; split; [lia | discriminate] |].
        intros _. eexists _, _. reflexivity.
      * intros e s' H. discriminate H.
Qed.

Lemma select_random_row_returns_iff_witness :
  in_range lcg /\
  select_random_row lcg [] 3 7%Z = (Raise ValueError, 7%Z) /\
  (ValueError = ValueError /\ 7%Z = 7%Z) /\
  ((3 = 0)%Z \/ ((0 < 3)%Z /\ scenario <> [])) /\
  exists (rows : ndarray2) (s' : rng_state lcg),
    select_random_row lcg scenario 3 7%Z = (Ok rows, s').
Proof.
  assert (select_random_row lcg [] 3 7%Z = (Raise ValueError, 7%Z)) as Hfail
    by reflexivity.
  assert ((3 = 0)%Z \/ ((0 < 3)%Z /\ scenario <> [])) as Hok
    by (right; split; [lia | discriminate]).
  split; [exact lcg_in_range |]. split; [exact Hfail |].
  split; [exact (proj2 (select_random_row_returns_iff lcg [] 3 7%Z lcg_in_range)
                   ValueError 7%Z Hfail) |].
  split; [exact Hok |].
  exact (proj2 (proj1 (select_random_row_returns_iff lcg scenario 3 7%Z lcg_in_range)) Hok).
Defined.

(** ** The column selector *)

(** X4: on a matrix of [K] columns and a non-empty array of enabled columns
    below [K], [select_random_col] returns one value per row, in the order
    of the rows: the [j]-th value is the cell of the [j]-th row at one of
    the enabled columns. The generator is left one column draw per row
    further. *)
Theorem select_random_col_cells (G : Generator) (K : nat) (data : ndarray2)
    (cols : list nat) (s : rng_state G) :
  in_range G ->
  cols <> [] -> Forall (fun c => (c < K)%nat) cols -> rectangular K data ->
  exists (xs : ndarray1) (s' : rng_state G),
    select_random_col G data cols s = (Ok xs, s') /\
    List.length xs = List.length data /\
    (forall j, (j < List.length data)%nat ->
       exists c, In c cols /\ nth_error (nth j data []) c = Some (nth j xs 0%float)) /\
    s' = snd (raw_draws G (List.length cols) (List.length data) s).
Proof.
  intros Hrange Hcols Hin Hrect.
  pose proof (nonempty_length cols Hcols) as HC.
  pose proof (raw_draws_below G Hrange (List.length cols) (List.length data) s HC) as Hjs.
  pose proof (raw_draws_length G (List.length cols) (List.length data) s) as Hlen.
  eexists _, _. split; [apply (select_random_col_ok G Hrange K); assumption |].
  destruct (raw_draws G (List.length cols) (List.length data) s) as [js s1].
  simpl in *.
  split; [rewrite length_map, length_combine; lia |].
  split; [| reflexivity].
  intros j Hj.
  rewrite (nth_map_in _ (combine data js) j _ ([], O))
    by (rewrite length_combine; lia).
  rewrite combine_nth by lia. simpl.
  rewrite Forall_forall in Hjs, Hin.
  assert (nth j js O < List.length cols)%nat as Hc by (apply Hjs, nth_In; lia).
  exists (nth (nth j js O) cols O). split; [apply nth_In, Hc |].
  assert (List.length (nth j data []) = K) as Hw by (apply rectangular_nth; assumption).
  apply nth_error_nth'.
  eapply Nat.lt_le_trans; [apply Hin, nth_In, Hc |].
  apply Nat.eq_le_incl. symmetry. exact Hw.
Qed.

Lemma select_random_col_cells_witness :
  in_range lcg /\
  [0; 2]%nat <> [] /\ Forall (fun c => (c < 3)%nat) [0; 2]%nat /\
  rectangular 3 scenario /\ (1 < List.length scenario)%nat /\
  exists (xs : ndarray1) (s' : rng_state lcg) (c : nat),
    select_random_col lcg scenario [0; 2]%nat 7%Z = (Ok xs, s') /\
    List.length xs = List.length scenario /\
    In c [0; 2]%nat /\
    nth_error (nth 1 scenario []) c = Some (nth 1 xs 0%float).
Proof.
  assert ([0; 2]%nat <> []) as Hcols by discriminate.
  assert (Forall (fun c => (c < 3)%nat) [0; 2]%nat) as Hin by (repeat constructor).
  assert (rectangular 3 scenario) as Hrect by (repeat constructor).
  assert (1 < List.length scenario)%nat as H1 by (simpl; lia).
  repeat (split; [assumption || exact lcg_in_range |]).
  destruct (select_random_col_cells lcg 3 scenario [0; 2]%nat 7%Z
              lcg_in_range Hcols Hin Hrect) as (xs & s' & Hrun & Hlen & Hcell & _).
  destruct (Hcell 1%nat H1) as (c & Hc & Hread).
  exists xs, s', c. repeat split; assumption.
Defined.

(** X5: on a matrix of [K] columns and enabled columns below [K],
    [select_random_col] returns exactly when the matrix has no row or some
    column is enabled. With rows to serve and no enabled column it raises a
    [ValueError] and has drawn nothing. *)
Theorem select_random_col_returns_iff (G : Generator) (K : nat) (data : ndarray2)
    (cols : list nat) (s : rng_state G) :
  in_range G ->
  Forall (fun c => (c < K)%nat) cols -> rectangular K data ->
  ((exists (xs : ndarray1) (s' : rng_state G),
       select_random_col G data cols s = (Ok xs, s'))
   <-> (data = [] \/ cols <> [])) /\
  (forall (e : exn) (s' : rng_state G),
      select_random_col G data cols s = (Raise e, s') ->
      e = ValueError /\ s' = s).
Proof.
  intros Hrange Hin Hrect.
  destruct data as [| r data].
  - assert (select_random_col G [] cols s = (Ok [], s)) as Hrun by reflexivity.
    rewrite Hrun. split.
    + split; [intros _; left; reflexivity | intros _; eexists _, _; reflexivity].
    + intros e s' H. discriminate H.
  - destruct cols as [| c cols].
    + assert (select_random_col G (r :: data) [] s = (Raise ValueError, s)) as Hrun.
      { unfold select_random_col, np_random_choice_arr, bind, shape0.
        destruct (Z.ltb_spec (Z.of_nat (List.length (r :: data))) 0) as [Hlt | _];
          [lia |].
        rewrite Nat2Z.id. reflexivity. }
      rewrite Hrun. split.
      * split; [intros (xs & s' & H); discriminate H |].
        intros [H | H]; [discriminate H | congruence].
      * intros e s' H. injection H as <- <-. split; reflexivity.
    + rewrite (select_random_col_ok G Hrange K (r :: data) (c :: cols) s)
        by (discriminate || assumption).
      split.
      * split; [intros _; right; discriminate | intros _; eexists _, _; reflexivity].
      * intros e s' H. discriminate H.
Qed.

Lemma select_random_col_returns_iff_witness :
  in_range lcg /\
  Forall (fun c => (c < 3)%nat) [] /\ rectangular 3 scenario /\
  select_random_col lcg scenario [] 7%Z = (Raise ValueError, 7%Z) /\
  (ValueError = ValueError /\ 7%Z = 7%Z) /\
  Forall (fun c => (c < 3)%nat) [1%nat] /\
  (scenario = [] \/ [1%nat] <> []) /\
  exists (xs : ndarray1) (s' : rng_state lcg),
    select_random_col lcg scenario [1%nat] 7%Z = (Ok xs, s').
Proof.
  assert (Forall (fun c => (c < 3)%nat) []) as Hnone by constructor.
  assert (Forall (fun c => (c < 3)%nat) [1%nat]) as Hone by (repeat constructor).
  assert (rectangular 3 scenario) as Hrect by (repeat constructor).
  assert (select_random_col lcg scenario [] 7%Z = (Raise ValueError, 7%Z)) as Hfail
    by reflexivity.
  assert (scenario = [] \/ [1%nat] <> []) as Hok by (right; discriminate).
  split; [exact lcg_in_range |]. split; [exact Hnone |]. split; [exact Hrect |].
  split; [exact Hfail |].
  split; [exact (proj2 (select_random_col_returns_iff lcg 3 scenario [] 7%Z
                          lcg_in_range Hnone Hrect) ValueError 7%Z Hfail) |].
  split; [exact Hone |]. split; [exact Hok |].
  exact (proj2 (proj1 (select_random_col_returns_iff lcg 3 scenario [1%nat] 7%Z
                         lcg_in_range Hone Hrect)) Hok).
Defined.

(** ** Growing the number of runs *)

Lemma unfold_runs_app (G : Generator) {A : Type}
    (step : rng_state G -> A * rng_state G) (n m : nat) :
  forall s,
    unfold_runs G step (n + m) s
    = (fst (unfold_runs G step n s)
         ++ fst (unfold_runs G step m (snd (unfold_runs G step n s))),
       snd (unfold_runs G step m (snd (unfold_runs G step n s)))).
Proof.
  induction n as [| n IH]; intros s; simpl.
  - destruct (unfold_runs G step m s); reflexivity.
  - destruct (step s) as [a s1]. rewrite IH.
    destruct (unfold_runs G step n s1) as [xs s2]. simpl.
    destruct (unfold_runs G step m s2) as [ys s3]. reflexivity.
Qed.

(** X6: asking [monte_carlo_sum] for more iterations only appends profits:
    on a well-formed call the array for [I + J] iterations starts with the
    array for [I] iterations, entry for entry, followed by [J] further
    profits. *)
Theorem monte_carlo_sum_prefix (G : Generator) (K : nat) (data : ndarray2)
    (cols : list nat) (B I J : Z) (g : rng_state G) :
  in_range G ->
  data <> [] -> rectangular K data ->
  cols <> [] -> Forall (fun c => (c < K)%nat) cols ->
  (0 <= B)%Z -> (0 <= I)%Z -> (0 <= J)%Z ->
  exists (first more : ndarray1) (g1 g2 : rng_state G),
    monte_carlo_sum G data I B cols g = (Ok first, g1) /\
    monte_carlo_sum G data (I + J) B cols g = (Ok (first ++ more), g2) /\
    List.length first = Z.to_nat I /\
    List.length more = Z.to_nat J.
Proof.
  intros Hrange Hdata Hrect Hcols Hin HB HI HJ.
  rewrite (monte_carlo_sum_runs G Hrange K data cols B Hdata Hrect Hcols Hin HB I g HI).
  rewrite (monte_carlo_sum_runs G Hrange K data cols B Hdata Hrect Hcols Hin HB
             (I + J) g) by lia.
  unfold stream_runs. rewrite Z2Nat.inj_add by assumption.
  rewrite unfold_runs_app. simpl fst. simpl snd. rewrite map_app.
  eexists _, _, _, _. split; [reflexivity |]. split; [reflexivity |].
  split; rewrite length_map; apply unfold_runs_length.
Qed.

Lemma monte_carlo_sum_prefix_witness :
  in_range lcg /\
  scenario <> [] /\ rectangular 3 scenario /\
  [0; 1; 2]%nat <> [] /\ Forall (fun c => (c < 3)%nat) [0; 1; 2]%nat /\
  (0 <= 5)%Z /\ (0 <= 2)%Z /\ (0 <= 3)%Z /\
  exists (first more : ndarray1) (g1 g2 : rng_state lcg),
    monte_carlo_sum lcg scenario 2 5 [0; 1; 2]%nat 7%Z = (Ok first, g1) /\
    monte_carlo_sum lcg scenario (2 + 3) 5 [0; 1; 2]%nat 7%Z = (Ok (first ++ more), g2) /\
    List.length first = Z.to_nat 2 /\
    List.length more = Z.to_nat 3.
Proof.
  assert (rectangular 3 scenario) as Hrect by (repeat constructor).
  assert (Forall (fun c => (c < 3)%nat) [0; 1; 2]%nat) as Hin by (repeat constructor).
  assert (scenario <> []) as Hdata by discriminate.
  assert ([0; 1; 2]%nat <> []) as Hcols by discriminate.
  assert (0 <= 5)%Z as HB by lia.
  assert (0 <= 2)%Z as HI by lia.
  assert (0 <= 3)%Z as HJ by lia.
  repeat (split; [assumption || exact lcg_in_range |]).
  exact (monte_carlo_sum_prefix lcg 3 scenario [0; 1; 2]%nat 5 2 3 7%Z
           lcg_in_range Hdata Hrect Hcols Hin HB HI HJ).
Defined.

Lemma map_constant {A B : Type} (f : A -> B) (v : B) (l : list A) :
  Forall (fun a => f a = v) l -> map f l = repeat v (List.length l).
Proof.
  induction 1 as [| a l Ha _ IH]; simpl; [reflexivity | now rewrite Ha, IH].
Qed.

(** X7: on a well-formed call over a matrix whose cells all hold the same
    value [c], every profit is the same: [c] added [B] times to zero,
    whatever the generator draws. *)
Theorem monte_carlo_sum_constant_matrix (G : Generator) (K : nat) (data : ndarray2)
    (cols : list nat) (B I : Z) (c : float64) (g : rng_state G) :
  in_range G ->
  data <> [] -> rectangular K data ->
  cols <> [] -> Forall (fun k => (k < K)%nat) cols ->
  (0 <= B)%Z -> (0 <= I)%Z ->
  Forall (Forall (fun x => x = c)) data ->
  fst (monte_carlo_sum G data I B cols g)
  = Ok (repeat (fold_left PrimFloat.add (repeat c (Z.to_nat B)) 0%float) (Z.to_nat I)).
Proof.
  intros Hrange Hdata Hrect Hcols Hin HB HI Hconst.
  pose proof (nonempty_length data Hdata) as HR.
  pose proof (nonempty_length cols Hcols) as HC.
  rewrite (monte_carlo_sum_runs G Hrange K data cols B Hdata Hrect Hcols Hin HB I g HI).
  simpl fst. f_equal. unfold stream_runs.
  etransitivity;
    [apply map_constant with (v := fold_left PrimFloat.add (repeat c (Z.to_nat B)) 0%float)
    | now rewrite unfold_runs_length].
  apply unfold_runs_Forall. intros s.
  destruct (run_draws_spec G (List.length data) (List.length cols) (Z.to_nat B) s
              Hrange HR HC) as [Hl Hds].
  unfold run_profit, array_sum. f_equal.
  etransitivity; [apply map_constant with (v := c) | now rewrite Hl].
  eapply Forall_impl; [| exact Hds].
  intros [r j] [Hr Hj]. simpl in Hr, Hj. unfold payout. simpl.
  rewrite Forall_forall in Hconst, Hin.
  assert (In (nth r data []) data) as Hrow by (apply nth_In, Hr).
  specialize (Hconst _ Hrow). rewrite Forall_forall in Hconst.
  apply Hconst, nth_In.
  assert (List.length (nth r data []) = K) as Hw by (apply rectangular_nth; assumption).
  eapply Nat.lt_le_trans; [apply Hin, nth_In, Hj |].
  apply Nat.eq_le_incl. symmetry. exact Hw.
Qed.

Lemma monte_carlo_sum_constant_matrix_witness :
  in_range lcg /\
  all_lost <> [] /\ rectangular 3 all_lost /\
  [0; 1; 2]%nat <> [] /\ Forall (fun k => (k < 3)%nat) [0; 1; 2]%nat /\
  (0 <= 4)%Z /\ (0 <= 2)%Z /\
  Forall (Forall (fun x => x = (-10)%float)) all_lost /\
  fst (monte_carlo_sum lcg all_lost 2 4 [0; 1; 2]%nat 7%Z)
  = Ok (repeat (fold_left PrimFloat.add (repeat (-10)%float (Z.to_nat 4)) 0%float)
          (Z.to_nat 2)).
Proof.
  assert (rectangular 3 all_lost) as Hrect by (repeat constructor).
  assert (Forall (fun k => (k < 3)%nat) [0; 1; 2]%nat) as Hin by (repeat constructor).
  assert (all_lost <> []) as Hdata by discriminate.
  assert ([0; 1; 2]%nat <> []) as Hcols by discriminate.
  assert (0 <= 4)%Z as HB by lia.
  assert (0 <= 2)%Z as HI by lia.
  assert (Forall (Forall (fun x => x = (-10)%float)) all_lost) as Hconst
    by (repeat constructor).
  repeat (split; [assumption || exact lcg_in_range |]).
  exact (monte_carlo_sum_constant_matrix lcg 3 all_lost [0; 1; 2]%nat 4 2 (-10)%float 7%Z
           lcg_in_range Hdata Hrect Hcols Hin HB HI Hconst).
Defined.

(** ** The trajectory matrix *)

(** X8: on a payout matrix with at least one row and three columns or more,
    the trajectory cell returns a matrix of [n_iteration] rows of
    [n_bets_ts] balances each. *)
Theorem timeseries_shape (G : Generator) (K : nat) (arr_mc : ndarray2)
    (n_iteration n_bets_ts : Z) (initial_balance : float64) (s : rng_state G) :
  in_range G ->
  arr_mc <> [] -> rectangular K arr_mc -> (3 <= K)%nat ->
  (0 <= n_iteration)%Z -> (0 <= n_bets_ts)%Z ->
  exists (rows : ndarray2) (s' : rng_state G),
    timeseries G arr_mc n_iteration n_bets_ts initial_balance s = (Ok rows, s') /\
    List.length rows = Z.to_nat n_iteration /\
    Forall (fun row => List.length row = Z.to_nat n_bets_ts) rows.
Proof.
  intros Hrange Hdata Hrect HK HI Hn.
  pose proof (nonempty_length arr_mc Hdata) as HR.
  assert (0 < 3)%nat as H3 by lia.
  rewrite (timeseries_runs G K arr_mc n_iteration n_bets_ts initial_balance s
             Hrange Hdata Hrect HK HI Hn).
  eexists _, _. split; [reflexivity |]. unfold stream_runs.
  split; [now rewrite length_map, unfold_runs_length |].
  apply Forall_map. apply unfold_runs_Forall. intros s0.
  rewrite length_map, np_cumsum_length, length_map.
  apply (run_draws_spec G _ _ _ s0 Hrange HR H3).
Qed.

Lemma timeseries_shape_witness :
  in_range lcg /\
  scenario <> [] /\ rectangular 3 scenario /\ (3 <= 3)%nat /\
  (0 <= 2)%Z /\ (0 <= 5)%Z /\
  exists (rows : ndarray2) (s' : rng_state lcg),
    timeseries lcg scenario 2 5 10000%float 7%Z = (Ok rows, s') /\
    List.length rows = Z.to_nat 2 /\
    Forall (fun row => List.length row = Z.to_nat 5) rows.
Proof.
  assert (rectangular 3 scenario) as Hrect by (repeat constructor).
  assert (scenario <> []) as Hdata by discriminate.
  assert (3 <= 3)%nat as HK by lia.
  assert (0 <= 2)%Z as HI by lia.
  assert (0 <= 5)%Z as Hn by lia.
  repeat (split; [assumption || exact lcg_in_range |]).
  exact (timeseries_shape lcg 3 scenario 2 5 10000%float 7%Z
           lcg_in_range Hdata Hrect HK HI Hn).
Defined.

(** X9: the trajectory cell does not reseed, so trajectories continue the
    stream: the matrix of [I + J] runs from a generator state is the matrix
    of [I] runs from that state followed by the matrix of [J] runs from the
    state the first [I] runs leave. *)
Theorem timeseries_append (G : Generator) (K : nat) (arr_mc : ndarray2)
    (I J n_bets_ts : Z) (initial_balance : float64) (s : rng_state G) :
  in_range G ->
  arr_mc <> [] -> rectangular K arr_mc -> (3 <= K)%nat ->
  (0 <= I)%Z -> (0 <= J)%Z -> (0 <= n_bets_ts)%Z ->
  exists (first more : ndarray2) (s1 s2 : rng_state G),
    timeseries G arr_mc I n_bets_ts initial_balance s = (Ok first, s1) /\
    timeseries G arr_mc J n_bets_ts initial_balance s1 = (Ok more, s2) /\
    timeseries G arr_mc (I + J) n_bets_ts initial_balance s = (Ok (first ++ more), s2).
Proof.
  intros Hrange Hdata Hrect HK HI HJ Hn.
  rewrite (timeseries_runs G K arr_mc I n_bets_ts initial_balance s
             Hrange Hdata Hrect HK HI Hn).
  rewrite (timeseries_runs G K arr_mc (I + J) n_bets_ts initial_balance s
             Hrange Hdata Hrect HK) by lia.
  unfold stream_runs. rewrite Z2Nat.inj_add by assumption.
  rewrite unfold_runs_app. simpl fst. simpl snd. rewrite map_app.
  eexists _, _, _, _. split; [reflexivity |]. split; [| reflexivity].
  rewrite (timeseries_runs G K arr_mc J n_bets_ts initial_balance _
             Hrange Hdata Hrect HK HJ Hn).
  reflexivity.
Qed.

Lemma timeseries_append_witness :
  in_range lcg /\
  scenario <> [] /\ rectangular 3 scenario /\ (3 <= 3)%nat /\
  (0 <= 2)%Z /\ (0 <= 1)%Z /\ (0 <= 5)%Z /\
  exists (first more : ndarray2) (s1 s2 : rng_state lcg),
    timeseries lcg scenario 2 5 10000%float 7%Z = (Ok first, s1) /\
    timeseries lcg scenario 1 5 10000%float s1 = (Ok more, s2) /\
    timeseries lcg scenario (2 + 1) 5 10000%float 7%Z = (Ok (first ++ more), s2).
Proof.
  assert (rectangular 3 scenario) as Hrect by (repeat constructor).
  assert (scenario <> []) as Hdata by discriminate.
  assert (3 <= 3)%nat as HK by lia.
  assert (0 <= 2)%Z as HI by lia.
  assert (0 <= 1)%Z as HJ by lia.
  assert (0 <= 5)%Z as Hn by lia.
  repeat (split; [assumption || exact lcg_in_range |]).
  exact (timeseries_append lcg 3 scenario 2 1 5 10000%float 7%Z
           lcg_in_range Hdata Hrect HK HI HJ Hn).
Defined.

(** X10: the trajectory cell on a payout matrix of three columns or more
    (with a generator whose draws are in range, so that every cell the loop
    reads exists) fails only through NumPy, only with a [ValueError], and
    then before any draw, the generator being left as it was: it fails
    exactly when the number of runs or of bets is negative (at the
    allocation), or when a bet is to be drawn from a matrix without a row
    (at the first row draw); on every other call it returns. Whatever the
    matrix, a negative count and rows drawn from an empty matrix raise that
    [ValueError]; no run gives the empty matrix and runs of no bet give
    empty rows, both without a draw. *)
Theorem timeseries_argument_handling (G : Generator) (K : nat) (arr_mc : ndarray2)
    (initial_balance : float64) (s : rng_state G) :
  (forall n_iteration n_bets_ts : Z,
      (n_iteration < 0)%Z \/ (n_bets_ts < 0)%Z ->
      timeseries G arr_mc n_iteration n_bets_ts initial_balance s
      = (Raise ValueError, s)) /\
  (forall n_iteration n_bets_ts : Z,
      (0 < n_iteration)%Z -> (0 < n_bets_ts)%Z -> arr_mc = [] ->
      timeseries G arr_mc n_iteration n_bets_ts initial_balance s
      = (Raise ValueError, s)) /\
  (forall n_bets_ts : Z,
      (0 <= n_bets_ts)%Z ->
      timeseries G arr_mc 0 n_bets_ts initial_balance s = (Ok [], s)) /\
  (forall n_iteration : Z,
      (0 <= n_iteration)%Z ->
      timeseries G arr_mc n_iteration 0 initial_balance s
      = (Ok (repeat [] (Z.to_nat n_iteration)), s)) /\
  (in_range G -> rectangular K arr_mc -> (3 <= K)%nat ->
   forall n_iteration n_bets_ts : Z,
     ((n_iteration < 0)%Z \/ (n_bets_ts < 0)%Z \/
      ((0 < n_iteration)%Z /\ (0 < n_bets_ts)%Z /\ arr_mc = []) ->
      timeseries G arr_mc n_iteration n_bets_ts initial_balance s
      = (Raise ValueError, s)) /\
     (~ ((n_iteration < 0)%Z \/ (n_bets_ts < 0)%Z \/
         ((0 < n_iteration)%Z /\ (0 < n_bets_ts)%Z /\ arr_mc = [])) ->
      exists (rows : ndarray2) (s' : rng_state G),
        timeseries G arr_mc n_iteration n_bets_ts initial_balance s = (Ok rows, s')) /\
     (forall (e : exn) (s' : rng_state G),
         timeseries G arr_mc n_iteration n_bets_ts initial_balance s = (Raise e, s') ->
         e = ValueError /\ s' = s /\
         ((n_iteration < 0)%Z \/ (n_bets_ts < 0)%Z \/
          ((0 < n_iteration)%Z /\ (0 < n_bets_ts)%Z /\ arr_mc = [])))).
Proof.
  assert (forall n_iteration n_bets_ts : Z,
             (n_iteration < 0)%Z \/ (n_bets_ts < 0)%Z ->
             timeseries G arr_mc n_iteration n_bets_ts initial_balance s
             = (Raise ValueError, s)) as Hneg.
  { intros n_iteration n_bets_ts Hneg. unfold timeseries, np_empty2, bind.
    destruct (Z.ltb_spec n_iteration 0) as [_ | HI]; [reflexivity |].
    destruct (Z.ltb_spec n_bets_ts 0) as [_ | Hn]; [reflexivity | lia]. }
  assert (forall n_iteration n_bets_ts : Z,
             (0 < n_iteration)%Z -> (0 < n_bets_ts)%Z -> arr_mc = [] ->
             timeseries G arr_mc n_iteration n_bets_ts initial_balance s
             = (Raise ValueError, s)) as Hempty.
  { intros n_iteration n_bets_ts HI Hn ->. unfold timeseries, np_empty2, bind.
    destruct (Z.ltb_spec n_iteration 0) as [Hlt | _]; [lia |].
    destruct (Z.ltb_spec n_bets_ts 0) as [Hlt | _]; [lia |].
    simpl orb. unfold ret.
    destruct (Z.to_nat n_iteration) as [| k] eqn:Ek; [lia |].
    simpl. cbv [bind timeseries_step select_random_row np_random_choice_int shape0].
    destruct (Z.ltb_spec n_bets_ts 0) as [Hlt | _]; [lia |].
    destruct (Z.to_nat n_bets_ts) as [| b] eqn:Eb; [lia |].
    simpl List.length. rewrite draws_empty_range. reflexivity. }
  assert (forall n_bets_ts : Z,
             (0 <= n_bets_ts)%Z ->
             timeseries G arr_mc 0 n_bets_ts initial_balance s = (Ok [], s)) as Hnone.
  { intros n_bets_ts Hn. unfold timeseries, np_empty2, bind.
    destruct (Z.ltb_spec n_bets_ts 0) as [Hlt | _]; [lia | reflexivity]. }
  assert (forall n_iteration : Z,
             (0 <= n_iteration)%Z ->
             timeseries G arr_mc n_iteration 0 initial_balance s
             = (Ok (repeat [] (Z.to_nat n_iteration)), s)) as Hnobet.
  { intros n_iteration HI. unfold timeseries, np_empty2, bind.
    destruct (Z.ltb_spec n_iteration 0) as [Hlt | _]; [lia |].
    simpl orb. unfold ret.
    pose proof (for_each_setitem G (timeseries_step G arr_mc 0 initial_balance)
                  (fun s' => ([], s')) (fun i acc s' => eq_refl)
                  (Z.to_nat n_iteration) []
                  (repeat (repeat uninit (Z.to_nat 0)) (Z.to_nat n_iteration)) s
                  (repeat_length _ _)) as Hloop.
    simpl in Hloop. etransitivity; [exact Hloop |].
    now rewrite unfold_runs_const. }
  repeat (split; [assumption |]).
  intros Hrange Hrect HK n_iteration n_bets_ts.
  assert ((n_iteration < 0)%Z \/ (n_bets_ts < 0)%Z \/
          ((0 < n_iteration)%Z /\ (0 < n_bets_ts)%Z /\ arr_mc = []) ->
          timeseries G arr_mc n_iteration n_bets_ts initial_balance s
          = (Raise ValueError, s)) as Hfails.
  { intros [HI | [Hn | (HI & Hn & Harr)]].
    - apply Hneg. now left.
    - apply Hneg. now right.
    - now apply Hempty. }
  assert (~ ((n_iteration < 0)%Z \/ (n_bets_ts < 0)%Z \/
             ((0 < n_iteration)%Z /\ (0 < n_bets_ts)%Z /\ arr_mc = [])) ->
          exists (rows : ndarray2) (s' : rng_state G),
            timeseries G arr_mc n_iteration n_bets_ts initial_balance s = (Ok rows, s'))
    as Hreturns.
  { intros Hok.
    assert (0 <= n_iteration)%Z as HI by lia.
    assert (0 <= n_bets_ts)%Z as Hn by lia.
    destruct (Z.eq_dec n_iteration 0) as [-> | HI0];
      [eexists _, _; apply Hnone, Hn |].
    destruct (Z.eq_dec n_bets_ts 0) as [-> | Hn0];
      [eexists _, _; apply Hnobet, HI |].
    assert (arr_mc <> []) as Hdata
      by (intros Harr; apply Hok; right; right; repeat split; [lia | lia | exact Harr]).
    eexists _, _.
    apply (timeseries_runs G K arr_mc n_iteration n_bets_ts initial_balance s
             Hrange Hdata Hrect HK HI Hn). }
  split; [exact Hfails |]. split; [exact Hreturns |].
  intros e s' Hraise.
  assert ((n_iteration < 0)%Z \/ (n_bets_ts < 0)%Z \/
          ((0 < n_iteration)%Z /\ (0 < n_bets_ts)%Z /\ arr_mc = [])) as Hcase.
  { destruct (Z.ltb_spec n_iteration 0) as [HI | HI]; [now left |].
    destruct (Z.ltb_spec n_bets_ts 0) as [Hn | Hn]; [now right; left |].
    destruct arr_mc as [| row rest] eqn:Earr.
    - destruct (Z.eq_dec n_iteration 0) as [-> | HI0];
        [rewrite (Hnone n_bets_ts Hn) in Hraise; discriminate Hraise |].
      destruct (Z.eq_dec n_bets_ts 0) as [-> | Hn0];
        [rewrite (Hnobet n_iteration HI) in Hraise; discriminate Hraise |].
      right; right. repeat split; lia.
    - exfalso.
      assert (~ ((n_iteration < 0)%Z \/ (n_bets_ts < 0)%Z \/
                 ((0 < n_iteration)%Z /\ (0 < n_bets_ts)%Z /\ row :: rest = [])))
        as Hok by (intros [H | [H | (_ & _ & H)]]; [lia | lia | discriminate H]).
      destruct (Hreturns Hok) as (rows & s0 & Hrun).
      rewrite Hrun in Hraise. discriminate Hraise. }
  rewrite (Hfails Hcase) in Hraise. injection Hraise as <- <-.
  repeat split; try reflexivity. exact Hcase.
Qed.

Lemma timeseries_argument_handling_witness :
  ((-1 < 0)%Z \/ (5 < 0)%Z) /\
  timeseries lcg scenario (-1) 5 10000%float 7%Z = (Raise ValueError, 7%Z) /\
  (0 < 2)%Z /\ (0 < 5)%Z /\ @nil (list float64) = [] /\
  timeseries lcg [] 2 5 10000%float 7%Z = (Raise ValueError, 7%Z) /\
  (0 <= 5)%Z /\
  timeseries lcg scenario 0 5 10000%float 7%Z = (Ok [], 7%Z) /\
  (0 <= 2)%Z /\
  timeseries lcg [] 2 0 10000%float 7%Z = (Ok (repeat [] (Z.to_nat 2)), 7%Z) /\
  in_range lcg /\ rectangular 3 scenario /\ (3 <= 3)%nat /\
  ~ ((2 < 0)%Z \/ (5 < 0)%Z \/ ((0 < 2)%Z /\ (0 < 5)%Z /\ scenario = [])) /\
  (exists (rows : ndarray2) (s' : rng_state lcg),
      timeseries lcg scenario 2 5 10000%float 7%Z = (Ok rows, s')) /\
  (forall (e : exn) (s' : rng_state lcg),
      timeseries lcg scenario 2 (-5) 10000%float 7%Z = (Raise e, s') ->
      e = ValueError /\ s' = 7%Z).
Proof.
  assert ((-1 < 0)%Z \/ (5 < 0)%Z) as Hneg by (left; lia).
  assert (0 < 2)%Z as H2 by lia.
  assert (0 < 5)%Z as H5 by lia.
  assert (0 <= 5)%Z as H5' by lia.
  assert (0 <= 2)%Z as H2' by lia.
  assert (rectangular 3 scenario) as Hrect by (repeat constructor).
  assert (3 <= 3)%nat as HK by lia.
  assert (~ ((2 < 0)%Z \/ (5 < 0)%Z \/ ((0 < 2)%Z /\ (0 < 5)%Z /\ scenario = [])))
    as Hok by (intros [H | [H | (_ & _ & H)]]; [lia | lia | discriminate H]).
  pose proof (timeseries_argument_handling lcg 3 scenario 10000%float 7%Z)
    as (Ha & _ & Hc & _ & He).
  pose proof (timeseries_argument_handling lcg 3 [] 10000%float 7%Z)
    as (_ & Hb & _ & Hd & _).
  split; [exact Hneg |]. split; [exact (Ha (-1)%Z 5%Z Hneg) |].
  split; [exact H2 |]. split; [exact H5 |]. split; [reflexivity |].
  split; [exact (Hb 2%Z 5%Z H2 H5 eq_refl) |].
  split; [exact H5' |]. split; [exact (Hc 5%Z H5') |].
  split; [exact H2' |]. split; [exact (Hd 2%Z H2') |].
  split; [exact lcg_in_range |]. split; [exact Hrect |]. split; [exact HK |].
  split; [exact Hok |].
  split; [exact (proj1 (proj2 (He lcg_in_range Hrect HK 2%Z 5%Z)) Hok) |].
  intros e s' Hraise.
  destruct (proj2 (proj2 (He lcg_in_range Hrect HK 2%Z (-5)%Z)) e s' Hraise)
    as (He' & Hs' & _).
  split; [exact He' | exact Hs'].
Defined.

(** ** The payout matrix, row by row *)

Lemma arr_mc_row (stake_per_game : float64) (df_mc_set : list mc_row) (r : nat)
    (m : mc_row) :
  nth_error df_mc_set r = Some m ->
  nth_error (arr_mc stake_per_game df_mc_set) r
  = Some (map (betwin_cell stake_per_game m) outcomes).
Proof.
  intros Hm.
  assert (r < List.length df_mc_set)%nat as Hr by (apply nth_error_Some; congruence).
  unfold arr_mc. rewrite (to_numpy_nth_error _ r _ Hr).
  unfold outcomes. simpl map.
  rewrite !(betwin_nth stake_per_game df_mc_set _ r m Hm). reflexivity.
Qed.

Lemma arr_mc_length (stake_per_game : float64) (df_mc_set : list mc_row) :
  List.length (arr_mc stake_per_game df_mc_set) = List.length df_mc_set.
Proof.
  unfold arr_mc, to_numpy. now rewrite length_map, length_seq.
Qed.

(** X11: [arr_mc] is a matrix of three columns, and the row of a match
    whose winner code is none of ["1"], ["X"], ["2"] holds [-stake] in all
    three: every bet on such a match is lost. *)
Theorem arr_mc_unknown_winner (stake_per_game : float64) (df_mc_set : list mc_row) :
  rectangular 3 (arr_mc stake_per_game df_mc_set) /\
  forall (r : nat) (m : mc_row),
    nth_error df_mc_set r = Some m ->
    ~ In (winner_code_sofascore m) outcomes ->
    nth_error (arr_mc stake_per_game df_mc_set) r
    = Some [PrimFloat.opp stake_per_game; PrimFloat.opp stake_per_game;
            PrimFloat.opp stake_per_game].
Proof.
  split.
  - unfold rectangular. apply Forall_forall. intros row Hrow.
    apply In_nth_error in Hrow. destruct Hrow as [r Hr].
    assert (r < List.length df_mc_set)%nat as Hlt
      by (rewrite <- (arr_mc_length stake_per_game); apply nth_error_Some; congruence).
    destruct (nth_error df_mc_set r) as [m |] eqn:Hm;
      [| apply nth_error_None in Hm; lia].
    rewrite (arr_mc_row _ _ _ _ Hm) in Hr. injection Hr as <-. reflexivity.
  - intros r m Hm Hout. rewrite (arr_mc_row _ _ _ _ Hm).
    unfold outcomes, betwin_cell. simpl map.
    assert (forall o, In o outcomes -> String.eqb (winner_code_sofascore m) o = false)
      as Hne.
    { intros o Ho. apply String.eqb_neq. intros Heq. apply Hout. now rewrite Heq. }
    rewrite !Hne by (simpl; auto). reflexivity.
Qed.

Lemma arr_mc_unknown_winner_witness :
  nth_error abandoned_match 0 = Some (nth 0 abandoned_match
    {| winner_code_sofascore := ""; odds_1_closed := 0%float;
       odds_X_closed := 0%float; odds_2_closed := 0%float |}) /\
  ~ In "3"%string outcomes /\
  nth_error (arr_mc 10%float abandoned_match) 0
  = Some [(-10)%float; (-10)%float; (-10)%float].
Proof.
  assert (~ In "3"%string outcomes) as Hout.
  { simpl. intros [H | [H | [H | []]]]; discriminate H. }
  split; [reflexivity |]. split; [exact Hout |].
  exact (proj2 (arr_mc_unknown_winner 10%float abandoned_match) 0%nat _ eq_refl Hout).
Defined.

(** ** The underdog matrix *)

Lemma loc_rows_In {A B : Type} (f : A -> bool) (df : list A) :
  forall (rows : list B) (row : B),
    List.length rows = List.length df ->
    (In row (loc_rows (map f df) rows)
     <-> exists r m, nth_error df r = Some m /\ f m = true /\
                     nth_error rows r = Some row).
Proof.
  induction df as [| m0 df IH]; intros [| row0 rows] row Hlen; simpl in Hlen;
    try discriminate.
  - simpl. split; [contradiction | intros (r & m & Hm & _); destruct r; discriminate].
  - injection Hlen as Hlen. simpl. destruct (f m0) eqn:Hf.
    + simpl. rewrite (IH rows row Hlen). split.
      * intros [<- | (r & m & Hm & Hfm & Hrow)].
        -- exists 0%nat, m0. repeat split; assumption.
        -- exists (S r), m. repeat split; assumption.
      * intros ([| r] & m & Hm & Hfm & Hrow); simpl in *.
        -- left. congruence.
        -- right. exists r, m. repeat split; assumption.
    + rewrite (IH rows row Hlen). split.
      * intros (r & m & Hm & Hfm & Hrow). exists (S r), m. repeat split; assumption.
      * intros ([| r] & m & Hm & Hfm & Hrow); simpl in *.
        -- congruence.
        -- exists r, m. repeat split; assumption.
Qed.

Lemma loc_rows_length {A B : Type} (f : A -> bool) (df : list A) :
  forall rows : list B,
    (List.length (loc_rows (map f df) rows) <= List.length df)%nat.
Proof.
  induction df as [| m0 df IH]; intros [| row0 rows]; simpl; try lia.
  destruct (f m0); simpl; specialize (IH rows); lia.
Qed.

Lemma ltb_nan_l (x : float64) : PrimFloat.ltb nan x = false.
Proof.
  rewrite ltb_spec. change (Prim2SF nan) with S754_nan. reflexivity.
Qed.

Lemma ltb_nan_r (x : float64) : PrimFloat.ltb x nan = false.
Proof.
  rewrite ltb_spec. change (Prim2SF nan) with S754_nan.
  destruct (Prim2SF x) as [[|] | [|] | | [|] m e]; reflexivity.
Qed.

Lemma arr_mc_underdog_In (stake_per_game : float64) (df_mc_set : list mc_row)
    (row : list float64) :
  In row (arr_mc_underdog stake_per_game df_mc_set)
  <-> exists m, In m df_mc_set /\ underdog m = true /\
                row = map (betwin_cell stake_per_game m) outcomes.
Proof.
  unfold arr_mc_underdog.
  rewrite (loc_rows_In underdog df_mc_set _ row (arr_mc_length _ _)). split.
  - intros (r & m & Hm & Hu & Hrow).
    rewrite (arr_mc_row _ _ _ _ Hm) in Hrow. injection Hrow as <-.
    exists m. split; [eapply nth_error_In; exact Hm |]. split; [exact Hu | reflexivity].
  - intros (m & Hin & Hu & ->).
    apply In_nth_error in Hin. destruct Hin as [r Hm].
    exists r, m. split; [exact Hm |]. split; [exact Hu |].
    apply arr_mc_row, Hm.
Qed.

Lemma arr_mc_underdog_rectangular (stake_per_game : float64) (df_mc_set : list mc_row) :
  rectangular 3 (arr_mc_underdog stake_per_game df_mc_set).
Proof.
  unfold rectangular. apply Forall_forall. intros row Hrow.
  apply arr_mc_underdog_In in Hrow. destruct Hrow as (m & _ & _ & ->). reflexivity.
Qed.

(** X12: the rows of [arr_mc_underdog] are exactly the payout rows of the
    matches that pass the mask, so there are at most as many as matches and
    each has three columns; a match one of whose two compared odds is NaN
    never passes the mask. *)
Theorem arr_mc_underdog_rows (stake_per_game : float64) (df_mc_set : list mc_row) :
  (List.length (arr_mc_underdog stake_per_game df_mc_set) <= List.length df_mc_set)%nat /\
  rectangular 3 (arr_mc_underdog stake_per_game df_mc_set) /\
  (forall row : list float64,
      In row (arr_mc_underdog stake_per_game df_mc_set)
      <-> exists m, In m df_mc_set /\ underdog m = true /\
                    row = map (betwin_cell stake_per_game m) outcomes) /\
  (forall m : mc_row,
      odds_1_closed m = nan \/ odds_2_closed m = nan -> underdog m = false).
Proof.
  split; [apply loc_rows_length |].
  split; [apply arr_mc_underdog_rectangular |].
  split; [intros row; apply arr_mc_underdog_In |].
  intros m [H1 | H2]; unfold underdog.
  - rewrite H1, ltb_nan_r. reflexivity.
  - rewrite H2, add_nan_l, ltb_nan_l. reflexivity.
Qed.

Lemma arr_mc_underdog_rows_witness :
  (In [PrimFloat.mul 10 (PrimFloat.sub 4.5 1); (-10)%float; (-10)%float]
      (arr_mc_underdog 10%float three_matches)
   <-> exists m, In m three_matches /\ underdog m = true /\
                 [PrimFloat.mul 10 (PrimFloat.sub 4.5 1); (-10)%float; (-10)%float]
                 = map (betwin_cell 10%float m) outcomes) /\
  (odds_1_closed (nth 2 three_matches (nth 0 three_matches
     {| winner_code_sofascore := ""; odds_1_closed := 0%float;
        odds_X_closed := 0%float; odds_2_closed := 0%float |})) = nan
   \/ odds_2_closed (nth 2 three_matches (nth 0 three_matches
     {| winner_code_sofascore := ""; odds_1_closed := 0%float;
        odds_X_closed := 0%float; odds_2_closed := 0%float |})) = nan) /\
  underdog (nth 2 three_matches (nth 0 three_matches
     {| winner_code_sofascore := ""; odds_1_closed := 0%float;
        odds_X_closed := 0%float; odds_2_closed := 0%float |})) = false.
Proof.
  pose proof (arr_mc_underdog_rows 10%float three_matches) as (_ & _ & Hrows & Hnan).
  split; [apply Hrows |].
  assert (odds_1_closed (nth 2 three_matches (nth 0 three_matches
     {| winner_code_sofascore := ""; odds_1_closed := 0%float;
        odds_X_closed := 0%float; odds_2_closed := 0%float |})) = nan
   \/ odds_2_closed (nth 2 three_matches (nth 0 three_matches
     {| winner_code_sofascore := ""; odds_1_closed := 0%float;
        odds_X_closed := 0%float; odds_2_closed := 0%float |})) = nan) as H
    by (left; reflexivity).
  split; [exact H | exact (Hnan _ H)].
Defined.

Lemma monte_carlo_sum_zero_rows (G : Generator) (iteration batch : Z)
    (cols : list nat) (g : rng_state G) :
  (0 < iteration)%Z -> (0 < batch)%Z ->
  monte_carlo_sum G [] iteration batch cols g = (Raise ValueError, rng_seed G 12345).
Proof.
  intros HI HB. unfold monte_carlo_sum, bind, np_random_seed, np_empty.
  destruct (Z.ltb_spec iteration 0) as [Hneg | _]; [lia |]. unfold ret.
  destruct (Z.to_nat iteration) as [| n] eqn:En; [lia |].
  simpl. cbv [bind monte_carlo_step select_random_row np_random_choice_int shape0].
  destruct (Z.ltb_spec batch 0) as [Hneg | _]; [lia |].
  destruct (Z.to_nat batch) as [| k] eqn:Ek; [lia |].
  simpl List.length. rewrite draws_empty_range. reflexivity.
Qed.

(** X13: [monte_carlo_sum] on the underdog matrix with the home column as
    the only enabled one (the call of the underdog cell, there with 100000
    iterations of 1000 bets). If no match passes the mask, the call raises
    a [ValueError] as soon as a bet is to be drawn. If some match passes,
    every profit is the sum of [B] values, each the home-win cell of a match
    that passes the mask: its winnings at the home odds if the home team
    won, [-stake] otherwise. *)
Theorem underdog_profits (G : Generator) (stake_per_game : float64)
    (df_mc_set : list mc_row) (I B : Z) (g : rng_state G) :
  (Forall (fun m => underdog m = false) df_mc_set ->
   (0 < I)%Z -> (0 < B)%Z ->
   monte_carlo_sum G (arr_mc_underdog stake_per_game df_mc_set) I B [0%nat] g
   = (Raise ValueError, rng_seed G 12345)) /\
  (in_range G ->
   Exists (fun m => underdog m = true) df_mc_set ->
   (0 <= I)%Z -> (0 <= B)%Z ->
   exists (profits : ndarray1) (g' : rng_state G),
     monte_carlo_sum G (arr_mc_underdog stake_per_game df_mc_set) I B [0%nat] g
     = (Ok profits, g') /\
     List.length profits = Z.to_nat I /\
     forall i, (i < Z.to_nat I)%nat ->
       exists payouts : ndarray1,
         List.length payouts = Z.to_nat B /\
         nth i profits 0%float = fold_left PrimFloat.add payouts 0%float /\
         Forall (fun x => exists m, In m df_mc_set /\ underdog m = true /\
                                    x = betwin_cell stake_per_game m "1")
                payouts).
Proof.
  pose proof (arr_mc_underdog_rectangular stake_per_game df_mc_set) as Hrect.
  pose proof (arr_mc_underdog_In stake_per_game df_mc_set) as Hrows.
  split.
  - intros Hnone HI HB.
    destruct (arr_mc_underdog stake_per_game df_mc_set) as [| row rest] eqn:E;
      [apply monte_carlo_sum_zero_rows; assumption |].
    exfalso. destruct (proj1 (Hrows row) (or_introl eq_refl)) as (m & Hm & Hu & _).
    rewrite Forall_forall in Hnone. rewrite (Hnone m Hm) in Hu. discriminate Hu.
  - intros Hrange Hsome HI HB.
    set (data := arr_mc_underdog stake_per_game df_mc_set) in *.
    assert (data <> []) as Hdata.
    { apply Exists_exists in Hsome. destruct Hsome as (m & Hm & Hu). intros Hnil.
      assert (In (map (betwin_cell stake_per_game m) outcomes) data) as Hin
        by (apply Hrows; exists m; repeat split; assumption).
      rewrite Hnil in Hin. exact Hin. }
    assert ([0%nat] <> []) as Hcols by discriminate.
    assert (Forall (fun c => (c < 3)%nat) [0%nat]) as Hin by (repeat constructor).
    pose proof (nonempty_length data Hdata) as HR.
    rewrite (monte_carlo_sum_runs G Hrange 3 data [0%nat] B Hdata Hrect Hcols Hin HB I g HI).
    simpl List.length.
    pose proof (unfold_runs_length G (run_draws G (List.length data) 1 (Z.to_nat B))
                  (Z.to_nat I) (rng_seed G 12345)) as Hlen.
    pose proof (unfold_runs_Forall G (run_draws G (List.length data) 1 (Z.to_nat B))
                  (fun ds => List.length ds = Z.to_nat B /\
                             Forall (fun d => (fst d < List.length data)%nat /\
                                              (snd d < 1)%nat) ds)
                  (fun s => run_draws_spec G _ _ _ s Hrange HR Nat.lt_0_1)
                  (Z.to_nat I) (rng_seed G 12345)) as Hall.
    fold (stream_runs G (List.length data) 1 (Z.to_nat B) (Z.to_nat I)
            (rng_seed G 12345)) in Hlen, Hall.
    destruct (stream_runs G (List.length data) 1 (Z.to_nat B) (Z.to_nat I)
                (rng_seed G 12345)) as [runs g'].
    simpl in Hlen, Hall. simpl fst. simpl snd.
    eexists _, g'. split; [reflexivity |].
    split; [now rewrite length_map |].
    intros i Hi.
    assert (In (nth i runs []) runs) as Hmem by (apply nth_In; lia).
    rewrite Forall_forall in Hall. destruct (Hall _ Hmem) as [Hl Hds].
    exists (map (payout data [0%nat]) (nth i runs [])).
    split; [now rewrite length_map |].
    split; [rewrite (nth_map_in _ runs i _ []) by lia; reflexivity |].
    apply Forall_map. eapply Forall_impl; [| exact Hds].
    intros [r j] [Hr _]. simpl in Hr.
    assert (In (nth r data []) data) as Hrow by (apply nth_In, Hr).
    apply Hrows in Hrow. destruct Hrow as (m & Hm & Hu & Erow).
    exists m. split; [exact Hm |]. split; [exact Hu |].
    unfold payout. simpl fst. simpl snd.
    replace (nth j [0%nat] O) with O by (destruct j as [| [| j]]; reflexivity).
    rewrite Erow. reflexivity.
Qed.

Lemma underdog_profits_witness :
  Forall (fun m => underdog m = false) two_matches /\ (0 < 2)%Z /\ (0 < 3)%Z /\
  monte_carlo_sum lcg (arr_mc_underdog 10%float two_matches) 2 3 [0%nat] 7%Z
  = (Raise ValueError, rng_seed lcg 12345) /\
  in_range lcg /\
  Exists (fun m => underdog m = true) three_matches /\ (0 <= 2)%Z /\ (0 <= 3)%Z /\
  exists (profits : ndarray1) (g' : rng_state lcg),
    monte_carlo_sum lcg (arr_mc_underdog 10%float three_matches) 2 3 [0%nat] 7%Z
    = (Ok profits, g') /\
    List.length profits = Z.to_nat 2.
Proof.
  assert (Forall (fun m => underdog m = false) two_matches) as Hnone
    by (repeat constructor).
  assert (Exists (fun m => underdog m = true) three_matches) as Hsome
    by (left; reflexivity).
  assert (0 < 2)%Z as H2 by lia.
  assert (0 < 3)%Z as H3 by lia.
  assert (0 <= 2)%Z as H2' by lia.
  assert (0 <= 3)%Z as H3' by lia.
  split; [exact Hnone |]. split; [exact H2 |]. split; [exact H3 |].
  split; [exact (proj1 (underdog_profits lcg 10%float two_matches 2 3 7%Z)
                   Hnone H2 H3) |].
  split; [exact lcg_in_range |]. split; [exact Hsome |].
  split; [exact H2' |]. split; [exact H3' |].
  destruct (proj2 (underdog_profits lcg 10%float three_matches 2 3 7%Z)
              lcg_in_range Hsome H2' H3') as (profits & g' & Hrun & Hlen & _).
  exists profits, g'. split; [exact Hrun | exact Hlen].
Defined.

(** ** Percentiles: order of the runs, shape, a single run *)



Lemma filter_length_bound {A : Type} (f : A -> bool) (l : list A) :
  (List.length (filter f l) <= List.length l)%nat.
Proof.
  induction l as [| x l IH]; simpl; [lia |]. destruct (f x); simpl; lia.
Qed.








Lemma timeseries_rows (G : Generator) (K : nat) (arr_mc : ndarray2)
    (n_iteration n_bets_ts : Z) (initial_balance : float64) (s : rng_state G) :
  in_range G ->
  arr_mc <> [] -> rectangular K arr_mc -> (3 <= K)%nat ->
  (0 <= n_iteration)%Z -> (0 <= n_bets_ts)%Z ->
  exists (rows : ndarray2) (s' : rng_state G),
    timeseries G arr_mc n_iteration n_bets_ts initial_balance s = (Ok rows, s') /\
    List.length rows = Z.to_nat n_iteration /\
    Forall (fun row => List.length row = Z.to_nat n_bets_ts) rows.
Proof.
  intros Hrange Hdata Hrect HK HI Hn.
  pose proof (nonempty_length arr_mc Hdata) as HR.
  assert (0 < 3)%nat as H3 by lia.
  rewrite (timeseries_runs G K arr_mc n_iteration n_bets_ts initial_balance s
             Hrange Hdata Hrect HK HI Hn).
  eexists _, _. split; [reflexivity |]. unfold stream_runs.
  split; [now rewrite length_map, unfold_runs_length |].
  apply Forall_map. apply unfold_runs_Forall. intros s0.
  rewrite length_map, np_cumsum_length, length_map.
  apply (run_draws_spec G _ _ _ s0 Hrange HR H3).
Qed.

Lemma quantiles_f64_rows (a : ndarray2) :
  a <> [] -> (Z.of_nat (List.length a) <= 2 ^ 53)%Z ->
  exists out : ndarray2,
    quantiles_f64 a = Ok out /\ List.length out = 3%nat /\
    Forall (fun row => List.length row = width_f64 a) out.
Proof.
  intros Hne Hlen.
  destruct (np_percentile_f64_entries a quantiles_arr_f64 Hne Hlen eq_refl)
    as (out & Hout & Hlo & Hentries).
  exists out. split; [exact Hout |]. split; [exact Hlo |].
  assert (0 < 3)%nat as L0 by lia.
  assert (1 < 3)%nat as L1 by lia.
  assert (2 < 3)%nat as L2 by lia.
  pose proof (proj1 (Hentries 0%nat L0)) as H0.
  pose proof (proj1 (Hentries 1%nat L1)) as H1.
  pose proof (proj1 (Hentries 2%nat L2)) as H2.
  destruct out as [| r0 [| r1 [| r2 [| r3 out]]]]; try discriminate Hlo.
  repeat constructor; assumption.
Qed.

(** X15: [quantiles], as [np.percentile] computes it in binary64 on the
    matrix of the trajectory cell, has three rows of one value per time
    step: on any matrix with at least one run (and at most 2^53), and so on
    the matrix that the trajectory loop returns for at least one run on a
    payout matrix of three columns or more. On a matrix without a run
    [np.percentile] raises an [IndexError]. (Nothing is said here of the
    range of the values: under overflow they leave the range of the
    balances.) *)
Theorem quantiles_shape (G : Generator) (K : nat) (arr_mc : ndarray2)
    (n_iteration n_bets_ts : Z) (initial_balance : float64) (s : rng_state G) :
  quantiles_f64 [] = Raise IndexError /\
  (forall a : ndarray2,
      a <> [] -> (Z.of_nat (List.length a) <= 2 ^ 53)%Z ->
      exists out : ndarray2,
        quantiles_f64 a = Ok out /\ List.length out = 3%nat /\
        Forall (fun row => List.length row = width_f64 a) out) /\
  (in_range G ->
   arr_mc <> [] -> rectangular K arr_mc -> (3 <= K)%nat ->
   (0 < n_iteration <= 2 ^ 53)%Z -> (0 <= n_bets_ts)%Z ->
   exists (timeseries_arr : ndarray2) (s' : rng_state G) (out : ndarray2),
     timeseries G arr_mc n_iteration n_bets_ts initial_balance s
     = (Ok timeseries_arr, s') /\
     quantiles_f64 timeseries_arr = Ok out /\
     List.length out = 3%nat /\
     Forall (fun row => List.length row = Z.to_nat n_bets_ts) out).
Proof.
  split; [reflexivity |]. split; [exact quantiles_f64_rows |].
  intros Hrange Hdata Hrect HK HI Hn.
  destruct (timeseries_rows G K arr_mc n_iteration n_bets_ts initial_balance s
              Hrange Hdata Hrect HK) as (rows & s' & Hrun & Hlen & Hrows); [lia | lia |].
  assert (rows <> []) as Hne
    by (intros Hnil; rewrite Hnil in Hlen; simpl in Hlen; lia).
  assert (Z.of_nat (List.length rows) <= 2 ^ 53)%Z as Hbound by (rewrite Hlen; lia).
  destruct (quantiles_f64_rows rows Hne Hbound) as (out & Hout & Hlo & Hwidth).
  exists rows, s', out. repeat split; try assumption.
  assert (width_f64 rows = Z.to_nat n_bets_ts) as Hw.
  { destruct rows as [| row rest]; [congruence |]. inversion Hrows; subst. assumption. }
  now rewrite <- Hw.
Qed.

Lemma quantiles_shape_witness :
  in_range lcg /\
  scenario <> [] /\ rectangular 3 scenario /\ (3 <= 3)%nat /\
  (0 < 2 <= 2 ^ 53)%Z /\ (0 <= 5)%Z /\
  exists (timeseries_arr : ndarray2) (s' : rng_state lcg) (out : ndarray2),
    timeseries lcg scenario 2 5 10000%float 7%Z = (Ok timeseries_arr, s') /\
    quantiles_f64 timeseries_arr = Ok out /\
    List.length out = 3%nat /\
    Forall (fun row => List.length row = Z.to_nat 5) out.
Proof.
  assert (rectangular 3 scenario) as Hrect by (repeat constructor).
  assert (scenario <> []) as Hdata by discriminate.
  assert (3 <= 3)%nat as HK by lia.
  assert (0 < 2 <= 2 ^ 53)%Z as HI by lia.
  assert (0 <= 5)%Z as Hn by lia.
  repeat (split; [assumption || exact lcg_in_range |]).
  exact (proj2 (proj2 (quantiles_shape lcg 3 scenario 2 5 10000%float 7%Z))
           lcg_in_range Hdata Hrect HK HI Hn).
Defined.

Lemma np_lerp_same_at_one (x : float64) :
  np_isfinite x = true -> np_lerp x x 1%float = x.
Proof.
  unfold np_isfinite, np_lerp. intros Hx.
  change (PrimFloat.leb 0.5 1)%float with true. cbv iota.
  change (PrimFloat.sub 1 1)%float with 0%float.
  apply Prim2SF_inj. rewrite sub_spec, mul_spec, sub_spec.
  change (Prim2SF 0%float) with (S754_zero false).
  destruct (Prim2SF x) as [[|] | sx | | sx m e]; try discriminate Hx; try reflexivity.
  unfold SF64sub at 2. unfold SFsub. rewrite Z.sub_diag. reflexivity.
Qed.

Lemma np_lerp_infinite (x t : float64) :
  np_isfinite x = false -> np_isnan x = false -> np_lerp x x t = nan.
Proof.
  unfold np_isfinite, np_isnan, np_lerp. intros Hinf Hnan.
  assert (PrimFloat.sub x x = nan) as ->.
  { apply Prim2SF_inj. rewrite sub_spec.
    destruct (Prim2SF x) as [s | [|] | | s m e]; try discriminate; reflexivity. }
  destruct (PrimFloat.leb 0.5 t); apply Prim2SF_inj;
    rewrite ?sub_spec, ?add_spec, mul_spec;
    change (Prim2SF nan) with S754_nan;
    destruct (Prim2SF x) as [s | [|] | | s m e]; try discriminate; reflexivity.
Qed.

Lemma quantile_1d_single (x q : float64) :
  get_indexes (get_virtual_index 1 q) 1 = ((-1)%Z, (-1)%Z) ->
  quantile_1d [x] q
  = Ok (if np_isnan x then x
        else np_lerp x x (PrimFloat.sub (get_virtual_index 1 q) (int_to_f64 (-1)))).
Proof.
  intros Hidx. unfold quantile_1d.
  change (Z.of_nat (List.length [x])) with 1%Z. rewrite Hidx.
  change (F64Sort.sort [x]) with [x].
  change (take_f64 [x] (-1)) with (Ok x). cbv iota beta.
  destruct (np_isnan x); reflexivity.
Qed.

(** X19: with a single run, [np.percentile] in binary64 returns the run
    itself in each of the three rows of [quantiles] at every time step
    whose balance is finite or NaN; at a time step whose balance is
    infinite it returns NaN. *)
Theorem quantiles_f64_single_run (row : list float64) :
  exists out : ndarray2,
    quantiles_f64 [row] = Ok out /\
    List.length out = 3%nat /\
    forall i t, (i < 3)%nat -> (t < List.length row)%nat ->
      List.length (nth i out []) = List.length row /\
      (np_isfinite (nth t row nan) = true \/ np_isnan (nth t row nan) = true ->
       nth t (nth i out []) 0%float = nth t row nan) /\
      (np_isfinite (nth t row nan) = false -> np_isnan (nth t row nan) = false ->
       nth t (nth i out []) 0%float = nan).
Proof.
  destruct (np_percentile_f64_entries [row] quantiles_arr_f64)
    as (out & Hout & Hlo & Hentries);
    [discriminate | simpl; lia | reflexivity |].
  exists out. split; [exact Hout |]. split; [exact Hlo |].
  intros i t Hi Ht. destruct (Hentries i Hi) as [Hrow Hentry].
  split; [exact Hrow |].
  set (x := nth t row nan).
  assert (Ok (nth t (nth i out []) 0%float)
          = Ok (if np_isnan x then x else np_lerp x x 1%float)) as Hval.
  { etransitivity; [symmetry; exact (Hentry t Ht) |].
    change (column_f64 t [row]) with [x].
    destruct i as [| [| [| i]]]; [| | | lia];
      (etransitivity; [apply quantile_1d_single; reflexivity | reflexivity]). }
  injection Hval as Hval. split.
  - intros [Hfin | Hnan]; etransitivity; try exact Hval.
    + assert (np_isnan x = false) as ->
        by (unfold np_isfinite in Hfin; unfold np_isnan;
            destruct (Prim2SF x); try discriminate Hfin; reflexivity).
      now apply np_lerp_same_at_one.
    + now rewrite Hnan.
  - intros Hinf Hnan. etransitivity; [exact Hval |]. rewrite Hnan.
    now apply np_lerp_infinite.
Qed.

Lemma quantiles_f64_single_run_witness :
  (1 < 3)%nat /\ (0 < List.length [5%float; infinity])%nat /\
  (1 < List.length [5%float; infinity])%nat /\
  (np_isfinite 5%float = true \/ np_isnan 5%float = true) /\
  np_isfinite infinity = false /\ np_isnan infinity = false /\
  exists out : ndarray2,
    quantiles_f64 [[5%float; infinity]] = Ok out /\
    nth 0 (nth 1 out []) 0%float = 5%float /\
    nth 1 (nth 1 out []) 0%float = nan.
Proof.
  assert (1 < 3)%nat as Hi by lia.
  assert (0 < List.length [5%float; infinity])%nat as H0 by (simpl; lia).
  assert (1 < List.length [5%float; infinity])%nat as H1 by (simpl; lia).
  assert (np_isfinite 5%float = true \/ np_isnan 5%float = true) as Hfin by (left; reflexivity).
  assert (np_isfinite infinity = false) as Hinf by reflexivity.
  assert (np_isnan infinity = false) as Hnan by reflexivity.
  split; [exact Hi |]. split; [exact H0 |]. split; [exact H1 |].
  split; [exact Hfin |]. split; [exact Hinf |]. split; [exact Hnan |].
  destruct (quantiles_f64_single_run [5%float; infinity]) as (out & Hout & _ & Hall).
  exists out. split; [exact Hout |]. split.
  - exact (proj1 (proj2 (Hall 1%nat 0%nat Hi H0)) Hfin).
  - exact (proj2 (proj2 (Hall 1%nat 1%nat Hi H1)) Hinf Hnan).
Defined.



(** ** The long table of the quantiles *)

Lemma nth_flat_map_blocks {A B : Type} (g : A -> list B) (T : nat) (dx : A) (d : B)
    (l : list A) :
  Forall (fun x => List.length (g x) = T) l ->
  forall k, (k < List.length l * T)%nat ->
    nth k (flat_map g l) d = nth (k mod T) (g (nth (k / T) l dx)) d.
Proof.
  induction 1 as [| x l Hx _ IH]; intros k Hk; simpl in Hk; [lia |].
  assert (T <> 0)%nat as HT by (intros ->; lia).
  cbn [flat_map]. destruct (Nat.lt_ge_cases k T) as [Hlt | Hge].
  - rewrite app_nth1 by lia.
    rewrite Nat.div_small, Nat.mod_small by exact Hlt. reflexivity.
  - rewrite app_nth2 by lia. rewrite Hx.
    assert (k = (k - T) + 1 * T)%nat as Ek by lia.
    rewrite Ek at 2 3. rewrite Nat.div_add, Nat.Div0.mod_add by exact HT.
    replace ((k - T) / T + 1)%nat with (S ((k - T) / T)) by lia.
    cbn [nth]. apply IH. lia.
Qed.

(** X17: the long table [df_quantiles] lists the rows of [quantiles] one
    after the other: its [k]-th line carries the name of percentile
    [k / T] and the value of that percentile at time step [k mod T], and
    the abscissa built by [np.tile] gives that line the time step
    [k mod T]. *)
Theorem df_quantiles_alignment {L A : Type} (d : A) (dl : L) (T : nat)
    (columns : list L) (quantiles_rows : list (list A)) (k : nat) :
  List.length columns = List.length quantiles_rows ->
  (k < List.length quantiles_rows * T)%nat ->
  nth k (df_quantiles d T columns quantiles_rows) (dl, d)
  = (nth (k / T) columns dl, nth (k mod T) (nth (k / T) quantiles_rows []) d) /\
  nth k (np_tile (np_arange (Z.of_nat T)) (List.length quantiles_rows)) 0%Z
  = Z.of_nat (k mod T).
Proof.
  intros Hlen Hk.
  assert (T <> 0)%nat as HT by (intros ->; lia).
  assert (k / T < List.length quantiles_rows)%nat as Hj
    by (apply Nat.Div0.div_lt_upper_bound; lia).
  assert (k mod T < T)%nat as Ht by (apply Nat.mod_upper_bound, HT).
  split.
  - unfold df_quantiles, melt.
    rewrite (nth_flat_map_blocks _ T (O, dl) (dl, d));
      [| apply Forall_forall; intros x _; unfold transpose;
         now rewrite !length_map, length_seq
       | rewrite length_combine, length_seq; lia].
    rewrite combine_nth by (now rewrite length_seq).
    rewrite seq_nth by lia. cbn [fst snd Nat.add].
    rewrite (nth_map_in _ (transpose d T quantiles_rows) (k mod T) _ [])
      by (unfold transpose; now rewrite length_map, length_seq).
    f_equal. unfold transpose.
    rewrite (nth_map_in _ (seq 0 T) (k mod T) _ O) by (now rewrite length_seq).
    rewrite seq_nth by exact Ht. cbn [Nat.add].
    apply (nth_map_in (fun row => nth (k mod T) row d) quantiles_rows (k / T) d []).
    exact Hj.
  - unfold np_tile, np_arange. rewrite Nat2Z.id.
    replace (List.concat (repeat (map Z.of_nat (seq 0 T)) (List.length quantiles_rows)))
      with (flat_map (fun a : list Z => a)
              (repeat (map Z.of_nat (seq 0 T)) (List.length quantiles_rows)))
      by (rewrite flat_map_concat_map, map_id; reflexivity).
    rewrite (nth_flat_map_blocks (fun a : list Z => a) T [] 0%Z);
      [| apply Forall_forall; intros x Hx; apply repeat_spec in Hx; subst x;
         now rewrite length_map, length_seq
       | now rewrite repeat_length].
    rewrite nth_repeat_lt by exact Hj.
    rewrite (nth_map_in _ (seq 0 T) (k mod T) _ O) by (now rewrite length_seq).
    now rewrite seq_nth.
Qed.

Lemma df_quantiles_alignment_witness :
  List.length ["1"; "50"; "99"]%string
  = List.length [[Some 0; Some 1]; [Some 4; Some 2]; [Some 10; Some 3]] /\
  (3 < List.length [[Some 0; Some 1]; [Some 4; Some 2]; [Some 10; Some 3]] * 2)%nat /\
  nth 3 (df_quantiles None 2 ["1"; "50"; "99"]%string
           [[Some 0; Some 1]; [Some 4; Some 2]; [Some 10; Some 3]]) (""%string, None)
  = ("50"%string, Some 2) /\
  nth 3 (np_tile (np_arange 2) 3) 0%Z = 1%Z.
Proof.
  assert (List.length ["1"; "50"; "99"]%string
          = List.length [[Some 0; Some 1]; [Some 4; Some 2]; [Some 10; Some 3]]) as Hlen
    by reflexivity.
  assert (3 < List.length [[Some 0; Some 1]; [Some 4; Some 2]; [Some 10; Some 3]] * 2)%nat
    as Hk by (simpl; lia).
  split; [exact Hlen |]. split; [exact Hk |].
  exact (df_quantiles_alignment None ""%string 2 ["1"; "50"; "99"]%string
           [[Some 0; Some 1]; [Some 4; Some 2]; [Some 10; Some 3]] 3 Hlen Hk).
Defined.

(** ** Sum and running sum *)

(** X18: the last running total of [np.cumsum] and the sum that
    [monte_carlo_sum] takes of the same payouts agree up to the sign of a
    zero: they are the same binary64 value, unless the running total is
    negative zero, where the sum started from zero is positive zero. *)
Theorem cumsum_last_is_sum (v : ndarray1) :
  v <> [] ->
  last (np_cumsum v) 0%float = array_sum v \/
  (last (np_cumsum v) 0%float = (-0)%float /\ array_sum v = 0%float).
Proof.
  destruct v as [| x rest]; [congruence |]. intros _.
  unfold np_cumsum. rewrite cumsum_from_last.
  unfold array_sum. cbn [fold_left].
  apply fold_add_zero_like, add_zero_l.
Qed.

Lemma cumsum_last_is_sum_witness :
  [(-0)%float; (-0)%float] <> [] /\
  (last (np_cumsum [(-0)%float; (-0)%float]) 0%float
   = array_sum [(-0)%float; (-0)%float] \/
   (last (np_cumsum [(-0)%float; (-0)%float]) 0%float = (-0)%float /\
    array_sum [(-0)%float; (-0)%float] = 0%float)).
Proof.
  assert ([(-0)%float; (-0)%float] <> []) as Hne by discriminate.
  split; [exact Hne |].
  exact (cumsum_last_is_sum [(-0)%float; (-0)%float] Hne).
Defined.
